(** * Import and export of Postman collections

    A shallow embedding of [internal/service/collection_service.go]
    (ImportPostmanCollection, processPostmanItems, ExportPostmanCollection),
    of the entity types of package [models] it works on, and of the two
    repositories it calls, followed by the properties of the converter.

    The definitions then go on to the rest of the two services
    ([CollectionService], [RequestService]) with the repository methods
    they call, to the pagination helpers of the handlers and to the OpenAPI
    service; their properties come last, under _Further properties_.

    Conventions.
    - A Go slice is an [option (list A)]: [None] is the nil slice, which
      [encoding/json] writes as [null], [Some []] an empty non-nil slice,
      written as [[]].  A Go map is an [option (gmap string V)] in the same
      way.
    - A value of type [any] that came out of [encoding/json] is a JSON tree
      ([JSON] below); the byte strings passed between [json.Marshal] and
      [json.Unmarshal] are represented by the tree they denote.  A number
      is the rational it denotes; the numbers of a Go value are [float64]
      values, those of a payload are decimal literals, which
      [encoding/json] converts with [strconv.ParseFloat] when it reads them
      into an [any] ([decode_any] below).
    - The decoding of JSON text into the struct types of package [models],
      [fmt.Sprintf], and the iteration order of [range] over a map belong to
      the Go runtime; they are the fields of the class [Runtime], and every
      theorem holds for all of its instances.
    - The service runs in the monad [M]: a storage state is threaded through
      the repository calls, and it survives a failing call. *)

From Stdlib Require Import QArith.Qcanon Strings.Ascii.
From stdpp Require Import gmap strings list fin_maps sorting pretty.

Set Warnings "-register-all".

Open Scope string_scope.
Open Scope list_scope.
Open Scope Z_scope.

(** ** Go values *)

Abbreviation slice A := (option (list A)) (only parsing).

(** The elements a [for _, x := range s] visits. *)
Definition elems {A} (s : slice A) : list A := default [] s.

Definition len {A} (s : slice A) : nat := length (elems s).

(** [append(s, x)]: never nil. *)
Definition append {A} (s : slice A) (x : A) : slice A := Some (elems s ++ [x]).

Inductive JSON : Type :=
  | JNull
  | JBool (b : bool)
  | JNum (q : Qc)
  | JStr (s : string)
  | JArr (l : list JSON)
  | JObj (m : gmap string JSON).

(** [models.JSONMap], i.e. [map[string]any]; [None] is the nil map. *)
Abbreviation JSONMap := (option (gmap string JSON)) (only parsing).

(** The entries of a Go map; a nil map reads as an empty one. *)
Definition entries {V} (m : option (gmap string V)) : gmap string V := default ∅ m.

(** [json.RawMessage]: nil, or the text of one JSON value, kept as it was
    written.  The program meets text of two writers, which read
    differently.  [payload j] is text out of a request payload: it spells
    the value [j], with numbers that are decimal literals of any size and
    precision.  [marshalled v] is the text [json.Marshal] wrote for the Go
    value [v]: its numbers are the [float64] values of [v], printed so that
    they read back as themselves. *)
Inductive RawText : Type :=
  | payload (j : JSON)
  | marshalled (v : JSON).

Abbreviation RawMessage := (option RawText) (only parsing).

(** The value the text spells. *)
Definition spelled (text : RawText) : JSON :=
  match text with
  | payload j => j
  | marshalled v => v
  end.

Inductive error : Type :=
  | errors_New (msg : string)
  | fmt_Errorf (context : string) (cause : error)
  | json_SyntaxError
  | json_UnmarshalTypeError (value : string)
  | sql_ErrNoRows
  | sql_Error.

Inductive result (A : Type) : Type :=
  | Ok (a : A)
  | Err (e : error).
Arguments Ok {A} a.
Arguments Err {A} e.

(** ** Package models *)

Record KeyValuePair := mkKeyValuePair {
  kv_Key : string;
  kv_Value : string;
  kv_Description : JSON;
  kv_Type : string;
  kv_Disabled : bool;
  kv_Name : string }.

Record PostmanScript := mkPostmanScript {
  script_Type : string;
  script_Exec : slice string;
  script_ID : string;
  script_Src : string }.

Record PostmanEvent := mkPostmanEvent {
  event_Listen : string;
  event_Script : PostmanScript;
  event_Disabled : bool }.

Record PostmanResponse := mkPostmanResponse {
  resp_Name : string;
  resp_OriginalReq : RawMessage;
  resp_Status : string;
  resp_Code : Z;
  resp_Header : slice KeyValuePair;
  resp_Body : string;
  resp_Cookie : slice RawMessage;
  resp_PreviewType : string;
  resp_PostmanID : string }.

Record PostmanBody := mkPostmanBody {
  body_Mode : string;
  body_Raw : string;
  body_URLEncoded : slice KeyValuePair;
  body_FormData : slice KeyValuePair;
  body_GraphQL : RawMessage;
  body_File : RawMessage;
  body_Options : RawMessage }.

Record PostmanRequest := mkPostmanRequest {
  preq_URL : JSON;
  preq_Method : string;
  preq_Header : slice KeyValuePair;
  preq_Body : PostmanBody;
  preq_Description : string;
  preq_Auth : RawMessage }.

(** A folder or a request of a collection.  [item_Request] is a pointer:
    [None] is nil. *)
Inductive PostmanItem : Type := mkPostmanItem {
  item_Name : string;
  item_Description : string;
  item_Item : slice PostmanItem;
  item_Request : option PostmanRequest;
  item_Response : slice PostmanResponse;
  item_Event : slice PostmanEvent;
  item_Variable : slice KeyValuePair;
  item_Auth : RawMessage;
  item_PostmanID : string }.

Record CollectionInfo := mkCollectionInfo {
  info_Name : string;
  info_Description : string;
  info_Schema : string;
  info_PostmanID : string;
  info_ExporterID : string;
  info_CollectionLink : string }.

Record PostmanCollection := mkPostmanCollection {
  pc_Info : CollectionInfo;
  pc_Item : slice PostmanItem;
  pc_Variable : slice KeyValuePair;
  pc_Auth : RawMessage;
  pc_Event : slice PostmanEvent;
  pc_Schema : string }.

(** A row of table [collections].  Timestamps are readings of a logical
    clock. *)
Record Collection := mkCollection {
  coll_ID : Z;
  coll_Name : string;
  coll_Description : string;
  coll_Schema : string;
  coll_Variables : JSONMap;
  coll_Auth : JSONMap;
  coll_Events : JSONMap;
  coll_Items : JSONMap;
  coll_PostmanID : string;
  coll_ExporterID : string;
  coll_CreatedAt : Z;
  coll_UpdatedAt : Z }.

(** A row of table [requests]. *)
Record Request := mkRequest {
  req_ID : Z;
  req_CollectionID : Z;
  req_Name : string;
  req_Description : string;
  req_FolderPath : string;
  req_URL : JSONMap;
  req_Method : string;
  req_Headers : option (gmap string string);
  req_Params : JSONMap;
  req_Body : JSONMap;
  req_Auth : JSONMap;
  req_Events : JSONMap;
  req_Responses : JSONMap;
  req_PostmanID : string;
  req_CreatedAt : Z;
  req_UpdatedAt : Z }.

(** ** Package encoding/json *)

(** *** Marshal

    The encoders follow the [json] struct tags of package [models].  A field
    list is turned into an object; the tags of one struct are distinct. *)

Definition object (fields : list (string * JSON)) : JSON :=
  JObj (list_to_map fields).

Definition omitempty_string (k s : string) : list (string * JSON) :=
  if decide (s = "") then [] else [(k, JStr s)].

Definition omitempty_bool (k : string) (b : bool) : list (string * JSON) :=
  if b then [(k, JBool true)] else [].

Definition omitempty_int (k : string) (n : Z) : list (string * JSON) :=
  if decide (n = 0) then [] else [(k, JNum (Qc_of_Z n))].

(** An interface field is empty when it is nil. *)
Definition omitempty_any (k : string) (v : JSON) : list (string * JSON) :=
  match v with JNull => [] | _ => [(k, v)] end.

Definition omitempty_raw (k : string) (r : RawMessage) : list (string * JSON) :=
  match r with None => [] | Some text => [(k, spelled text)] end.

Definition omitempty_slice {A} (k : string) (enc : A → JSON) (s : slice A)
  : list (string * JSON) :=
  match s with
  | Some (x :: l) => [(k, JArr (enc <$> x :: l))]
  | _ => []
  end.

(** A nil slice is written as [null], an empty one as [[]]. *)
Definition marshal_slice {A} (enc : A → JSON) (s : slice A) : JSON :=
  match s with
  | None => JNull
  | Some l => JArr (enc <$> l)
  end.

Definition marshal_raw (r : RawMessage) : JSON := default JNull (spelled <$> r).

Definition marshal_JSONMap (m : JSONMap) : JSON :=
  match m with
  | None => JNull
  | Some o => JObj o
  end.

Definition marshal_KeyValuePair (kv : KeyValuePair) : JSON :=
  object ([("key", JStr (kv_Key kv)); ("value", JStr (kv_Value kv))]
          ++ omitempty_any "description" (kv_Description kv)
          ++ omitempty_string "type" (kv_Type kv)
          ++ omitempty_bool "disabled" (kv_Disabled kv)
          ++ omitempty_string "name" (kv_Name kv)).

Definition marshal_PostmanScript (sc : PostmanScript) : JSON :=
  object ([("type", JStr (script_Type sc));
           ("exec", marshal_slice JStr (script_Exec sc))]
          ++ omitempty_string "id" (script_ID sc)
          ++ omitempty_string "src" (script_Src sc)).

Definition marshal_PostmanEvent (ev : PostmanEvent) : JSON :=
  object ([("listen", JStr (event_Listen ev));
           ("script", marshal_PostmanScript (event_Script ev))]
          ++ omitempty_bool "disabled" (event_Disabled ev)).

Definition marshal_PostmanResponse (r : PostmanResponse) : JSON :=
  object ([("name", JStr (resp_Name r))]
          ++ omitempty_raw "originalRequest" (resp_OriginalReq r)
          ++ omitempty_string "status" (resp_Status r)
          ++ omitempty_int "code" (resp_Code r)
          ++ omitempty_slice "header" marshal_KeyValuePair (resp_Header r)
          ++ omitempty_string "body" (resp_Body r)
          ++ omitempty_slice "cookie" marshal_raw (resp_Cookie r)
          ++ omitempty_string "_postman_previewlanguage" (resp_PreviewType r)
          ++ omitempty_string "id" (resp_PostmanID r)).

Definition marshal_PostmanBody (b : PostmanBody) : JSON :=
  object (omitempty_string "mode" (body_Mode b)
          ++ omitempty_string "raw" (body_Raw b)
          ++ omitempty_slice "urlencoded" marshal_KeyValuePair (body_URLEncoded b)
          ++ omitempty_slice "formdata" marshal_KeyValuePair (body_FormData b)
          ++ omitempty_raw "graphql" (body_GraphQL b)
          ++ omitempty_raw "file" (body_File b)
          ++ omitempty_raw "options" (body_Options b)).

(** [omitzero]: the field is left out when the struct is its zero value. *)
Definition PostmanBody_IsZero (b : PostmanBody) : bool :=
  bool_decide (body_Mode b = "") && bool_decide (body_Raw b = "")
  && bool_decide (body_URLEncoded b = None) && bool_decide (body_FormData b = None)
  && match body_GraphQL b, body_File b, body_Options b with
     | None, None, None => true
     | _, _, _ => false
     end.

Definition marshal_PostmanRequest (r : PostmanRequest) : JSON :=
  object ([("url", preq_URL r); ("method", JStr (preq_Method r))]
          ++ omitempty_slice "header" marshal_KeyValuePair (preq_Header r)
          ++ (if PostmanBody_IsZero (preq_Body r) then []
              else [("body", marshal_PostmanBody (preq_Body r))])
          ++ omitempty_string "description" (preq_Description r)
          ++ omitempty_raw "auth" (preq_Auth r)).

Fixpoint marshal_PostmanItem (item : PostmanItem) : JSON :=
  match item with
  | mkPostmanItem name description sub request response event variable auth id =>
    object ([("name", JStr name)]
            ++ omitempty_string "description" description
            ++ match sub with
               | Some (x :: l) => [("item", JArr (marshal_PostmanItem <$> x :: l))]
               | _ => []
               end
            ++ match request with
               | Some r => [("request", marshal_PostmanRequest r)]
               | None => []
               end
            ++ omitempty_slice "response" marshal_PostmanResponse response
            ++ omitempty_slice "event" marshal_PostmanEvent event
            ++ omitempty_slice "variable" marshal_KeyValuePair variable
            ++ omitempty_raw "auth" auth
            ++ omitempty_string "id" id)
  end.

Definition marshal_CollectionInfo (i : CollectionInfo) : JSON :=
  object ([("name", JStr (info_Name i))]
          ++ omitempty_string "description" (info_Description i)
          ++ omitempty_string "schema" (info_Schema i)
          ++ omitempty_string "_postman_id" (info_PostmanID i)
          ++ omitempty_string "_exporter_id" (info_ExporterID i)
          ++ omitempty_string "_collection_link" (info_CollectionLink i)).

(** Field [Item] carries the tag [json:"item"] without [omitempty]: it is
    always written, a nil slice as [null]. *)
Definition marshal_PostmanCollection (c : PostmanCollection) : JSON :=
  object ([("info", marshal_CollectionInfo (pc_Info c));
           ("item", marshal_slice marshal_PostmanItem (pc_Item c))]
          ++ omitempty_slice "variable" marshal_KeyValuePair (pc_Variable c)
          ++ omitempty_raw "auth" (pc_Auth c)
          ++ omitempty_slice "event" marshal_PostmanEvent (pc_Event c)
          ++ omitempty_string "schema" (pc_Schema c)).

(** [json.Marshal] returns an error only for values that have no JSON form
    (channels, functions, NaN); the values below are JSON trees and structs
    of package [models], so the encoders always answer [Ok]. *)
Definition json_Marshal {A} (enc : A → JSON) (v : A) : result JSON := Ok (enc v).

(** *** Unmarshal

    [unmarshal_JSONMap], [unmarshal_any] and [unmarshal_slice] read text
    that [json.Marshal] wrote for a Go value, or that the database wrote
    for a column filled from such text: every number of it is a [float64]
    value and reads back as itself.  [decode_any] and [decode_JSONMap]
    read text as a peer wrote it. *)

Definition json_kind (j : JSON) : string :=
  match j with
  | JNull => "null"
  | JBool _ => "bool"
  | JNum _ => "number"
  | JStr _ => "string"
  | JArr _ => "array"
  | JObj _ => "object"
  end.

(** [json.Unmarshal(text, &m)] for a nil [m] of type [JSONMap]: an object
    fills a fresh map, [null] leaves [m] nil, anything else is an
    [UnmarshalTypeError] and leaves [m] nil. *)
Definition unmarshal_JSONMap (j : JSON) : result JSONMap :=
  match j with
  | JObj o => Ok (Some o)
  | JNull => Ok None
  | _ => Err (json_UnmarshalTypeError (json_kind j))
  end.

(** [JSONMap.Scan(src)] on the nil map of a fresh struct.  [src] is the
    column value the driver hands over: [None] is SQL NULL, [Some j] the
    text of the JSON value [j].  NULL and text that does not decode into a
    map give an empty map; the method never reports an error. *)
Definition JSONMap_Scan (src : option JSON) : JSONMap :=
  match src with
  | None => Some ∅
  | Some sourceBytes =>
      match unmarshal_JSONMap sourceBytes with
      | Ok j => j
      | Err _ => Some ∅
      end
  end.

(** [json.Unmarshal(text, &v)] for a nil [v] of type [any]. *)
Definition unmarshal_any (j : JSON) : result JSON := Ok j.

Definition first_error (l : list (option error)) : option error :=
  mjoin (head (filter is_Some l)).

(** [json.Unmarshal(text, &s)] for a nil slice [s]: the slice afterwards and
    the error returned.  An array is decoded element by element, the first
    element error is the one reported; [null] leaves [s] nil; anything else
    is an [UnmarshalTypeError] and leaves [s] nil. *)
Definition unmarshal_slice {A} (dec : JSON → A * option error) (j : JSON)
  : slice A * option error :=
  match j with
  | JArr l => (Some (fst ∘ dec <$> l), first_error (snd ∘ dec <$> l))
  | JNull => (None, None)
  | _ => (None, Some (json_UnmarshalTypeError (json_kind j)))
  end.

(** *** Numbers

    [floor_log2 n d] is the integer part of the binary logarithm of
    [n / d], for positive [n] and [d]. *)
Definition floor_log2 (n d : Z) : Z :=
  let k := Z.log2 n - Z.log2 d in
  if decide (d * 2 ^ Z.max 0 k ≤ n * 2 ^ Z.max 0 (- k)) then k else k - 1.

(** The integer nearest to [n / d], for positive [d]; of two that are
    equally near, the even one. *)
Definition round_half_even (n d : Z) : Z :=
  let q := n `div` d in
  let r := n `mod` d in
  if decide (2 * r < d) then q
  else if decide (d < 2 * r) then q + 1
  else if Z.even q then q else q + 1.

(** [strconv.ParseFloat(s, 64)] for a literal that denotes [q]: the
    [float64] nearest to [q], of two that are equally near the one with the
    even mantissa, or [None] for the range error of a literal that rounds to
    [2 ^ 1024] or beyond.  A [float64] is [m * 2 ^ e] with [m] below
    [2 ^ 53] and [e] from [-1074]; [e] is chosen so that [m] has 53 bits
    unless the value is subnormal.  A literal that rounds to zero gives
    zero, without an error. *)
Definition strconv_ParseFloat (q : Qc) : option Qc :=
  let n := Z.abs (QArith_base.Qnum q) in
  let d := Z.pos (QArith_base.Qden q) in
  if decide (n = 0) then Some q
  else
    let e := Z.max (-1074) (floor_log2 n d - 52) in
    let m := round_half_even (n * 2 ^ Z.max 0 (- e)) (d * 2 ^ Z.max 0 e) in
    if decide (2 ^ 1024 ≤ m * 2 ^ Z.max 0 e) then None
    else Some (Q2Qc (QArith_base.Qmake (Z.sgn (QArith_base.Qnum q) * m * 2 ^ Z.max 0 e)
                       (Z.to_pos (2 ^ Z.max 0 (- e))))).

(** A number read into an [any]: a literal out of range is reported as an
    [UnmarshalTypeError], and the [any] stays nil. *)
Definition decode_number (q : Qc) : JSON * option error :=
  match strconv_ParseFloat q with
  | Some f => (JNum f, None)
  | None => (JNull, Some (json_UnmarshalTypeError "number"))
  end.

(** The members of an object, each read by [dec]: the map afterwards, and
    an error when a member reported one. *)
Definition decode_members (dec : JSON → JSON * option error) (o : gmap string JSON)
  : gmap string JSON * option error :=
  (fst ∘ dec <$> o,
   map_fold (λ _ v err, if (dec v).2 is Some e then Some e else err) None o).

(** [json.Unmarshal(text, &v)] for a nil [v] of type [any] and text as a
    peer wrote it: the value afterwards and the error returned.  The
    decoder goes on after a number out of range, so the rest of the value
    is filled in.  Every error of this kind is reported as the same
    [UnmarshalTypeError]; the program looks at no more than its
    presence. *)
Fixpoint decode_any (j : JSON) : JSON * option error :=
  match j with
  | JNum q => decode_number q
  | JArr l => (JArr (fst ∘ decode_any <$> l), first_error (snd ∘ decode_any <$> l))
  | JObj o => (JObj (decode_members decode_any o).1, (decode_members decode_any o).2)
  | _ => (j, None)
  end.

(** [json.Unmarshal(text, &m)] for a nil [m] of type [JSONMap] and text as
    a peer wrote it: the map afterwards and the error returned.  An object
    fills a fresh map, member by member as for an [any]; [null] leaves [m]
    nil; anything else is an [UnmarshalTypeError] and leaves [m] nil. *)
Definition decode_JSONMap (j : JSON) : JSONMap * option error :=
  match j with
  | JObj o => (Some (decode_members decode_any o).1, (decode_members decode_any o).2)
  | JNull => (None, None)
  | _ => (None, Some (json_UnmarshalTypeError (json_kind j)))
  end.

(** [json.Unmarshal(text, &m)] for the text of a raw message and a nil
    [m]. *)
Definition decode_raw_JSONMap (text : RawText) : JSONMap * option error :=
  match text with
  | payload j => decode_JSONMap j
  | marshalled v =>
      match unmarshal_JSONMap v with
      | Ok m => (m, None)
      | Err e => (None, Some e)
      end
  end.

(** ** The Go runtime *)

Class Runtime := {
  (** [json.Valid(data)]: the bytes are the text of one JSON value *)
  json_Valid : list Byte.byte → bool;
  (** [json.Unmarshal(data, &postmanCollection)] into a zero struct; the
      text is checked first, and text that is not valid JSON is an error *)
  json_Unmarshal_PostmanCollection : list Byte.byte → result PostmanCollection;
  json_Unmarshal_invalid : ∀ data,
    json_Valid data = false →
    json_Unmarshal_PostmanCollection data = Err json_SyntaxError;
  (** decoding of one JSON value into a zero struct: the struct afterwards
      and the error reported *)
  decode_PostmanItem : JSON → PostmanItem * option error;
  decode_PostmanEvent : JSON → PostmanEvent * option error;
  decode_PostmanResponse : JSON → PostmanResponse * option error;
  decode_PostmanBody : JSON → PostmanBody * option error;
  (** [fmt.Sprintf("%v", v)] *)
  fmt_Sprintf_v : JSON → string;
  (** the order in which [for k, v := range m] visits a map *)
  range : ∀ {V : Type}, gmap string V → list (string * V);
  range_Permutation : ∀ (V : Type) (m : gmap string V), range m ≡ₚ map_to_list m }.

(** ** The storage collaborator

    The two tables in insertion order, the serial counters behind the
    [autoincrement] keys, a logical clock read by [time.Now], and a fault
    schedule: each statement sent to the database takes the head of
    [faults], and fails without touching the tables when it is [true].  An
    exhausted schedule lets every statement through.  A row is read back as
    it was written.  (A map column written as a nil map may come back as an
    empty map instead, see [JSONMap_Scan]; the properties below that read
    rows back concern the key, name, method, folder path and URL of a row,
    and the URL of an imported row is never nil.) *)

Record Storage := mkStorage {
  collections : list Collection;
  requests : list Request;
  collections_id_seq : Z;
  requests_id_seq : Z;
  clock : Z;
  faults : list bool }.

(** A computation of the service: it returns a value or an error, and the
    storage as the calls made so far have left it. *)
Definition M (A : Type) : Type := Storage → result A * Storage.

Definition ret {A} (a : A) : M A := λ st, (Ok a, st).

Definition raise {A} (e : error) : M A := λ st, (Err e, st).

Definition bind {A B} (m : M A) (k : A → M B) : M B := λ st,
  match m st with
  | (Ok a, st') => k a st'
  | (Err e, st') => (Err e, st')
  end.

Declare Scope M_scope.
Delimit Scope M_scope with M.
Bind Scope M_scope with M.
Notation "x <- m ;; k" := (bind m (λ x, k))
  (at level 100, m at next level, right associativity) : M_scope.
Notation "m ;; k" := (bind m (λ _, k))
  (at level 100, right associativity) : M_scope.
Open Scope M_scope.

(** [fmt.Errorf(context + ": %w", err)] on the error path of [m]. *)
Definition wrap {A} (context : string) (m : M A) : M A := λ st,
  match m st with
  | (Err e, st') => (Err (fmt_Errorf context e), st')
  | r => r
  end.

Definition lift {A} (r : result A) : M A := λ st, (r, st).

(** [time.Now()]: the clock is read and moves on. *)
Definition time_Now : M Z := λ st,
  (Ok (clock st),
   mkStorage (collections st) (requests st) (collections_id_seq st)
             (requests_id_seq st) (clock st + 1) (faults st)).

Definition set_faults (fs : list bool) (st : Storage) : Storage :=
  mkStorage (collections st) (requests st) (collections_id_seq st)
            (requests_id_seq st) (clock st) fs.

(** One statement sent to the database: it fails, with the tables as they
    were, when the schedule says so, and runs [stmt] otherwise. *)
Definition db_Exec {A} (stmt : Storage → result A * Storage) : M A := λ st,
  match faults st with
  | true :: fs => (Err sql_Error, set_faults fs st)
  | false :: fs => stmt (set_faults fs st)
  | [] => stmt st
  end.

Definition Collection_stamp (c : Collection) (created updated : Z) : Collection :=
  mkCollection (coll_ID c) (coll_Name c) (coll_Description c) (coll_Schema c)
               (coll_Variables c) (coll_Auth c) (coll_Events c) (coll_Items c)
               (coll_PostmanID c) (coll_ExporterID c) created updated.

Definition Collection_with_ID (c : Collection) (id : Z) : Collection :=
  mkCollection id (coll_Name c) (coll_Description c) (coll_Schema c)
               (coll_Variables c) (coll_Auth c) (coll_Events c) (coll_Items c)
               (coll_PostmanID c) (coll_ExporterID c)
               (coll_CreatedAt c) (coll_UpdatedAt c).

Definition Request_stamp (r : Request) (created updated : Z) : Request :=
  mkRequest (req_ID r) (req_CollectionID r) (req_Name r) (req_Description r)
            (req_FolderPath r) (req_URL r) (req_Method r) (req_Headers r)
            (req_Params r) (req_Body r) (req_Auth r) (req_Events r)
            (req_Responses r) (req_PostmanID r) created updated.

Definition Request_with_ID (r : Request) (id : Z) : Request :=
  mkRequest id (req_CollectionID r) (req_Name r) (req_Description r)
            (req_FolderPath r) (req_URL r) (req_Method r) (req_Headers r)
            (req_Params r) (req_Body r) (req_Auth r) (req_Events r)
            (req_Responses r) (req_PostmanID r)
            (req_CreatedAt r) (req_UpdatedAt r).

(** [INSERT INTO collections ... RETURNING id] for a struct whose [ID] is
    zero: the key is drawn from the serial counter and written back. *)
Definition insert_collection (c : Collection) : Storage → result Collection * Storage :=
  λ st,
    let id := collections_id_seq st + 1 in
    let row := Collection_with_ID c id in
    (Ok row,
     mkStorage (collections st ++ [row]) (requests st) id
               (requests_id_seq st) (clock st) (faults st)).

Definition insert_request (r : Request) : Storage → result Request * Storage :=
  λ st,
    let id := requests_id_seq st + 1 in
    let row := Request_with_ID r id in
    (Ok row,
     mkStorage (collections st) (requests st ++ [row]) (collections_id_seq st)
               id (clock st) (faults st)).

(** [SELECT ... WHERE id = ?] scanned into one struct: no row is
    [sql.ErrNoRows]. *)
Definition select_collection (id : Z) : Storage → result Collection * Storage :=
  λ st,
    match list_find (λ c, coll_ID c = id) (collections st) with
    | Some (_, c) => (Ok c, st)
    | None => (Err sql_ErrNoRows, st)
    end.

(** [ORDER BY created_at DESC]: [a] may come before [b]. *)
Definition created_at_desc (a b : Request) : Prop :=
  req_CreatedAt b ≤ req_CreatedAt a.

#[global] Instance created_at_desc_dec : RelDecision created_at_desc.
Proof. intros a b. unfold created_at_desc. apply _. Defined.

(** [SELECT ... WHERE collection_id = ? ORDER BY created_at DESC OFFSET ?
    LIMIT ?]. *)
Definition select_requests (collectionID offset limit : Z) (rows : list Request)
  : list Request :=
  take (Z.to_nat limit)
    (drop (Z.to_nat offset)
       (merge_sort created_at_desc
          (filter (λ r, req_CollectionID r = collectionID) rows))).

(** ** Package repository *)

Definition collectionRepo_Create (collection : Collection) : M Collection :=
  created <- time_Now ;;
  updated <- time_Now ;;
  wrap "failed to create collection"
    (db_Exec (insert_collection (Collection_stamp collection created updated))).

Definition collectionRepo_GetByID (id : Z) : M Collection :=
  wrap "failed to get collection by ID" (db_Exec (select_collection id)).

Definition requestRepo_Create (request : Request) : M Request :=
  created <- time_Now ;;
  updated <- time_Now ;;
  wrap "failed to create request"
    (db_Exec (insert_request (Request_stamp request created updated))).

Definition requestRepo_ListByCollectionID (collectionID offset limit : Z)
  : M (list Request) :=
  wrap "failed to list requests by collection ID"
    (db_Exec (λ st, (Ok (select_requests collectionID offset limit (requests st)), st))).

(** ** Package service: CollectionService *)

(** [GetCollection] *)
Definition GetCollection (id : Z) : M Collection := collectionRepo_GetByID id.

(** The idiom [bytes, err := json.Marshal(v); if err == nil { var m JSONMap;
    if err := json.Unmarshal(bytes, &m); err == nil { field = m } }]: the
    field stays nil when either step fails. *)
Definition marshal_into_JSONMap {A} (enc : A → JSON) (v : A) : JSONMap :=
  match json_Marshal enc v with
  | Ok bytes =>
      match unmarshal_JSONMap bytes with
      | Ok m => m
      | Err _ => None
      end
  | Err _ => None
  end.

(** The same idiom on a struct with raw messages in it: the text written
    has the numbers of the payload, and is read as such. *)
Definition marshal_text_into_JSONMap {A} (enc : A → JSON) (v : A) : JSONMap :=
  match json_Marshal enc v with
  | Ok bytes =>
      match decode_JSONMap bytes with
      | (m, None) => m
      | (_, Some _) => None
      end
  | Err _ => None
  end.

(** The same idiom on a raw message: [json.Marshal] copies the text, and
    cannot fail on text that came out of [encoding/json]. *)
Definition raw_into_JSONMap (text : RawText) : JSONMap :=
  match decode_raw_JSONMap text with
  | (m, None) => m
  | (_, Some _) => None
  end.

(** *** processPostmanItems *)

(** Lines 158-162: [currentPath]. *)
Definition currentPath_of (parentPath name : string) : string :=
  (if decide (parentPath ≠ "") then parentPath +:+ "/" else parentPath) +:+ name.

(** Lines 184-210: the value assigned to [request.URL]. *)
Definition urlMap_of (url : JSON) : JSONMap :=
  let urlMap : JSONMap :=
    match url with
    | JStr v => if decide (v ≠ "") then Some {[ "raw" := JStr v ]} else Some ∅
    | _ =>
        match json_Marshal id url with
        | Ok urlBytes =>
            match unmarshal_JSONMap urlBytes with
            | Ok m => m
            | Err _ => Some ∅
            end
        | Err _ => Some ∅
        end
    end in
  match urlMap with
  | None => Some ∅
  | Some _ => urlMap
  end.

(** Lines 212-218: the value of [request.Headers]. *)
Definition headers_of (header : slice KeyValuePair) : option (gmap string string) :=
  if decide (0 < len header)%nat
  then Some (foldl (λ headers kv, <[kv_Key kv := kv_Value kv]> headers) ∅ (elems header))
  else None.

(** Lines 175-256: the record built for a leaf [item] whose request is
    [request], before it is handed to the repository. *)
Definition new_Request (item : PostmanItem) (request : PostmanRequest)
    (collectionID : Z) (parentPath : string) : Request :=
  {| req_ID := 0;
     req_CollectionID := collectionID;
     req_Name := item_Name item;
     req_Description := item_Description item;
     req_FolderPath := parentPath;
     req_URL := urlMap_of (preq_URL request);
     req_Method := preq_Method request;
     req_Headers := headers_of (preq_Header request);
     req_Params := None;
     req_Body := marshal_text_into_JSONMap marshal_PostmanBody (preq_Body request);
     req_Auth :=
       match preq_Auth request with
       | Some authBytes => raw_into_JSONMap authBytes
       | None => None
       end;
     req_Events :=
       if decide (0 < len (item_Event item))%nat
       then marshal_into_JSONMap (marshal_slice marshal_PostmanEvent) (item_Event item)
       else None;
     req_Responses :=
       if decide (0 < len (item_Response item))%nat
       then marshal_into_JSONMap (marshal_slice marshal_PostmanResponse) (item_Response item)
       else None;
     req_PostmanID := item_PostmanID item;
     req_CreatedAt := 0;
     req_UpdatedAt := 0 |}.

(** One turn of the loop of [processPostmanItems], and the loop over the
    children of a folder. *)
Fixpoint processPostmanItem (item : PostmanItem) (collectionID : Z)
    (parentPath : string) {struct item} : M unit :=
  match item with
  | mkPostmanItem name _ sub request _ _ _ _ _ =>
      let currentPath := currentPath_of parentPath name in
      match sub with
      | Some ((_ :: _) as children) =>
          (fix loop (items : list PostmanItem) : M unit :=
             match items with
             | [] => ret tt
             | child :: rest =>
                 processPostmanItem child collectionID currentPath ;; loop rest
             end) children
      | _ =>
          match request with
          | None => ret tt
          | Some r =>
              wrap "failed to create request"
                (requestRepo_Create (new_Request item r collectionID parentPath)) ;;
              ret tt
          end
      end
  end.

Fixpoint for_each {A} (body : A → M unit) (items : list A) : M unit :=
  match items with
  | [] => ret tt
  | item :: rest => body item ;; for_each body rest
  end.

Definition processPostmanItems (items : slice PostmanItem) (collectionID : Z)
    (parentPath : string) : M unit :=
  for_each (λ item, processPostmanItem item collectionID parentPath) (elems items).

Section Service.
Context {RT : Runtime}.

(** *** ImportPostmanCollection *)

(** Lines 102-142: the collection record built from the parsed document.
    The error of the decoding of [auth] is dropped (lines 108-112), so the
    map is kept as far as the decoder has filled it.  Whether the database
    takes the row is up to the storage: a refusal is a fault of the
    schedule. *)
Definition new_Collection (postmanCollection : PostmanCollection) : Collection :=
  let variables : JSONMap :=
    Some (foldl (λ variables v, <[kv_Key v := JStr (kv_Value v)]> variables) ∅
            (elems (pc_Variable postmanCollection))) in
  let auth : JSONMap :=
    match pc_Auth postmanCollection with
    | Some raw => (decode_raw_JSONMap raw).1
    | None => None
    end in
  let events : JSONMap :=
    if decide (0 < len (pc_Event postmanCollection))%nat
    then marshal_into_JSONMap (marshal_slice marshal_PostmanEvent) (pc_Event postmanCollection)
    else None in
  let items : JSONMap :=
    marshal_into_JSONMap (marshal_slice marshal_PostmanItem) (pc_Item postmanCollection) in
  {| coll_ID := 0;
     coll_Name := info_Name (pc_Info postmanCollection);
     coll_Description := info_Description (pc_Info postmanCollection);
     coll_Schema := pc_Schema postmanCollection;
     coll_Variables := variables;
     coll_Auth := auth;
     coll_Events := events;
     coll_Items := items;
     coll_PostmanID := info_PostmanID (pc_Info postmanCollection);
     coll_ExporterID := info_ExporterID (pc_Info postmanCollection);
     coll_CreatedAt := 0;
     coll_UpdatedAt := 0 |}.

Definition ImportPostmanCollection (data : list Byte.byte) : M Z :=
  postmanCollection <-
    wrap "invalid Postman collection format"
      (lift (json_Unmarshal_PostmanCollection data)) ;;
  if decide (info_Name (pc_Info postmanCollection) = "")
  then raise (errors_New "collection name is required")
  else
    collection <-
      wrap "failed to create collection"
        (collectionRepo_Create (new_Collection postmanCollection)) ;;
    processPostmanItems (pc_Item postmanCollection) (coll_ID collection) "" ;;
    ret (coll_ID collection).

(** *** ExportPostmanCollection *)

Definition exchange_schema : string :=
  "https://schema.getpostman.com/json/collection/v2.1.0/collection.json".

Definition zero_PostmanBody : PostmanBody :=
  mkPostmanBody "" "" None None None None None.

(** Lines 273-282. *)
Definition export_header (collection : Collection) : PostmanCollection :=
  {| pc_Info :=
       {| info_Name := coll_Name collection;
          info_Description := coll_Description collection;
          info_Schema := coll_Schema collection;
          info_PostmanID := coll_PostmanID collection;
          info_ExporterID := coll_ExporterID collection;
          info_CollectionLink := "" |};
     pc_Item := None;
     pc_Variable := None;
     pc_Auth := None;
     pc_Event := None;
     pc_Schema := exchange_schema |}.

(** Lines 291-308, and again 389-406: variables, auth and events of the
    collection, on a document whose items are [items]. *)
Definition export_metadata (collection : Collection)
    (postmanCollection : PostmanCollection) (items : slice PostmanItem)
  : PostmanCollection :=
  {| pc_Info := pc_Info postmanCollection;
     pc_Item := items;
     pc_Variable :=
       match coll_Variables collection with
       | Some variables =>
           foldl (λ acc kv,
                    append acc (mkKeyValuePair kv.1 (fmt_Sprintf_v kv.2) JNull "" false ""))
                 (pc_Variable postmanCollection) (range variables)
       | None => pc_Variable postmanCollection
       end;
     pc_Auth :=
       match coll_Auth collection with
       | Some _ =>
           match json_Marshal marshal_JSONMap (coll_Auth collection) with
           | Ok authBytes => Some (marshalled authBytes)
           | Err _ => None
           end
       | None => pc_Auth postmanCollection
       end;
     pc_Event :=
       match coll_Events collection with
       | Some _ =>
           match json_Marshal marshal_JSONMap (coll_Events collection) with
           | Ok eventsBytes => (unmarshal_slice decode_PostmanEvent eventsBytes).1
           | Err _ => pc_Event postmanCollection
           end
       | None => pc_Event postmanCollection
       end;
     pc_Schema := pc_Schema postmanCollection |}.

(** Lines 284-313: the document returned from the cached [Items] of the
    collection, or [None] when control falls through to the rebuild. *)
Definition export_cached (collection : Collection)
    (postmanCollection : PostmanCollection) : option PostmanCollection :=
  if decide (0 < size (entries (coll_Items collection)))%nat
  then
    match json_Marshal marshal_JSONMap (coll_Items collection) with
    | Ok itemsBytes =>
        match unmarshal_slice decode_PostmanItem itemsBytes with
        | (items, None) => Some (export_metadata collection postmanCollection items)
        | (_, Some _) => None
        end
    | Err _ => None
    end
  else None.

(** Lines 322-368: the item rebuilt from one request record. *)
Definition export_item (req : Request) : PostmanItem :=
  let postmanReq : PostmanRequest :=
    {| preq_URL :=
         match req_URL req with
         | Some _ =>
             match json_Marshal marshal_JSONMap (req_URL req) with
             | Ok urlBytes =>
                 match unmarshal_any urlBytes with
                 | Ok v => v
                 | Err _ => JNull
                 end
             | Err _ => JStr ""
             end
         | None => JNull
         end;
       preq_Method := req_Method req;
       preq_Header :=
         match req_Headers req with
         | Some headers =>
             foldl (λ headerArr kv,
                      append headerArr (mkKeyValuePair kv.1 kv.2 JNull "" false ""))
                   None (range headers)
         | None => None
         end;
       preq_Body :=
         match req_Body req with
         | Some _ =>
             match json_Marshal marshal_JSONMap (req_Body req) with
             | Ok bodyBytes => (decode_PostmanBody bodyBytes).1
             | Err _ => zero_PostmanBody
             end
         | None => zero_PostmanBody
         end;
       preq_Description := req_Description req;
       preq_Auth :=
         match req_Auth req with
         | Some _ =>
             match json_Marshal marshal_JSONMap (req_Auth req) with
             | Ok authBytes => Some (marshalled authBytes)
             | Err _ => None
             end
         | None => None
         end |} in
  {| item_Name := req_Name req;
     item_Description := req_Description req;
     item_Item := None;
     item_Request := Some postmanReq;
     item_Response :=
       match req_Responses req with
       | Some _ =>
           match json_Marshal marshal_JSONMap (req_Responses req) with
           | Ok responsesBytes => (unmarshal_slice decode_PostmanResponse responsesBytes).1
           | Err _ => None
           end
       | None => None
       end;
     item_Event :=
       match req_Events req with
       | Some _ =>
           match json_Marshal marshal_JSONMap (req_Events req) with
           | Ok eventsBytes => (unmarshal_slice decode_PostmanEvent eventsBytes).1
           | Err _ => None
           end
       | None => None
       end;
     item_Variable := None;
     item_Auth := None;
     item_PostmanID := req_PostmanID req |}.

(** Lines 320-372: [folderMap]; a key that is absent reads as the nil
    slice. *)
Definition folderMap_of (requests : list Request) : gmap string (slice PostmanItem) :=
  foldl (λ folderMap req,
           let folderPath := req_FolderPath req in
           <[folderPath := append (folderMap !!! folderPath) (export_item req)]> folderMap)
        ∅ requests.

Definition folder_item (path : string) (items : slice PostmanItem) : PostmanItem :=
  {| item_Name := path;
     item_Description := "";
     item_Item := items;
     item_Request := None;
     item_Response := None;
     item_Event := None;
     item_Variable := None;
     item_Auth := None;
     item_PostmanID := "" |}.

(** Lines 374-387: the root item list. *)
Definition export_items (folderMap : gmap string (slice PostmanItem)) : slice PostmanItem :=
  foldl (λ acc entry,
           if decide (entry.1 = "") then acc
           else append acc (folder_item entry.1 entry.2))
        (folderMap !!! "") (range folderMap).

(** Lines 315-406: the document rebuilt from the request records. *)
Definition export_rebuild (id : Z) (collection : Collection)
    (postmanCollection : PostmanCollection) : M PostmanCollection :=
  requests <- wrap "failed to get requests" (requestRepo_ListByCollectionID id 0 1000) ;;
  ret (export_metadata collection postmanCollection
         (export_items (folderMap_of requests))).

(** The document handed to [json.MarshalIndent] at either [return]. *)
Definition ExportPostmanCollection_document (id : Z) : M PostmanCollection :=
  collection <- wrap "failed to get collection" (GetCollection id) ;;
  let postmanCollection := export_header collection in
  match export_cached collection postmanCollection with
  | Some document => ret document
  | None => export_rebuild id collection postmanCollection
  end.

(** The exported bytes, as the JSON document they spell. *)
Definition ExportPostmanCollection (id : Z) : M JSON :=
  postmanCollection <- ExportPostmanCollection_document id ;;
  lift (json_Marshal marshal_PostmanCollection postmanCollection).

End Service.

(** ** The tree of a document, as the specification reads it

    A node is a Folder when its nested [item] array is non-empty, a Leaf
    otherwise.  [request_leaves] lists, in document order and at any depth,
    the leaves that carry a [request], each with the names of the folders
    above it, outermost first. *)

Record Leaf := mkLeaf {
  leaf_ancestors : list string;
  leaf_item : PostmanItem;
  leaf_request : PostmanRequest }.

Definition under (folder : string) (l : Leaf) : Leaf :=
  mkLeaf (folder :: leaf_ancestors l) (leaf_item l) (leaf_request l).

Fixpoint leaves_of (item : PostmanItem) : list Leaf :=
  match item with
  | mkPostmanItem name _ sub request _ _ _ _ _ =>
      match sub with
      | Some ((_ :: _) as children) =>
          under name <$> concat (leaves_of <$> children)
      | _ =>
          match request with
          | Some r => [mkLeaf [] item r]
          | None => []
          end
      end
  end.

Definition request_leaves (items : slice PostmanItem) : list Leaf :=
  concat (leaves_of <$> elems items).

(** [node_at ancestors item items]: [item] is a node of the forest [items],
    at any depth, below the folders named [ancestors], outermost first. *)
Inductive node_at : list string → PostmanItem → list PostmanItem → Prop :=
  | node_here item items :
      item ∈ items → node_at [] item items
  | node_below parent ancestors item items :
      parent ∈ items →
      node_at ancestors item (elems (item_Item parent)) →
      node_at (item_Name parent :: ancestors) item items.

(** [l] is a node of the forest [root], at any depth, that has no nested
    items and carries a request. *)
Definition is_request_leaf_at (root : list PostmanItem) (l : Leaf) : Prop :=
  node_at (leaf_ancestors l) (leaf_item l) root
  ∧ elems (item_Item (leaf_item l)) = []
  ∧ item_Request (leaf_item l) = Some (leaf_request l).

(** The folder path the walk has reached below [parentPath] after
    descending through [ancestors]. *)
Definition walk_path (parentPath : string) (ancestors : list string) : string :=
  foldl currentPath_of parentPath ancestors.

(** The record the walk builds for a leaf. *)
Definition record_of (collectionID : Z) (parentPath : string) (l : Leaf) : Request :=
  new_Request (leaf_item l) (leaf_request l) collectionID
    (walk_path parentPath (leaf_ancestors l)).

(** A row is the record [r] as the repository stored it: with a key and
    two timestamps. *)
Definition stored_as (r row : Request) : Prop :=
  ∃ id created updated, row = Request_with_ID (Request_stamp r created updated) id.

(** No statement among the next [n] is scheduled to fail. *)
Definition no_fault_within (n : nat) (fs : list bool) : Prop :=
  Forall (λ b, b = false) (take n fs).

(** The name, method and raw URL of every request of a document; the raw
    URL of a bare string is the string, that of an object its string member
    [raw], and it is empty otherwise (as for field [Raw] of
    [models.URLObject]). *)
Definition url_raw (url : JSON) : string :=
  match url with
  | JStr s => s
  | JObj o => match o !! "raw" with Some (JStr s) => s | _ => "" end
  | _ => ""
  end.

Definition triple_of (l : Leaf) : string * string * string :=
  (item_Name (leaf_item l), preq_Method (leaf_request l),
   url_raw (preq_URL (leaf_request l))).

Definition document_triples (items : slice PostmanItem)
  : list (string * string * string) :=
  triple_of <$> request_leaves items.

(** ** Vocabulary of the properties

    The definitions below are not part of the program: they name what the
    properties talk about. *)

(** What the walk does with one record: lines 258-260. *)
Definition create_request (request : Request) : M unit :=
  wrap "failed to create request" (requestRepo_Create request) ;; ret tt.

(** The rows that creating [rs] one after the other appends to the table,
    from a serial counter at [seq] and a clock at [now]. *)
Fixpoint stored_rows (seq now : Z) (rs : list Request) : list Request :=
  match rs with
  | [] => []
  | r :: rs' =>
      Request_with_ID (Request_stamp r now (now + 1)) (seq + 1)
        :: stored_rows (seq + 1) (now + 2) rs'
  end.

(** The error of a failed request create, wrapped by the repository and
    again by the service. *)
Definition create_request_error : error :=
  fmt_Errorf "failed to create request"
    (fmt_Errorf "failed to create request" sql_Error).

(** The canonical object of an exchange URL, by cases as the specification
    gives them. *)
Definition canonical_url (url : JSON) : gmap string JSON :=
  match url with
  | JStr s => if decide (s = "") then ∅ else {[ "raw" := JStr s ]}
  | JObj o => o
  | _ => ∅
  end.

(** The value a key ends up with when the pairs are written in order: that
    of its last occurrence. *)
Definition last_write_wins (header : list KeyValuePair) (k : string) : option string :=
  kv_Value <$> last (filter (λ kv, kv_Key kv = k) header).




(** The records of one folder path, in the order of [requests]. *)
Definition group (path : string) (requests : list Request) : list Request :=
  filter (λ r, req_FolderPath r = path) requests.

(** The request records of a collection. *)
Definition records_of (id : Z) (st : Storage) : list Request :=
  filter (λ r, req_CollectionID r = id) (requests st).

(** [item] is a leaf for the record [r]: it has no nested items, it carries
    a request, and it shows the name, the description, the Postman id, the
    method and the raw URL of the record. *)
Definition leaf_for (r : Request) (item : PostmanItem) : Prop :=
  item_Name item = req_Name r
  ∧ item_Description item = req_Description r
  ∧ item_PostmanID item = req_PostmanID r
  ∧ elems (item_Item item) = []
  ∧ ∃ request,
      item_Request item = Some request
      ∧ preq_Method request = req_Method r
      ∧ url_raw (preq_URL request) = url_raw (marshal_JSONMap (req_URL r)).

(** [items] are leaves for the records [rs], one for each record, in some
    order of the records. *)
Definition leaves_for (rs : list Request) (items : list PostmanItem) : Prop :=
  ∃ rs', rs' ≡ₚ rs ∧ Forall2 leaf_for rs' items.

(** The folder items appended for the entries of a folder map. *)
Definition folders_of (entries : list (string * slice PostmanItem)) : list PostmanItem :=
  (λ entry, folder_item entry.1 entry.2) <$> filter (λ entry, entry.1 ≠ "") entries.

(** The triple an exported item shows for a row. *)
Definition row_triple (r : Request) : string * string * string :=
  (req_Name r, req_Method r, url_raw (marshal_JSONMap (req_URL r))).

(** Every stored request row refers to a collection key that has been
    handed out. *)
Definition referential (st : Storage) : Prop :=
  Forall (λ r, req_CollectionID r ≤ collections_id_seq st) (requests st).

(** A node without nested items that carries a request. *)
Definition is_request_leaf (item : PostmanItem) : bool :=
  bool_decide (elems (item_Item item) = []) && bool_decide (is_Some (item_Request item)).

Fixpoint holds_two_requests (item : PostmanItem) : bool :=
  match item with
  | mkPostmanItem _ _ sub _ _ _ _ _ _ =>
      match sub with
      | Some ((_ :: _) as children) =>
          bool_decide (2 ≤ length (filter is_request_leaf children))%nat
          || existsb holds_two_requests children
      | _ => false
      end
  end.

(** The shape of the round-trip fixture: some folder, at any depth, holds at
    least two request leaves directly, and the root holds at least one
    request leaf. *)
Definition fixture_shape (document : PostmanCollection) : Prop :=
  existsb holds_two_requests (elems (pc_Item document)) = true
  ∧ existsb is_request_leaf (elems (pc_Item document)) = true.

Definition document_or {A} (r : result A) (default : A) : A :=
  match r with
  | Ok a => a
  | Err _ => default
  end.

Definition is_ok {A} (r : result A) : bool :=
  match r with
  | Ok _ => true
  | Err _ => false
  end.

(** ** Sample data

    Closed documents, storages and a runtime on which the properties are
    run. *)

Definition empty_storage : Storage := mkStorage [] [] 0 0 0 [].

Definition sample_request (name method : string) (url : JSON)
    (header : slice KeyValuePair) : PostmanItem :=
  mkPostmanItem name "" None
    (Some (mkPostmanRequest url method header zero_PostmanBody "" None))
    None None None None "".

Definition sample_folder (name : string) (children : list PostmanItem) : PostmanItem :=
  mkPostmanItem name "" (Some children) None None None None None "".

Definition sample_header (key value : string) : KeyValuePair :=
  mkKeyValuePair key value JNull "" false "".

(** Three levels: folder [Auth], folder [Login] with two requests in it,
    and one request at the top. *)
Definition sample_items : slice PostmanItem :=
  Some [ sample_folder "Auth"
           [ sample_folder "Login"
               [ sample_request "Sign in" "POST" (JStr "https://example.com/login")
                   (Some [sample_header "A" "1"; sample_header "A" "2"]);
                 sample_request "Sign out" "POST"
                   (JObj {[ "raw" := JStr "https://example.com/logout";
                            "host" := JArr [JStr "example"; JStr "com"] ]}) None ] ];
         sample_request "Ping" "GET" (JStr "https://example.com/a") None ].

Definition sample_document : PostmanCollection :=
  {| pc_Info := mkCollectionInfo "Demo" "" "" "" "" "";
     pc_Item := sample_items;
     pc_Variable := None;
     pc_Auth := None;
     pc_Event := None;
     pc_Schema := "" |}.



Definition same_bytes (a b : list Byte.byte) : bool :=
  bool_decide (Byte.to_N <$> a = Byte.to_N <$> b).

(** A runtime for closed examples: it knows one payload, [text], which it
    decodes to [document], and rejects every other input as invalid JSON;
    its struct decoders report a type error, and it visits maps in key
    order. *)
Definition sample_runtime (text : list Byte.byte) (document : PostmanCollection)
  : Runtime :=
  {| json_Valid := λ data, same_bytes data text;
     json_Unmarshal_PostmanCollection := λ data,
       if same_bytes data text then Ok document else Err json_SyntaxError;
     json_Unmarshal_invalid := λ data (H : same_bytes data text = false),
       @eq_ind_r bool false
         (λ b : bool,
            (if b then Ok document else Err json_SyntaxError) = Err json_SyntaxError)
         eq_refl (same_bytes data text) H;
     decode_PostmanItem := λ _,
       (mkPostmanItem "" "" None None None None None None "",
        Some (json_UnmarshalTypeError "object"));
     decode_PostmanEvent := λ _,
       (mkPostmanEvent "" (mkPostmanScript "" None "" "") false,
        Some (json_UnmarshalTypeError "object"));
     decode_PostmanResponse := λ _,
       (mkPostmanResponse "" None "" 0 None "" None "" "",
        Some (json_UnmarshalTypeError "object"));
     decode_PostmanBody := λ _, (zero_PostmanBody, None);
     fmt_Sprintf_v := λ v, match v with JStr s => s | _ => "" end;
     range := λ V (m : gmap string V), map_to_list m;
     range_Permutation := λ V (m : gmap string V), Permutation_refl (map_to_list m) |}.

(** The payload that the sample runtime decodes; it stands for the text of
    the document the runtime is built with. *)
Definition sample_text : list Byte.byte :=
  String.list_byte_of_string "sample.postman_collection.json".

(** The second of three request creates fails. *)
Definition second_create_fails : Storage := mkStorage [] [] 0 0 0 [false; false; true].

Definition sample_imported : result Z * Storage :=
  ImportPostmanCollection (RT := sample_runtime sample_text sample_document)
    sample_text empty_storage.

Definition sample_exported : result PostmanCollection * Storage :=
  ExportPostmanCollection_document (RT := sample_runtime sample_text sample_document)
    1 sample_imported.2.

(** A storage that holds one collection, with a schema of its own, and no
    request. *)
Definition storage_without_requests : Storage :=
  mkStorage
    [mkCollection 1 "Empty" "" "urn:example:schema" (Some ∅) None None None "" "" 0 1]
    [] 1 0 2 [].

Definition exported_without_requests : result JSON * Storage :=
  ExportPostmanCollection (RT := sample_runtime sample_text sample_document)
    1 storage_without_requests.

Definition numbered (prefix : string) (i : nat) : string := prefix +:+ pretty i.

(** A document of the fixture shape with 1003 requests: one at the root and
    501 folders of two. *)
Definition big_items : slice PostmanItem :=
  Some (sample_request "top" "GET" (JStr "https://example.com/top") None
        :: ((λ i, sample_folder (numbered "folder" i)
                    [ sample_request (numbered "first" i) "GET"
                        (JStr "https://example.com/first") None;
                      sample_request (numbered "second" i) "GET"
                        (JStr "https://example.com/second") None ])
              <$> seq 0 501)).

Definition big_document : PostmanCollection :=
  {| pc_Info := mkCollectionInfo "Big" "" "" "" "" "";
     pc_Item := big_items;
     pc_Variable := None;
     pc_Auth := None;
     pc_Event := None;
     pc_Schema := "" |}.

Definition big_imported : result Z * Storage :=
  ImportPostmanCollection (RT := sample_runtime sample_text big_document)
    sample_text empty_storage.

Definition big_exported : result PostmanCollection * Storage :=
  ExportPostmanCollection_document (RT := sample_runtime sample_text big_document)
    1 big_imported.2.

(** ** The rest of the storage collaborator

    The statements behind the other methods of the two repositories.  An
    [UPDATE] writes every column of the struct into the rows whose key is
    that of the struct; an [UPDATE] or a [DELETE] that matches no row is not
    an error.  A page is cut out of the rows in the order [ORDER BY
    created_at DESC] gives them; the services pass a limit of at least one
    and, as long as [(page - 1) * pageSize] does not overflow, an offset
    that is not negative.  As before, a row is read back as it was written;
    the properties of the operations that read a row and write it back
    compare map columns by their entries, so that they do not depend on a
    nil map coming back as it is or as an empty one. *)

Definition set_collections (rows : list Collection) (st : Storage) : Storage :=
  mkStorage rows (requests st) (collections_id_seq st) (requests_id_seq st)
            (clock st) (faults st).

Definition set_requests (rows : list Request) (st : Storage) : Storage :=
  mkStorage (collections st) rows (collections_id_seq st) (requests_id_seq st)
            (clock st) (faults st).

Definition collection_created_at_desc (a b : Collection) : Prop :=
  coll_CreatedAt b ≤ coll_CreatedAt a.

#[global] Instance collection_created_at_desc_dec : RelDecision collection_created_at_desc.
Proof. intros a b. unfold collection_created_at_desc. apply _. Defined.

(** [SELECT ... FROM collections ORDER BY created_at DESC OFFSET ? LIMIT ?]. *)
Definition select_collections (offset limit : Z) (rows : list Collection)
  : list Collection :=
  take (Z.to_nat limit)
    (drop (Z.to_nat offset) (merge_sort collection_created_at_desc rows)).

(** [UPDATE collections SET ... WHERE id = ?]. *)
Definition update_collection (c : Collection) : Storage → result unit * Storage :=
  λ st,
    (Ok tt,
     set_collections
       ((λ row, if decide (coll_ID row = coll_ID c) then c else row) <$> collections st)
       st).

(** [DELETE FROM collections WHERE id = ?]. *)
Definition delete_collection (id : Z) : Storage → result unit * Storage :=
  λ st, (Ok tt, set_collections (filter (λ c, coll_ID c ≠ id) (collections st)) st).

(** The number of rows of table [collections]. *)
Definition count_collections : Storage → result Z * Storage :=
  λ st, (Ok (Z.of_nat (length (collections st))), st).

(** [SELECT ... FROM requests WHERE id = ?] scanned into one struct. *)
Definition select_request (id : Z) : Storage → result Request * Storage :=
  λ st,
    match list_find (λ r, req_ID r = id) (requests st) with
    | Some (_, r) => (Ok r, st)
    | None => (Err sql_ErrNoRows, st)
    end.

(** [SELECT ... FROM requests ORDER BY created_at DESC OFFSET ? LIMIT ?]. *)
Definition select_all_requests (offset limit : Z) (rows : list Request) : list Request :=
  take (Z.to_nat limit) (drop (Z.to_nat offset) (merge_sort created_at_desc rows)).

(** [UPDATE requests SET ... WHERE id = ?]. *)
Definition update_request (r : Request) : Storage → result unit * Storage :=
  λ st,
    (Ok tt,
     set_requests
       ((λ row, if decide (req_ID row = req_ID r) then r else row) <$> requests st)
       st).

(** [DELETE FROM requests WHERE id = ?]. *)
Definition delete_request (id : Z) : Storage → result unit * Storage :=
  λ st, (Ok tt, set_requests (filter (λ r, req_ID r ≠ id) (requests st)) st).

(** [DELETE FROM requests WHERE collection_id = ?]. *)
Definition delete_requests_of (collectionID : Z) : Storage → result unit * Storage :=
  λ st,
    (Ok tt,
     set_requests (filter (λ r, req_CollectionID r ≠ collectionID) (requests st)) st).

(** The number of rows of table [requests]. *)
Definition count_requests : Storage → result Z * Storage :=
  λ st, (Ok (Z.of_nat (length (requests st))), st).

(** The number of rows of table [requests] with [collection_id = ?]. *)
Definition count_requests_of (collectionID : Z) : Storage → result Z * Storage :=
  λ st,
    (Ok (Z.of_nat (length (filter (λ r, req_CollectionID r = collectionID) (requests st)))),
     st).

(** ** Package repository, continued *)

Definition collectionRepo_List (offset limit : Z) : M (list Collection) :=
  wrap "failed to list collections"
    (db_Exec (λ st, (Ok (select_collections offset limit (collections st)), st))).

(** [Update] returns the struct as the call leaves it. *)
Definition collectionRepo_Update (collection : Collection) : M Collection :=
  updated <- time_Now ;;
  let collection := Collection_stamp collection (coll_CreatedAt collection) updated in
  wrap "failed to update collection" (db_Exec (update_collection collection)) ;;
  ret collection.

Definition collectionRepo_Delete (id : Z) : M unit :=
  wrap "failed to delete collection" (db_Exec (delete_collection id)).

Definition collectionRepo_Count : M Z :=
  wrap "failed to count collections" (db_Exec count_collections).

Definition requestRepo_GetByID (id : Z) : M Request :=
  wrap "failed to get request by ID" (db_Exec (select_request id)).

Definition requestRepo_List (offset limit : Z) : M (list Request) :=
  wrap "failed to list requests"
    (db_Exec (λ st, (Ok (select_all_requests offset limit (requests st)), st))).

Definition requestRepo_Update (request : Request) : M Request :=
  updated <- time_Now ;;
  let request := Request_stamp request (req_CreatedAt request) updated in
  wrap "failed to update request" (db_Exec (update_request request)) ;;
  ret request.

Definition requestRepo_Delete (id : Z) : M unit :=
  wrap "failed to delete request" (db_Exec (delete_request id)).

Definition requestRepo_DeleteByCollectionID (collectionID : Z) : M unit :=
  wrap "failed to delete requests by collection ID"
    (db_Exec (delete_requests_of collectionID)).

Definition requestRepo_Count : M Z :=
  wrap "failed to count requests" (db_Exec count_requests).

Definition requestRepo_CountByCollectionID (collectionID : Z) : M Z :=
  wrap "failed to count requests by collection ID"
    (db_Exec (count_requests_of collectionID)).

(** ** Package service: CollectionService, continued *)

(** Go's [int] on the 64-bit targets: a result out of range wraps around. *)
Definition int_wrap (n : Z) : Z := (n + 2 ^ 63) `mod` 2 ^ 64 - 2 ^ 63.

(** Lines 46-54 of [ListCollections], and the same lines of [ListRequests]
    and [ListRequestsByCollection]: the page size and the offset passed to
    the repository. *)
Definition page_window (page pageSize : Z) : Z * Z :=
  let page := if decide (page < 1) then 1 else page in
  let pageSize := if decide (pageSize < 1) then 10 else pageSize in
  (int_wrap ((page - 1) * pageSize), pageSize).

Definition ListCollections (page pageSize : Z) : M (list Collection * Z) :=
  let '(offset, pageSize) := page_window page pageSize in
  collections <- collectionRepo_List offset pageSize ;;
  total <- collectionRepo_Count ;;
  ret (collections, total).

Definition Collection_with_Items (c : Collection) (items : JSONMap) : Collection :=
  mkCollection (coll_ID c) (coll_Name c) (coll_Description c) (coll_Schema c)
               (coll_Variables c) (coll_Auth c) (coll_Events c) items
               (coll_PostmanID c) (coll_ExporterID c)
               (coll_CreatedAt c) (coll_UpdatedAt c).

(** [UpdateCollection] returns the struct as the call leaves it. *)
Definition UpdateCollection (collection : Collection) : M Collection :=
  existingCollection <-
    wrap "collection not found" (collectionRepo_GetByID (coll_ID collection)) ;;
  collectionRepo_Update (Collection_with_Items collection (coll_Items existingCollection)).

Definition DeleteCollection (id : Z) : M unit :=
  wrap "failed to delete requests in collection" (requestRepo_DeleteByCollectionID id) ;;
  collectionRepo_Delete id.

(** ** Package service: RequestService *)

Definition Request_with_URL (r : Request) (url : JSONMap) : Request :=
  mkRequest (req_ID r) (req_CollectionID r) (req_Name r) (req_Description r)
            (req_FolderPath r) url (req_Method r) (req_Headers r)
            (req_Params r) (req_Body r) (req_Auth r) (req_Events r)
            (req_Responses r) (req_PostmanID r)
            (req_CreatedAt r) (req_UpdatedAt r).

Definition Request_with_Headers (r : Request) (headers : option (gmap string string))
  : Request :=
  mkRequest (req_ID r) (req_CollectionID r) (req_Name r) (req_Description r)
            (req_FolderPath r) (req_URL r) (req_Method r) headers
            (req_Params r) (req_Body r) (req_Auth r) (req_Events r)
            (req_Responses r) (req_PostmanID r)
            (req_CreatedAt r) (req_UpdatedAt r).

Definition Request_with_Params (r : Request) (params : JSONMap) : Request :=
  mkRequest (req_ID r) (req_CollectionID r) (req_Name r) (req_Description r)
            (req_FolderPath r) (req_URL r) (req_Method r) (req_Headers r)
            params (req_Body r) (req_Auth r) (req_Events r)
            (req_Responses r) (req_PostmanID r)
            (req_CreatedAt r) (req_UpdatedAt r).

Definition Request_with_Body (r : Request) (body : JSONMap) : Request :=
  mkRequest (req_ID r) (req_CollectionID r) (req_Name r) (req_Description r)
            (req_FolderPath r) (req_URL r) (req_Method r) (req_Headers r)
            (req_Params r) body (req_Auth r) (req_Events r)
            (req_Responses r) (req_PostmanID r)
            (req_CreatedAt r) (req_UpdatedAt r).

(** Lines 37-49 of [CreateRequest]: the value of [request.URL] handed to
    the repository. *)
Definition CreateRequest_URL (url : JSONMap) : JSONMap :=
  match url with
  | Some members =>
      let url : JSONMap :=
        match members !! "raw" with
        | Some (JStr urlStr) =>
            if decide (urlStr ≠ "") then Some {[ "raw" := JStr urlStr ]} else url
        | _ => url
        end in
      match json_Marshal marshal_JSONMap url with
      | Ok _ => url
      | Err _ => Some ∅
      end
  | None => Some ∅
  end.

(** [CreateRequest], for a struct that carries no key of its own ([ID]
    zero, as [requestRepo_Create] takes it); it returns the struct as the
    call leaves it. *)
Definition CreateRequest (request : Request) : M Request :=
  wrap "collection not found" (collectionRepo_GetByID (req_CollectionID request)) ;;
  requestRepo_Create (Request_with_URL request (CreateRequest_URL (req_URL request))).

Definition GetRequest (id : Z) : M Request := requestRepo_GetByID id.

Definition ListRequests (page pageSize : Z) : M (list Request * Z) :=
  let '(offset, pageSize) := page_window page pageSize in
  requests <- requestRepo_List offset pageSize ;;
  total <- requestRepo_Count ;;
  ret (requests, total).

Definition ListRequestsByCollection (collectionID page pageSize : Z)
  : M (list Request * Z) :=
  wrap "collection not found" (collectionRepo_GetByID collectionID) ;;
  let '(offset, pageSize) := page_window page pageSize in
  requests <- requestRepo_ListByCollectionID collectionID offset pageSize ;;
  total <- requestRepo_CountByCollectionID collectionID ;;
  ret (requests, total).

Definition DeleteRequest (id : Z) : M unit :=
  wrap "request not found" (requestRepo_GetByID id) ;;
  requestRepo_Delete id.

Definition UpdateRequestPayload (id : Z) (body : JSONMap) : M unit :=
  match body with
  | None => raise (errors_New "body cannot be nil")
  | Some _ =>
      request <- wrap "request not found" (requestRepo_GetByID id) ;;
      requestRepo_Update (Request_with_Body request body) ;;
      ret tt
  end.

Definition UpdateRequestHeaders (id : Z) (headers : option (gmap string string)) : M unit :=
  match headers with
  | None => raise (errors_New "headers cannot be nil")
  | Some _ =>
      request <- wrap "request not found" (requestRepo_GetByID id) ;;
      requestRepo_Update (Request_with_Headers request headers) ;;
      ret tt
  end.

Definition UpdateRequestParams (id : Z) (params : JSONMap) : M unit :=
  match params with
  | None => raise (errors_New "params cannot be nil")
  | Some _ =>
      request <- wrap "request not found" (requestRepo_GetByID id) ;;
      requestRepo_Update (Request_with_Params request params) ;;
      ret tt
  end.

Definition CloneRequest (id : Z) (newName : string) : M Z :=
  original <- wrap "request not found" (requestRepo_GetByID id) ;;
  let urlData : JSONMap :=
    match req_URL original with
    | Some _ =>
        match json_Marshal marshal_JSONMap (req_URL original) with
        | Ok _ => req_URL original
        | Err _ => Some ∅
        end
    | None => Some ∅
    end in
  let cloned : Request :=
    {| req_ID := 0;
       req_CollectionID := req_CollectionID original;
       req_Name := newName;
       req_Description := req_Description original +:+ " (Cloned)";
       req_FolderPath := "";
       req_URL := urlData;
       req_Method := req_Method original;
       req_Headers := req_Headers original;
       req_Params := req_Params original;
       req_Body := req_Body original;
       req_Auth := None;
       req_Events := None;
       req_Responses := None;
       req_PostmanID := "";
       req_CreatedAt := 0;
       req_UpdatedAt := 0 |} in
  cloned <- wrap "failed to clone request" (requestRepo_Create cloned) ;;
  ret (req_ID cloned).

(** ** Package handlers: the pagination helpers *)

Record Meta := mkMeta {
  meta_Page : Z;
  meta_PageSize : Z;
  meta_TotalRows : Z;
  meta_TotalPage : Z }.

Record Response (A : Type) := mkResponse {
  response_Success : bool;
  response_Data : A;
  response_Error : string;
  response_Meta : option Meta }.
Arguments mkResponse {A} _ _ _ _.
Arguments response_Success {A} _.
Arguments response_Data {A} _.
Arguments response_Error {A} _.
Arguments response_Meta {A} _.

(** [PaginatedResponse]: [/] and [%] on [int] truncate toward zero, and a
    division by zero is a run-time panic, [None] here. *)
Definition PaginatedResponse {A} (data : A) (page pageSize total : Z)
  : option (Response A) :=
  if decide (pageSize = 0) then None
  else
    let totalPage := int_wrap (total ÷ pageSize) in
    let totalPage :=
      if decide (0 < Z.rem total pageSize) then int_wrap (totalPage + 1) else totalPage in
    Some (mkResponse true data "" (Some (mkMeta page pageSize total totalPage))).

Section Handlers.
(** [strconv.Atoi]: the value and the error returned. *)
Variable strconv_Atoi : string → Z * option error.

(** [GetPaginationParams]; the arguments are the query parameters [page]
    and [page_size] of the request, [None] when the request has none. *)
Definition GetPaginationParams (page_query page_size_query : option string) : Z * Z :=
  let pageStr := default "1" page_query in
  let pageSizeStr := default "10" page_size_query in
  let '(page, err) := strconv_Atoi pageStr in
  let page := if decide (is_Some err ∨ page < 1) then 1 else page in
  let '(pageSize, err) := strconv_Atoi pageSizeStr in
  let pageSize :=
    if decide (is_Some err ∨ pageSize < 1 ∨ pageSize > 100) then 10 else pageSize in
  (page, pageSize).

End Handlers.

(** ** OpenAPI specifications

    [models.OpenAPISpec], the repository of table [openapi_specs] and
    [internal/service/openapi_service.go].  The service talks to this
    repository only, so its storage is the table with its serial counter,
    the clock and a fault schedule, threaded as for the collections. *)

Record OpenAPISpec := mkOpenAPISpec {
  spec_ID : Z;
  spec_Title : string;
  spec_Description : string;
  spec_Version : string;
  spec_Content : JSONMap;
  spec_CreatedAt : Z;
  spec_UpdatedAt : Z }.

Record SpecStorage := mkSpecStorage {
  specs : list OpenAPISpec;
  specs_id_seq : Z;
  specs_clock : Z;
  specs_faults : list bool }.

Definition SM (A : Type) : Type := SpecStorage → result A * SpecStorage.

Definition sm_ret {A} (a : A) : SM A := λ st, (Ok a, st).

Definition sm_raise {A} (e : error) : SM A := λ st, (Err e, st).

Definition sm_bind {A B} (m : SM A) (k : A → SM B) : SM B := λ st,
  match m st with
  | (Ok a, st') => k a st'
  | (Err e, st') => (Err e, st')
  end.

Declare Scope SM_scope.
Delimit Scope SM_scope with SM.
Bind Scope SM_scope with SM.
Notation "x <- m ;; k" := (sm_bind m (λ x, k))
  (at level 100, m at next level, right associativity) : SM_scope.
Notation "m ;; k" := (sm_bind m (λ _, k))
  (at level 100, right associativity) : SM_scope.

Definition sm_wrap {A} (context : string) (m : SM A) : SM A := λ st,
  match m st with
  | (Err e, st') => (Err (fmt_Errorf context e), st')
  | r => r
  end.

Definition sm_lift {A} (r : result A) : SM A := λ st, (r, st).

Definition sm_time_Now : SM Z := λ st,
  (Ok (specs_clock st),
   mkSpecStorage (specs st) (specs_id_seq st) (specs_clock st + 1) (specs_faults st)).

Definition sm_set_faults (fs : list bool) (st : SpecStorage) : SpecStorage :=
  mkSpecStorage (specs st) (specs_id_seq st) (specs_clock st) fs.

Definition sm_db_Exec {A} (stmt : SpecStorage → result A * SpecStorage) : SM A := λ st,
  match specs_faults st with
  | true :: fs => (Err sql_Error, sm_set_faults fs st)
  | false :: fs => stmt (sm_set_faults fs st)
  | [] => stmt st
  end.

Definition OpenAPISpec_stamp (s : OpenAPISpec) (created updated : Z) : OpenAPISpec :=
  mkOpenAPISpec (spec_ID s) (spec_Title s) (spec_Description s) (spec_Version s)
                (spec_Content s) created updated.

Definition OpenAPISpec_with_ID (s : OpenAPISpec) (id : Z) : OpenAPISpec :=
  mkOpenAPISpec id (spec_Title s) (spec_Description s) (spec_Version s)
                (spec_Content s) (spec_CreatedAt s) (spec_UpdatedAt s).

(** [INSERT INTO openapi_specs ... RETURNING id] for a struct whose [ID] is
    zero. *)
Definition insert_spec (s : OpenAPISpec) : SpecStorage → result OpenAPISpec * SpecStorage :=
  λ st,
    let id := specs_id_seq st + 1 in
    let row := OpenAPISpec_with_ID s id in
    (Ok row, mkSpecStorage (specs st ++ [row]) id (specs_clock st) (specs_faults st)).

Definition select_spec (id : Z) : SpecStorage → result OpenAPISpec * SpecStorage :=
  λ st,
    match list_find (λ s, spec_ID s = id) (specs st) with
    | Some (_, s) => (Ok s, st)
    | None => (Err sql_ErrNoRows, st)
    end.

Definition update_spec (s : OpenAPISpec) : SpecStorage → result unit * SpecStorage :=
  λ st,
    (Ok tt,
     mkSpecStorage
       ((λ row, if decide (spec_ID row = spec_ID s) then s else row) <$> specs st)
       (specs_id_seq st) (specs_clock st) (specs_faults st)).

Section OpenAPI.
Open Scope SM_scope.

(** The JSON value that [json.Unmarshal] reads from the bytes, or its
    syntax error. *)
Variable json_Decode : list Byte.byte → result JSON.

Definition openAPIRepo_Create (spec : OpenAPISpec) : SM OpenAPISpec :=
  created <- sm_time_Now ;;
  updated <- sm_time_Now ;;
  sm_wrap "failed to create OpenAPI spec"
    (sm_db_Exec (insert_spec (OpenAPISpec_stamp spec created updated))).

Definition openAPIRepo_GetByID (id : Z) : SM OpenAPISpec :=
  sm_wrap "failed to get OpenAPI spec by ID" (sm_db_Exec (select_spec id)).

(** [Update] returns the struct as the call leaves it. *)
Definition openAPIRepo_Update (spec : OpenAPISpec) : SM OpenAPISpec :=
  updated <- sm_time_Now ;;
  let spec := OpenAPISpec_stamp spec (spec_CreatedAt spec) updated in
  sm_wrap "failed to update OpenAPI spec" (sm_db_Exec (update_spec spec)) ;;
  sm_ret spec.

Definition GetOpenAPISpec (id : Z) : SM OpenAPISpec := openAPIRepo_GetByID id.

(** [UpdateOpenAPISpec] returns the struct as the call leaves it. *)
Definition UpdateOpenAPISpec (spec : OpenAPISpec) : SM OpenAPISpec :=
  existingSpec <-
    sm_wrap "OpenAPI specification not found" (openAPIRepo_GetByID (spec_ID spec)) ;;
  updated <- sm_time_Now ;;
  openAPIRepo_Update (OpenAPISpec_stamp spec (spec_CreatedAt existingSpec) updated).

(** [json.Unmarshal(data, &content)] for a nil [content]. *)
Definition json_Unmarshal_JSONMap (data : list Byte.byte) : result JSONMap :=
  match json_Decode data with
  | Ok j => unmarshal_JSONMap j
  | Err e => Err e
  end.

Definition ImportOpenAPISpec (data : list Byte.byte) : SM Z :=
  content <- sm_wrap "invalid OpenAPI format" (sm_lift (json_Unmarshal_JSONMap data)) ;;
  match entries content !! "info" with
  | Some (JObj info) =>
      match info !! "title" with
      | Some (JStr title) =>
          if decide (title = "")
          then sm_raise (errors_New "invalid OpenAPI format: missing or invalid 'title'")
          else
            match info !! "version" with
            | Some (JStr version) =>
                if decide (version = "")
                then sm_raise
                       (errors_New "invalid OpenAPI format: missing or invalid 'version'")
                else
                  let description :=
                    match info !! "description" with
                    | Some (JStr desc) => desc
                    | _ => ""
                    end in
                  created <- sm_time_Now ;;
                  updated <- sm_time_Now ;;
                  spec <-
                    sm_wrap "failed to create OpenAPI spec"
                      (openAPIRepo_Create
                         (mkOpenAPISpec 0 title description version content
                            created updated)) ;;
                  sm_ret (spec_ID spec)
            | _ =>
                sm_raise (errors_New "invalid OpenAPI format: missing or invalid 'version'")
            end
      | _ => sm_raise (errors_New "invalid OpenAPI format: missing or invalid 'title'")
      end
  | _ => sm_raise (errors_New "invalid OpenAPI format: missing or invalid 'info' object")
  end.

(** The exported bytes, as the JSON document they spell. *)
Definition ExportOpenAPISpec (id : Z) : SM JSON :=
  spec <- sm_wrap "failed to get OpenAPI spec" (GetOpenAPISpec id) ;;
  match spec_Content spec with
  | None => sm_raise (errors_New "OpenAPI spec has no content")
  | Some _ => sm_lift (json_Marshal marshal_JSONMap (spec_Content spec))
  end.

End OpenAPI.

(** ** Vocabulary of the further properties *)

(** Tables and serial counters are in [st'] what they are in [st]. *)
Definition same_tables (st st' : Storage) : Prop :=
  collections st' = collections st ∧ requests st' = requests st
  ∧ collections_id_seq st' = collections_id_seq st
  ∧ requests_id_seq st' = requests_id_seq st.

(** Every request row belongs to a collection row. *)
Definition no_orphans (st : Storage) : Prop :=
  Forall (λ r, req_CollectionID r ∈ coll_ID <$> collections st) (requests st).

(** A computation that only reads. *)
Definition reads_only {A} (m : M A) : Prop := ∀ st, same_tables st (m st).2.

(** What a row says about its request, apart from its key, its collection
    and its timestamps; a nil map column reads as an empty one. *)
Definition row_key (r : Request)
  : string * string * string * string * string
    * gmap string JSON * gmap string string * gmap string JSON :=
  (req_FolderPath r, req_Name r, req_Description r, req_Method r, req_PostmanID r,
   entries (req_URL r), entries (req_Headers r), entries (req_Auth r)).

(** The columns of a request row that are not maps, but for [updated_at]. *)
Definition request_scalars (r : Request)
  : Z * Z * string * string * string * string * string * Z :=
  (req_ID r, req_CollectionID r, req_Name r, req_Description r, req_FolderPath r,
   req_Method r, req_PostmanID r, req_CreatedAt r).

(** The map columns of a request row; a nil map reads as an empty one. *)
Definition request_maps (r : Request)
  : gmap string JSON * gmap string string * gmap string JSON * gmap string JSON
    * gmap string JSON * gmap string JSON * gmap string JSON :=
  (entries (req_URL r), entries (req_Headers r), entries (req_Params r),
   entries (req_Body r), entries (req_Auth r), entries (req_Events r),
   entries (req_Responses r)).

(** The members of a raw message that spells an object. *)
Definition as_object (text : RawText) : option (gmap string JSON) :=
  match spelled text with
  | JObj o => Some o
  | _ => None
  end.

(** Every number of the tree is a [float64] value: [strconv.ParseFloat]
    gives it back as it is. *)
Fixpoint float64_numbers (j : JSON) : bool :=
  match j with
  | JNum q => bool_decide (strconv_ParseFloat q = Some q)
  | JArr l => forallb float64_numbers l
  | JObj o => map_fold (λ _ v rest, float64_numbers v && rest) true o
  | _ => true
  end.

(** The number of nodes of a tree. *)
Fixpoint JSON_size (j : JSON) : nat :=
  match j with
  | JArr l => S (foldr (λ v n, JSON_size v + n)%nat 0%nat l)
  | JObj o => S (map_fold (λ _ v n, JSON_size v + n)%nat 0%nat o)
  | _ => 1
  end.

(** The member [k] of an object, and the numerator and denominator of a
    number. *)
Definition member (k : string) (j : JSON) : option JSON :=
  match j with
  | JObj o => o !! k
  | _ => None
  end.

Definition as_fraction (j : JSON) : option (Z * positive) :=
  match j with
  | JNum q => Some (QArith_base.Qnum q, QArith_base.Qden q)
  | _ => None
  end.

(** The members of the auth of a request as [encoding/json] reads them
    into a map, numbers as [float64]; none for an auth that is nil or that
    it does not read. *)
Definition auth_members (auth : RawMessage) : gmap string JSON :=
  entries (auth ≫= raw_into_JSONMap).

(** What a document says about one of its requests: the folder path the
    import walk reaches at it, and the name, description, method, raw URL,
    Postman id and auth members of the request. *)
Definition leaf_details (l : Leaf)
  : string * string * string * string * string * string * gmap string JSON :=
  (walk_path "" (leaf_ancestors l), item_Name (leaf_item l),
   item_Description (leaf_item l), preq_Method (leaf_request l),
   url_raw (preq_URL (leaf_request l)), item_PostmanID (leaf_item l),
   auth_members (preq_Auth (leaf_request l))).

(** The same of a request row. *)
Definition row_details (r : Request)
  : string * string * string * string * string * string * gmap string JSON :=
  (req_FolderPath r, req_Name r, req_Description r, req_Method r,
   url_raw (marshal_JSONMap (req_URL r)), req_PostmanID r, entries (req_Auth r)).

(** A key/value pair with nothing but a key and a value. *)
Definition plain_pair (kv : KeyValuePair) : Prop :=
  kv = mkKeyValuePair (kv_Key kv) (kv_Value kv) JNull "" false "".

(** The error of a lookup by a key that no row has, as the repositories
    return it. *)
Definition collection_not_found : error :=
  fmt_Errorf "failed to get collection by ID" sql_ErrNoRows.

Definition request_not_found : error :=
  fmt_Errorf "failed to get request by ID" sql_ErrNoRows.

(** What [ImportOpenAPISpec] asks of a document: an object whose member
    [info] is an object with a non-empty string under [title] and under
    [version]. *)
Definition openapi_document (j : JSON) (o info : gmap string JSON)
    (title version : string) : Prop :=
  j = JObj o ∧ o !! "info" = Some (JObj info)
  ∧ info !! "title" = Some (JStr title) ∧ title ≠ ""
  ∧ info !! "version" = Some (JStr version) ∧ version ≠ "".

(** ** More sample data *)

Definition sample_event : PostmanEvent :=
  mkPostmanEvent "test" (mkPostmanScript "text/javascript" (Some ["pm.test()"]) "" "") false.

Definition sample_response : PostmanResponse :=
  mkPostmanResponse "OK" None "OK" 200 None "{}" None "" "".

(** A document with what the three-level sample leaves out: variables with
    a repeated key, auth objects, event scripts, a saved response, a
    description, a Postman id, and two different schema members. *)
Definition scripted_items : slice PostmanItem :=
  Some [ sample_folder "Auth"
           [ mkPostmanItem "Login" "Signs in" None
               (Some (mkPostmanRequest (JStr "https://example.com/login") "POST"
                        (Some [sample_header "A" "1"; sample_header "A" "2"])
                        zero_PostmanBody ""
                        (Some (payload (JObj {[ "type" := JStr "bearer" ]})))))
               (Some [sample_response]) (Some [sample_event]) None None "id-1" ] ].

Definition scripted_document : PostmanCollection :=
  {| pc_Info := mkCollectionInfo "Scripted" "A description" "urn:info" "pid" "eid" "link";
     pc_Item := scripted_items;
     pc_Variable :=
       Some [sample_header "base" "one"; sample_header "base" "two";
             sample_header "token" "t"];
     pc_Auth := Some (payload (JObj {[ "type" := JStr "basic" ]}));
     pc_Event := Some [sample_event];
     pc_Schema := "urn:top" |}.

Definition scripted_imported : result Z * Storage :=
  ImportPostmanCollection (RT := sample_runtime sample_text scripted_document)
    sample_text empty_storage.

Definition scripted_exported : result PostmanCollection * Storage :=
  ExportPostmanCollection_document (RT := sample_runtime sample_text scripted_document)
    1 scripted_imported.2.

(** The scripted document imported into the storage that holds the
    three-level sample. *)
Definition scripted_reimported : result Z * Storage :=
  ImportPostmanCollection (RT := sample_runtime sample_text scripted_document)
    sample_text sample_imported.2.

(** Three requests whose auth and whose body option [n] hold a number:
    [30000], which is a [float64] value; [9007199254740993], that is
    [2 ^ 53 + 1], which lies between two of them; and [1e400], which is out
    of range. *)
Definition numeric_request (name : string) (n : Z) : PostmanItem :=
  mkPostmanItem name "" None
    (Some (mkPostmanRequest (JStr "https://example.com/n") "GET" None
             (mkPostmanBody "raw" "" None None None None
                (Some (payload (JObj {[ "n" := JNum (Qc_of_Z n) ]}))))
             ""
             (Some (payload (JObj {[ "type" := JStr "bearer";
                                     "n" := JNum (Qc_of_Z n) ]})))))
    None None None None "".

Definition numeric_document : PostmanCollection :=
  {| pc_Info := mkCollectionInfo "Numeric" "" "" "" "" "";
     pc_Item := Some [ numeric_request "exact" 30000;
                       numeric_request "rounded" (2 ^ 53 + 1);
                       numeric_request "out of range" (10 ^ 400) ];
     pc_Variable := None;
     pc_Auth := None;
     pc_Event := None;
     pc_Schema := "" |}.

Definition numeric_imported : result Z * Storage :=
  ImportPostmanCollection (RT := sample_runtime sample_text numeric_document)
    sample_text empty_storage.

Definition numeric_exported : result PostmanCollection * Storage :=
  ExportPostmanCollection_document (RT := sample_runtime sample_text numeric_document)
    1 numeric_imported.2.

Definition blank_request : Request :=
  mkRequest 0 0 "" "" "" None "" None None None None None None "" 0 0.

(** The first request row of the imported sample: [Sign in], in folder
    [Auth/Login]. *)
Definition sample_sign_in_row : Request :=
  default blank_request (head (requests sample_imported.2)).

Definition empty_specs : SpecStorage := mkSpecStorage [] 0 0 [].

Definition sample_openapi : gmap string JSON :=
  {[ "openapi" := JStr "3.0.0";
     "info" := JObj {[ "title" := JStr "Pets"; "version" := JStr "1.0" ]};
     "paths" := JObj ∅ ]}.

(** A decoder for closed examples: it knows one payload. *)
Definition sample_decode (data : list Byte.byte) : result JSON :=
  if same_bytes data sample_text then Ok (JObj sample_openapi) else Err json_SyntaxError.

Definition openapi_imported : result Z * SpecStorage :=
  ImportOpenAPISpec sample_decode sample_text empty_specs.

(** * Properties *)

(** ** Induction on the item tree *)

Lemma PostmanItem_tree_ind (P : PostmanItem → Prop) :
  (∀ name description sub request response event variable auth id,
      Forall P (elems sub) →
      P (mkPostmanItem name description sub request response event variable auth id)) →
  ∀ item, P item.
Proof.
  intros step. fix IH 1. intros [name description sub request response event variable auth id].
  apply step. destruct sub as [children|]; simpl; [|constructor].
  induction children as [|child rest IHrest]; constructor; [apply IH | exact IHrest].
Qed.

(** ** The monad *)

Lemma bind_ext {A B} (m m' : M A) (k k' : A → M B) st :
  (∀ s, m s = m' s) → (∀ a s, k a s = k' a s) → bind m k st = bind m' k' st.
Proof.
  intros Hm Hk. unfold bind. rewrite Hm. destruct (m' st) as [[a|e] s]; auto.
Qed.

Lemma bind_ret_tt (m : M unit) st : (m ;; ret tt) st = m st.
Proof. unfold bind, ret. by destruct (m st) as [[[]|e] s]. Qed.

Lemma for_each_ext {A} (f g : A → M unit) l st :
  (∀ x s, f x s = g x s) → for_each f l st = for_each g l st.
Proof.
  intros Hfg. revert st. induction l as [|x l IH]; intros st; simpl; [done|].
  apply bind_ext; auto.
Qed.

Lemma for_each_app {A} (f : A → M unit) l1 l2 st :
  for_each f (l1 ++ l2) st = (for_each f l1 ;; for_each f l2) st.
Proof.
  revert st. induction l1 as [|x l1 IH]; intros st; simpl.
  - unfold bind, ret. done.
  - unfold bind in *. destruct (f x st) as [[[]|e] s]; [apply IH | done].
Qed.

Lemma for_each_concat {A B} (f : B → M unit) (g : A → list B) l st :
  for_each (λ x, for_each f (g x)) l st = for_each f (concat (g <$> l)) st.
Proof.
  revert st. induction l as [|x l IH]; intros st; simpl; [done|].
  rewrite for_each_app. apply bind_ext; auto.
Qed.

(** ** The walk creates the records of the request leaves, in order *)

Lemma processPostmanItem_folder name d child rest request response event variable auth id
    collectionID parentPath st :
  processPostmanItem
    (mkPostmanItem name d (Some (child :: rest)) request response event variable auth id)
    collectionID parentPath st
  = for_each (λ item, processPostmanItem item collectionID (currentPath_of parentPath name))
      (child :: rest) st.
Proof.
  unfold processPostmanItem; fold processPostmanItem.
  change (for_each ?f (child :: rest)) with (f child ;; for_each f rest).
  apply bind_ext; [done|]. intros _ s. revert s.
  induction rest as [|x rest IH]; intros s; [done|].
  change (for_each ?f (x :: rest)) with (f x ;; for_each f rest).
  apply bind_ext; auto.
Qed.

Lemma processPostmanItem_flat item : ∀ collectionID parentPath st,
  processPostmanItem item collectionID parentPath st
  = for_each create_request (record_of collectionID parentPath <$> leaves_of item) st.
Proof.
  induction item as [name d sub request response event variable auth id IH]
    using PostmanItem_tree_ind.
  intros collectionID parentPath st.
  assert (Hleaf : ∀ r s, for_each create_request [r] s = create_request r s)
    by (intros r s; apply bind_ret_tt).
  destruct sub as [[|child rest]|].
  - destruct request; [symmetry; apply Hleaf | reflexivity].
  - rewrite processPostmanItem_folder.
    change (leaves_of (mkPostmanItem name d (Some (child :: rest)) request response
                         event variable auth id))
      with (under name <$> concat (leaves_of <$> child :: rest)).
    rewrite <- list_fmap_compose.
    rewrite (list_fmap_ext (record_of collectionID parentPath ∘ under name)
               (record_of collectionID (currentPath_of parentPath name))
               _ (λ _ _ _, eq_refl)).
    simpl in IH. generalize dependent (child :: rest). intros children IH.
    revert st. induction children as [|x children IHc]; intros st; [done|].
    apply Forall_cons in IH as [Hx Hrest].
    simpl. rewrite fmap_app, for_each_app.
    apply bind_ext; [apply Hx | intros; apply IHc, Hrest].
  - destruct request; [symmetry; apply Hleaf | reflexivity].
Qed.

Lemma processPostmanItems_flat items collectionID parentPath st :
  processPostmanItems items collectionID parentPath st
  = for_each create_request (record_of collectionID parentPath <$> request_leaves items) st.
Proof.
  unfold processPostmanItems, request_leaves.
  rewrite (for_each_ext _ _ _ _ (λ x s, processPostmanItem_flat x collectionID parentPath s)).
  rewrite (for_each_concat create_request
             (λ x, record_of collectionID parentPath <$> leaves_of x)).
  f_equal. induction (elems items) as [|x l IH]; [done|].
  rewrite !fmap_cons, !concat_cons, fmap_app. by f_equal.
Qed.

(** ** Creating a list of records against the storage *)

Lemma stored_rows_stored_as seq now rs :
  Forall2 stored_as rs (stored_rows seq now rs).
Proof.
  revert seq now. induction rs as [|r rs IH]; intros seq now; simpl; constructor; [|done].
  by exists (seq + 1), now, (now + 1).
Qed.

Lemma create_request_ok r st :
  head (faults st) ≠ Some true →
  create_request r st
  = (Ok tt,
     mkStorage (collections st)
       (requests st ++ [Request_with_ID (Request_stamp r (clock st) (clock st + 1))
                          (requests_id_seq st + 1)])
       (collections_id_seq st) (requests_id_seq st + 1) (clock st + 1 + 1)
       (tail (faults st))).
Proof.
  intros Hhead. destruct st as [cs rs cseq rseq now fs].
  destruct fs as [|[] fs]; simpl in *; [done|congruence|done].
Qed.

Lemma create_request_fault r st fs :
  faults st = true :: fs →
  create_request r st
  = (Err create_request_error,
     mkStorage (collections st) (requests st) (collections_id_seq st)
       (requests_id_seq st) (clock st + 1 + 1) fs).
Proof.
  intros Hfs. destruct st as [cs rs cseq rseq now fs']. simpl in Hfs. by subst fs'.
Qed.

Lemma create_all_ok rs : ∀ st,
  no_fault_within (length rs) (faults st) →
  ∃ st',
    for_each create_request rs st = (Ok tt, st')
    ∧ collections st' = collections st
    ∧ requests st' = requests st ++ stored_rows (requests_id_seq st) (clock st) rs
    ∧ collections_id_seq st' = collections_id_seq st
    ∧ faults st' = drop (length rs) (faults st).
Proof.
  induction rs as [|r rs IH]; intros st Hquiet.
  - exists st. by rewrite app_nil_r.
  - assert (Hhead : head (faults st) ≠ Some true).
    { unfold no_fault_within in Hquiet. destruct (faults st) as [|b fs]; [done|].
      simpl in Hquiet. apply Forall_cons in Hquiet as [-> _]. done. }
    assert (Htail : no_fault_within (length rs) (tail (faults st))).
    { unfold no_fault_within in *. destruct (faults st) as [|b fs]; simpl in *.
      - by rewrite take_nil.
      - by apply Forall_cons in Hquiet as [_ ?]. }
    pose proof (create_request_ok r st Hhead) as Hstep.
    match type of Hstep with _ = (_, ?s) =>
      destruct (IH s Htail) as (st' & Hrun & Hcs & Hrs & Hseq & Hfs) end.
    exists st'. simpl in Hrun, Hcs, Hrs, Hseq, Hfs.
    change (for_each create_request (r :: rs)) with
      (create_request r ;; for_each create_request rs).
    unfold bind at 1. rewrite Hstep. split; [exact Hrun|].
    split; [done|]. split.
    + rewrite Hrs, <- app_assoc. simpl.
      by replace (clock st + 1 + 1) with (clock st + 2) by lia.
    + split; [done|]. rewrite Hfs.
      destruct (faults st); simpl; [by rewrite drop_nil | done].
Qed.

Lemma create_all_fault rs : ∀ st n rest,
  faults st = replicate n false ++ true :: rest →
  (n < length rs)%nat →
  ∃ st',
    for_each create_request rs st = (Err create_request_error, st')
    ∧ collections st' = collections st
    ∧ requests st' = requests st ++ stored_rows (requests_id_seq st) (clock st) (take n rs)
    ∧ collections_id_seq st' = collections_id_seq st
    ∧ faults st' = rest.
Proof.
  induction rs as [|r rs IH]; intros st n rest Hfs Hn; simpl in Hn; [lia|].
  change (for_each create_request (r :: rs)) with
    (create_request r ;; for_each create_request rs).
  destruct n as [|n]; simpl in Hfs.
  - unfold bind. rewrite (create_request_fault r st rest Hfs).
    eexists. split; [done|]. simpl. by rewrite app_nil_r.
  - assert (Hhead : head (faults st) ≠ Some true) by by rewrite Hfs.
    pose proof (create_request_ok r st Hhead) as Hstep.
    match type of Hstep with _ = (_, ?s) =>
      destruct (IH s n rest) as (st' & Hrun & Hcs & Hrs & Hseq & Hrest) end.
    { simpl. by rewrite Hfs. }
    { lia. }
    exists st'. unfold bind at 1. rewrite Hstep. split; [exact Hrun|].
    simpl in Hcs, Hrs, Hseq. split; [done|]. split; [|done].
    rewrite Hrs, <- app_assoc. simpl.
      by replace (clock st + 1 + 1) with (clock st + 2) by lia.
Qed.

(** ** The walk on a storage that accepts every create *)

Lemma walk_ok items collectionID parentPath st :
  no_fault_within (length (request_leaves items)) (faults st) →
  ∃ st' rows,
    processPostmanItems items collectionID parentPath st = (Ok tt, st')
    ∧ collections st' = collections st
    ∧ requests st' = requests st ++ rows
    ∧ Forall2 stored_as (record_of collectionID parentPath <$> request_leaves items) rows
    ∧ collections_id_seq st' = collections_id_seq st
    ∧ faults st' = drop (length (request_leaves items)) (faults st).
Proof.
  intros Hquiet. rewrite processPostmanItems_flat.
  destruct (create_all_ok (record_of collectionID parentPath <$> request_leaves items) st)
    as (st' & Hrun & Hcs & Hrs & Hseq & Hfs).
  { by rewrite length_fmap. }
  rewrite length_fmap in Hfs.
  eexists st', _. repeat split; eauto using stored_rows_stored_as.
Qed.

Lemma walk_fault items collectionID parentPath st n rest :
  faults st = replicate n false ++ true :: rest →
  (n < length (request_leaves items))%nat →
  ∃ st' rows,
    processPostmanItems items collectionID parentPath st = (Err create_request_error, st')
    ∧ collections st' = collections st
    ∧ requests st' = requests st ++ rows
    ∧ Forall2 stored_as
        (record_of collectionID parentPath <$> take n (request_leaves items)) rows
    ∧ collections_id_seq st' = collections_id_seq st
    ∧ faults st' = rest.
Proof.
  intros Hfs Hn. rewrite processPostmanItems_flat.
  destruct (create_all_fault (record_of collectionID parentPath <$> request_leaves items)
              st n rest Hfs) as (st' & Hrun & Hcs & Hrs & Hseq & Hrest).
  { by rewrite length_fmap. }
  rewrite <- fmap_take in Hrs.
  eexists st', _. repeat split; eauto using stored_rows_stored_as.
Qed.

(** The fields of a stored row other than key and timestamps are those of
    the record. *)
Lemma stored_as_fields r row :
  stored_as r row →
  req_CollectionID row = req_CollectionID r ∧ req_Name row = req_Name r
  ∧ req_FolderPath row = req_FolderPath r ∧ req_URL row = req_URL r
  ∧ req_Method row = req_Method r ∧ req_Headers row = req_Headers r.
Proof. intros (id & created & updated & ->). done. Qed.

(** Every entry of [request_leaves] is a leaf that carries its request. *)
Lemma leaves_of_spec item :
  Forall (λ l, elems (item_Item (leaf_item l)) = []
               ∧ item_Request (leaf_item l) = Some (leaf_request l)) (leaves_of item).
Proof.
  induction item as [name d sub request response event variable auth id IH]
    using PostmanItem_tree_ind.
  destruct sub as [[|child rest]|].
  - destruct request; repeat constructor.
  - change (Forall (λ l, elems (item_Item (leaf_item l)) = []
                         ∧ item_Request (leaf_item l) = Some (leaf_request l))
              (under name <$> concat (leaves_of <$> child :: rest))).
    apply Forall_fmap. apply Forall_concat. apply Forall_fmap.
    eapply Forall_impl; [exact IH|]. intros x Hx. simpl.
    eapply Forall_impl; [exact Hx|]. done.
  - destruct request; repeat constructor.
Qed.

Lemma request_leaves_spec items :
  Forall (λ l, elems (item_Item (leaf_item l)) = []
               ∧ item_Request (leaf_item l) = Some (leaf_request l)) (request_leaves items).
Proof.
  apply Forall_concat, Forall_fmap, Forall_forall. intros x _. apply leaves_of_spec.
Qed.

(** A folder contributes the leaves of its children and nothing of its own;
    a leaf without a request contributes nothing. *)
Lemma leaves_of_folder name d child rest request response event variable auth id :
  leaves_of (mkPostmanItem name d (Some (child :: rest)) request response event variable auth id)
  = under name <$> request_leaves (Some (child :: rest)).
Proof. done. Qed.

Lemma leaves_of_no_request item :
  elems (item_Item item) = [] → item_Request item = None → leaves_of item = [].
Proof. destruct item as [? ? [[|]|] [] ? ? ? ? ?]; done. Qed.

Lemma leaves_of_request item r :
  elems (item_Item item) = [] → item_Request item = Some r →
  leaves_of item = [mkLeaf [] item r].
Proof. destruct item as [? ? [[|]|] [] ? ? ? ? ?]; intros; simplify_eq/=; done. Qed.

Lemma elem_of_concat {A} (x : A) (ls : list (list A)) :
  x ∈ concat ls ↔ ∃ l, x ∈ l ∧ l ∈ ls.
Proof.
  induction ls as [|l ls IH]; simpl.
  - split; [by intros ?%not_elem_of_nil | by intros (l & _ & ?%not_elem_of_nil)].
  - rewrite elem_of_app, IH. split.
    + intros [Hx | (l' & Hx & Hl')]; [exists l | exists l'];
        (split; [done|]); [left | by right].
    + intros (l' & Hx & Hl'). apply elem_of_cons in Hl' as [-> | Hl']; eauto.
Qed.

Lemma node_at_singleton ancestors item items :
  node_at ancestors item items ↔ ∃ root, root ∈ items ∧ node_at ancestors item [root].
Proof.
  split.
  - intros [it its Hin | parent anc it its Hin Hbelow].
    + exists it. split; [done|]. constructor. left.
    + exists parent. split; [done|]. constructor; [left | done].
  - intros (root & Hroot & Hnode).
    inversion Hnode as [it its Hin | parent anc it its Hin Hbelow]; subst.
    + apply list_elem_of_singleton in Hin as ->. by constructor.
    + apply list_elem_of_singleton in Hin as ->. by constructor.
Qed.

Lemma leaves_of_forest (items : list PostmanItem) :
  Forall (λ item, ∀ l, l ∈ leaves_of item ↔ is_request_leaf_at [item] l) items →
  ∀ l, l ∈ concat (leaves_of <$> items) ↔ is_request_leaf_at items l.
Proof.
  intros Hitems l. rewrite Forall_forall in Hitems.
  unfold is_request_leaf_at. rewrite elem_of_concat, node_at_singleton. split.
  - intros (ls & Hl & (item & -> & Hitem)%list_elem_of_fmap).
    apply (Hitems item Hitem) in Hl as (Hnode & Hleaf & Hreq). eauto.
  - intros ((root & Hroot & Hnode) & Hleaf & Hreq).
    exists (leaves_of root). split; [|apply list_elem_of_fmap; eauto].
    by apply (Hitems root Hroot).
Qed.

(** [request_leaves] lists exactly the nodes of the tree, at any depth, that
    have no nested items and carry a request. *)
Lemma leaves_of_iff item l : l ∈ leaves_of item ↔ is_request_leaf_at [item] l.
Proof.
  revert l.
  induction item as [name d sub request response event variable auth id IH]
    using PostmanItem_tree_ind.
  intros [anc it r]. unfold is_request_leaf_at. simpl.
  set (item := mkPostmanItem name d sub request response event variable auth id).
  assert (Hleafcase : elems sub = [] →
            mkLeaf anc it r ∈ leaves_of item
            ↔ node_at anc it [item] ∧ elems (item_Item it) = [] ∧ item_Request it = Some r).
  { intros Hsub. split.
    - intros Hin. assert (anc = [] ∧ it = item ∧ request = Some r) as (-> & -> & ->).
      { subst item. destruct sub as [[|]|], request; simplify_eq/=;
          try (by apply not_elem_of_nil in Hin);
          apply list_elem_of_singleton in Hin; by simplify_eq. }
      split; [constructor; left | done].
    - intros (Hnode & Hleaf & Hreq).
      inversion Hnode as [x xs Hin | parent anc' x xs Hin Hbelow]; subst.
      + apply list_elem_of_singleton in Hin as ->.
        rewrite (leaves_of_request _ r Hleaf Hreq). left.
      + apply list_elem_of_singleton in Hin as ->. simpl in Hbelow.
        rewrite Hsub in Hbelow.
        inversion Hbelow as [? ? Hnil | ? ? ? ? Hnil]; by apply not_elem_of_nil in Hnil. }
  destruct sub as [[|child rest]|]; [by apply Hleafcase | | by apply Hleafcase].
  clear Hleafcase. simpl in IH.
  pose proof (leaves_of_forest (child :: rest) IH) as Hforest.
  change (leaves_of item) with (under name <$> concat (leaves_of <$> child :: rest)).
  rewrite list_elem_of_fmap. split.
  - intros ([anc' it' r'] & Heq & (Hnode & Hleaf & Hreq)%Hforest).
    unfold under in Heq. simpl in *. simplify_eq.
    split; [|done]. by apply (node_below item); [left|].
  - intros (Hnode & Hleaf & Hreq).
    inversion Hnode as [x xs Hin | parent anc' x xs Hin Hbelow]; subst.
    + apply list_elem_of_singleton in Hin as ->. done.
    + apply list_elem_of_singleton in Hin as ->.
      exists (mkLeaf anc' it r). split; [done|]. by apply Hforest.
Qed.

Lemma request_leaves_iff items l :
  l ∈ request_leaves items ↔ is_request_leaf_at (elems items) l.
Proof.
  apply leaves_of_forest, Forall_forall. intros item _ l'. apply leaves_of_iff.
Qed.

(** ** C1: one record per request leaf *)

(** C1.  On a storage that accepts the creates, the walk
    [processPostmanItems] returns without error and appends to table
    [requests] exactly one row per tree node that has a non-nil [request]
    and an empty or absent nested [item] array, at any depth and in document
    order: [request_leaves] lists exactly those nodes, the rows are as many,
    and each row carries the name and method of its node and the collection
    id.  Folders (nodes with a non-empty [item] array) and leaves without a
    request contribute no row of their own, see [leaves_of_folder] and
    [leaves_of_no_request]. *)
Theorem processPostmanItems_one_record_per_request_leaf
    (items : slice PostmanItem) (collectionID : Z) (parentPath : string) (st : Storage) :
  no_fault_within (length (request_leaves items)) (faults st) →
  ∃ st' rows,
    processPostmanItems items collectionID parentPath st = (Ok tt, st')
    ∧ requests st' = requests st ++ rows
    ∧ length rows = length (request_leaves items)
    ∧ (∀ l, l ∈ request_leaves items ↔ is_request_leaf_at (elems items) l)
    ∧ Forall2 (λ l row,
                 elems (item_Item (leaf_item l)) = []
                 ∧ item_Request (leaf_item l) = Some (leaf_request l)
                 ∧ req_Name row = item_Name (leaf_item l)
                 ∧ req_Method row = preq_Method (leaf_request l)
                 ∧ req_CollectionID row = collectionID)
        (request_leaves items) rows.
Proof.
  intros Hquiet.
  destruct (walk_ok items collectionID parentPath st Hquiet)
    as (st' & rows & Hrun & _ & Hrows & Hstored & _).
  exists st', rows. split; [done|]. split; [done|]. split.
  - apply Forall2_length in Hstored. by rewrite length_fmap in Hstored.
  - split; [intros l; apply request_leaves_iff|].
    rewrite Forall2_fmap_l in Hstored.
    pose proof (request_leaves_spec items) as Hleaves.
    clear Hrun Hrows Hquiet.
    induction Hstored as [|l row ls rs Hl _ IH]; constructor.
    + apply Forall_cons in Hleaves as [[Hitem Hreq] _].
      destruct (stored_as_fields _ _ Hl) as (-> & -> & _ & _ & -> & _). done.
    + apply Forall_cons in Hleaves as [_ Hleaves]. by apply IH.
Qed.

Lemma processPostmanItems_one_record_per_request_leaf_witness :
  ∃ st' rows,
    processPostmanItems sample_items 1 "" empty_storage = (Ok tt, st')
    ∧ requests st' = requests empty_storage ++ rows
    ∧ length rows = length (request_leaves sample_items)
    ∧ (∀ l, l ∈ request_leaves sample_items ↔ is_request_leaf_at (elems sample_items) l)
    ∧ Forall2 (λ l row,
                 elems (item_Item (leaf_item l)) = []
                 ∧ item_Request (leaf_item l) = Some (leaf_request l)
                 ∧ req_Name row = item_Name (leaf_item l)
                 ∧ req_Method row = preq_Method (leaf_request l)
                 ∧ req_CollectionID row = 1)
        (request_leaves sample_items) rows.
Proof.
  apply (processPostmanItems_one_record_per_request_leaf sample_items 1 "" empty_storage).
  vm_compute. constructor.
Defined.

(** ** C3: the stored URL *)

Lemma urlMap_of_canonical url : urlMap_of url = Some (canonical_url url).
Proof.
  destruct url as [| | |s| |]; try done.
  unfold urlMap_of, canonical_url. by repeat case_decide.
Qed.

(** C3.  Every row the walk stores has a URL that is a non-nil map, computed
    from the exchange URL by cases: a non-empty string [s] gives
    [{"raw": s}]; nil and the empty string give the empty object; an object
    gives the object itself, with all its keys and values; a value whose
    encode-then-decode round trip into a map fails (a boolean, a number, an
    array) gives the empty object. *)
Theorem stored_url_is_canonical
    (items : slice PostmanItem) (collectionID : Z) (parentPath : string) (st : Storage) :
  no_fault_within (length (request_leaves items)) (faults st) →
  ∃ st' rows,
    processPostmanItems items collectionID parentPath st = (Ok tt, st')
    ∧ requests st' = requests st ++ rows
    ∧ Forall2 (λ l row,
                 let url := preq_URL (leaf_request l) in
                 (∃ m, req_URL row = Some m)
                 ∧ (∀ s, url = JStr s → s ≠ "" → req_URL row = Some {[ "raw" := JStr s ]})
                 ∧ (url = JNull ∨ url = JStr "" → req_URL row = Some ∅)
                 ∧ (∀ o, url = JObj o → req_URL row = Some o)
                 ∧ (∀ e, (∀ s, url ≠ JStr s) → unmarshal_JSONMap url = Err e →
                         req_URL row = Some ∅))
        (request_leaves items) rows.
Proof.
  intros Hquiet.
  destruct (walk_ok items collectionID parentPath st Hquiet)
    as (st' & rows & Hrun & _ & Hrows & Hstored & _).
  exists st', rows. split; [done|]. split; [done|].
  rewrite Forall2_fmap_l in Hstored. eapply Forall2_impl; [exact Hstored|].
  intros l row Hl. destruct (stored_as_fields _ _ Hl) as (_ & _ & _ & -> & _).
  simpl. rewrite urlMap_of_canonical.
  split; [eauto|]. split; [|split; [|split]].
  - intros s -> Hs. simpl. by case_decide.
  - intros [-> | ->]; done.
  - by intros o ->.
  - intros e Hstr Herr. destruct (preq_URL (leaf_request l)); try done.
    by destruct (Hstr s).
Qed.

Lemma stored_url_is_canonical_witness :
  ∃ st' rows,
    processPostmanItems sample_items 1 "" empty_storage = (Ok tt, st')
    ∧ requests st' = requests empty_storage ++ rows
    ∧ Forall2 (λ l row,
                 let url := preq_URL (leaf_request l) in
                 (∃ m, req_URL row = Some m)
                 ∧ (∀ s, url = JStr s → s ≠ "" → req_URL row = Some {[ "raw" := JStr s ]})
                 ∧ (url = JNull ∨ url = JStr "" → req_URL row = Some ∅)
                 ∧ (∀ o, url = JObj o → req_URL row = Some o)
                 ∧ (∀ e, (∀ s, url ≠ JStr s) → unmarshal_JSONMap url = Err e →
                         req_URL row = Some ∅))
        (request_leaves sample_items) rows.
Proof.
  apply (stored_url_is_canonical sample_items 1 "" empty_storage).
  vm_compute. constructor.
Defined.

(** ** C7: the stored headers *)

Lemma insert_in_order_lookup (header : list KeyValuePair) (k : string) :
  foldl (λ headers kv, <[kv_Key kv := kv_Value kv]> headers) (∅ : gmap string string) header !! k
  = last_write_wins header k.
Proof.
  unfold last_write_wins.
  induction header as [|kv header IH] using rev_ind; [done|].
  rewrite foldl_snoc, filter_app, filter_cons, filter_nil.
  destruct (decide (kv_Key kv = k)) as [<-|Hne].
  - by rewrite lookup_insert_eq, last_snoc.
  - by rewrite lookup_insert_ne, app_nil_r.
Qed.

Lemma headers_of_entries header :
  entries (headers_of header)
  = foldl (λ headers kv, <[kv_Key kv := kv_Value kv]> headers) ∅ (elems header).
Proof.
  unfold headers_of. case_decide as Hlen; [done|].
  unfold len in Hlen. by destruct (elems header); [|simpl in Hlen; lia].
Qed.

(** C7.  The headers of every row the walk stores are the mapping obtained
    by writing the pairs of the exchange header list in order, so that each
    key holds the value of its last occurrence; the list
    [[{A,1},{A,2}]] becomes the mapping [{A: 2}]. *)
Theorem stored_headers_last_write_wins
    (items : slice PostmanItem) (collectionID : Z) (parentPath : string) (st : Storage) :
  no_fault_within (length (request_leaves items)) (faults st) →
  (∃ st' rows,
    processPostmanItems items collectionID parentPath st = (Ok tt, st')
    ∧ requests st' = requests st ++ rows
    ∧ Forall2 (λ l row,
                 let header := elems (preq_Header (leaf_request l)) in
                 entries (req_Headers row)
                 = foldl (λ headers kv, <[kv_Key kv := kv_Value kv]> headers) ∅ header
                 ∧ ∀ k, entries (req_Headers row) !! k = last_write_wins header k)
        (request_leaves items) rows)
  ∧ headers_of (Some [sample_header "A" "1"; sample_header "A" "2"])
    = Some {[ "A" := "2" ]}.
Proof.
  intros Hquiet. split; [|done].
  destruct (walk_ok items collectionID parentPath st Hquiet)
    as (st' & rows & Hrun & _ & Hrows & Hstored & _).
  exists st', rows. split; [done|]. split; [done|].
  rewrite Forall2_fmap_l in Hstored. eapply Forall2_impl; [exact Hstored|].
  intros l row Hl. destruct (stored_as_fields _ _ Hl) as (_ & _ & _ & _ & _ & ->).
  simpl. rewrite headers_of_entries. split; [done|].
  intros k. apply insert_in_order_lookup.
Qed.

Lemma stored_headers_last_write_wins_witness :
  (∃ st' rows,
    processPostmanItems sample_items 1 "" empty_storage = (Ok tt, st')
    ∧ requests st' = requests empty_storage ++ rows
    ∧ Forall2 (λ l row,
                 let header := elems (preq_Header (leaf_request l)) in
                 entries (req_Headers row)
                 = foldl (λ headers kv, <[kv_Key kv := kv_Value kv]> headers) ∅ header
                 ∧ ∀ k, entries (req_Headers row) !! k = last_write_wins header k)
        (request_leaves sample_items) rows)
  ∧ headers_of (Some [sample_header "A" "1"; sample_header "A" "2"])
    = Some {[ "A" := "2" ]}.
Proof.
  apply (stored_headers_last_write_wins sample_items 1 "" empty_storage).
  vm_compute. constructor.
Defined.

(** ** C4: the folder path *)















(** The two leaves under [Auth] then [Login] are stored with folder path
    [Auth/Login], the leaf at the root with the empty path. *)
Example sample_folder_paths :
  req_FolderPath <$> requests (processPostmanItems sample_items 1 "" empty_storage).2
  = ["Auth/Login"; "Auth/Login"; ""].
Proof. vm_compute. reflexivity. Qed.


(** ** ImportPostmanCollection *)

Section ImportProperties.
Context {RT : Runtime}.

Lemma import_parsed data document st :
  json_Unmarshal_PostmanCollection data = Ok document →
  info_Name (pc_Info document) ≠ "" →
  ImportPostmanCollection data st
  = (collection <-
       wrap "failed to create collection"
         (collectionRepo_Create (new_Collection document)) ;;
     processPostmanItems (pc_Item document) (coll_ID collection) "" ;;
     ret (coll_ID collection)) st.
Proof.
  intros Hparse Hname. unfold ImportPostmanCollection.
  unfold bind at 1, wrap at 1, lift. rewrite Hparse. by case_decide.
Qed.

Lemma create_collection_ok c st :
  head (faults st) ≠ Some true →
  wrap "failed to create collection" (collectionRepo_Create c) st
  = (Ok (Collection_with_ID (Collection_stamp c (clock st) (clock st + 1))
           (collections_id_seq st + 1)),
     mkStorage
       (collections st
          ++ [Collection_with_ID (Collection_stamp c (clock st) (clock st + 1))
                (collections_id_seq st + 1)])
       (requests st) (collections_id_seq st + 1) (requests_id_seq st)
       (clock st + 1 + 1) (tail (faults st))).
Proof.
  intros Hhead. destruct st as [cs rs cseq rseq now fs].
  destruct fs as [|[] fs]; simpl in *; [done|congruence|done].
Qed.

(** ** C5: malformed input *)

(** C5.  When the payload is not valid JSON, or it decodes to a document
    whose [info.name] is empty (an absent name decodes to the empty
    string), [ImportPostmanCollection] returns an error and the storage is
    exactly as it was: no statement was sent to the database, no row was
    written. *)
Theorem import_malformed_writes_nothing (data : list Byte.byte) (st : Storage) :
  json_Valid data = false
  ∨ (∃ document, json_Unmarshal_PostmanCollection data = Ok document
                 ∧ info_Name (pc_Info document) = "") →
  ∃ e, ImportPostmanCollection data st = (Err e, st).
Proof.
  intros [Hinvalid | (document & Hparse & Hname)].
  - exists (fmt_Errorf "invalid Postman collection format" json_SyntaxError).
    unfold ImportPostmanCollection, bind, wrap, lift.
    by rewrite (json_Unmarshal_invalid data Hinvalid).
  - exists (errors_New "collection name is required").
    unfold ImportPostmanCollection, bind, wrap, lift.
    rewrite Hparse. by case_decide.
Qed.

(** ** C6: a create that fails in the middle of the walk *)

(** C6.  When the collection row is created and the first [n] request
    creates succeed but the next one, the [n+1]-th, fails,
    [ImportPostmanCollection]
    returns the error of that create wrapped with its context, sends no
    further statement (the rest of the fault schedule is untouched), and the
    storage keeps the collection row and the [n] request rows written before
    the failure. *)
Theorem import_failure_keeps_earlier_rows
    (data : list Byte.byte) (document : PostmanCollection) (st : Storage)
    (n : nat) (rest : list bool) :
  json_Unmarshal_PostmanCollection data = Ok document →
  info_Name (pc_Info document) ≠ "" →
  faults st = false :: replicate n false ++ true :: rest →
  (n < length (request_leaves (pc_Item document)))%nat →
  ∃ st' collection rows,
    ImportPostmanCollection data st
    = (Err (fmt_Errorf "failed to create request"
              (fmt_Errorf "failed to create request" sql_Error)), st')
    ∧ collections st' = collections st ++ [collection]
    ∧ coll_Name collection = info_Name (pc_Info document)
    ∧ requests st' = requests st ++ rows
    ∧ length rows = n
    ∧ Forall2 stored_as
        (record_of (coll_ID collection) "" <$> take n (request_leaves (pc_Item document)))
        rows
    ∧ faults st' = rest.
Proof.
  intros Hparse Hname Hfs Hn.
  rewrite (import_parsed data document st Hparse Hname).
  unfold bind at 1. rewrite create_collection_ok by by rewrite Hfs.
  match goal with |- context [processPostmanItems _ ?id _] => set (cid := id) end.
  match goal with |- context [bind _ _ ?s] => set (st1 := s) end.
  destruct (walk_fault (pc_Item document) cid "" st1 n rest)
    as (st' & rows & Hrun & Hcs & Hrows & Hstored & _ & Hrest).
  { subst st1. simpl. by rewrite Hfs. }
  { done. }
  exists st'. eexists. exists rows.
  unfold bind. rewrite Hrun. split; [done|].
  split; [by rewrite Hcs|]. split; [done|]. split; [by rewrite Hrows|].
  split; [|done].
  apply Forall2_length in Hstored. rewrite length_fmap, length_take in Hstored. lia.
Qed.

End ImportProperties.

Lemma import_malformed_writes_nothing_witness :
  (∃ e, ImportPostmanCollection (RT := sample_runtime sample_text sample_document)
          (String.list_byte_of_string "{") empty_storage = (Err e, empty_storage))
  ∧ (∃ e, ImportPostmanCollection
            (RT := sample_runtime sample_text
                     (mkPostmanCollection (mkCollectionInfo "" "" "" "" "" "")
                        sample_items None None None ""))
            sample_text empty_storage = (Err e, empty_storage)).
Proof.
  split.
  - apply (import_malformed_writes_nothing (RT := sample_runtime sample_text sample_document)).
    left. vm_compute. reflexivity.
  - apply (import_malformed_writes_nothing
             (RT := sample_runtime sample_text
                      (mkPostmanCollection (mkCollectionInfo "" "" "" "" "" "")
                         sample_items None None None ""))).
    right. eexists. split; vm_compute; reflexivity.
Defined.

Lemma import_failure_keeps_earlier_rows_witness :
  ∃ st' collection rows,
    ImportPostmanCollection (RT := sample_runtime sample_text sample_document)
      sample_text second_create_fails
    = (Err (fmt_Errorf "failed to create request"
              (fmt_Errorf "failed to create request" sql_Error)), st')
    ∧ collections st' = collections second_create_fails ++ [collection]
    ∧ coll_Name collection = info_Name (pc_Info sample_document)
    ∧ requests st' = requests second_create_fails ++ rows
    ∧ length rows = 1%nat
    ∧ Forall2 stored_as
        (record_of (coll_ID collection) ""
           <$> take 1 (request_leaves (pc_Item sample_document)))
        rows
    ∧ faults st' = [].
Proof.
  apply (import_failure_keeps_earlier_rows
           (RT := sample_runtime sample_text sample_document)
           sample_text sample_document second_create_fails 1 []).
  - vm_compute. reflexivity.
  - vm_compute. discriminate.
  - reflexivity.
  - vm_compute. lia.
Defined.

(** ** ExportPostmanCollection *)

Section ExportLemmas.
Context {RT : Runtime}.

(** *** The cached items are never returned *)

Lemma export_cached_none collection postmanCollection :
  export_cached collection postmanCollection = None.
Proof.
  unfold export_cached. case_decide as Hsize; [|done].
  destruct (coll_Items collection) as [items|]; [done|].
  simpl in Hsize. rewrite map_size_empty in Hsize. lia.
Qed.

Lemma new_Collection_items document : coll_Items (new_Collection document) = None.
Proof. simpl. by destruct (pc_Item document). Qed.

(** *** Reading the storage *)

Lemma GetCollection_run id st collection st' :
  wrap "failed to get collection" (GetCollection id) st = (Ok collection, st') →
  collections st' = collections st ∧ requests st' = requests st
  ∧ collection ∈ collections st ∧ coll_ID collection = id
  ∧ faults st' = tail (faults st).
Proof.
  unfold wrap, GetCollection, collectionRepo_GetByID, wrap, db_Exec, select_collection.
  destruct st as [cs rs cseq rseq now fs]. simpl.
  assert (Hfind : ∀ x, list_find (λ c, coll_ID c = id) cs = Some x →
                       x.2 ∈ cs ∧ coll_ID x.2 = id).
  { intros [i c] (Hi & Hc & _)%list_find_Some. split; [|done].
    by eapply list_elem_of_lookup_2. }
  destruct fs as [|[] fs]; simpl; [| done |];
    destruct (list_find _ cs) as [[i c]|] eqn:Hc; simpl; intros ?; simplify_eq;
    destruct (Hfind _ eq_refl); done.
Qed.

Lemma ListByCollectionID_run id offset limit st rows st' :
  wrap "failed to get requests" (requestRepo_ListByCollectionID id offset limit) st
  = (Ok rows, st') →
  rows = select_requests id offset limit (requests st)
  ∧ collections st' = collections st ∧ requests st' = requests st.
Proof.
  unfold wrap, requestRepo_ListByCollectionID, wrap, db_Exec.
  destruct st as [cs rs cseq rseq now fs]. simpl.
  destruct fs as [|[] fs]; simpl; intros ?; by simplify_eq.
Qed.

(** An export that succeeds returns the document rebuilt from the rows that
    [ListByCollectionID(id, 0, 1000)] selects. *)
Lemma export_document_run id st document st' :
  ExportPostmanCollection_document id st = (Ok document, st') →
  ∃ collection,
    collection ∈ collections st ∧ coll_ID collection = id
    ∧ document
      = export_metadata collection (export_header collection)
          (export_items (folderMap_of (select_requests id 0 1000 (requests st)))).
Proof.
  unfold ExportPostmanCollection_document. unfold bind at 1.
  destruct (wrap "failed to get collection" (GetCollection id) st)
    as [[collection|e] st1] eqn:Hget; [|done].
  apply GetCollection_run in Hget as (_ & Hrs & Hin & Hid & _).
  rewrite export_cached_none. unfold export_rebuild, bind.
  destruct (wrap "failed to get requests" _ st1) as [[rows|e] st2] eqn:Hlist; [|done].
  apply ListByCollectionID_run in Hlist as (-> & _ & _).
  unfold ret. intros ?; simplify_eq. exists collection. by rewrite Hrs.
Qed.

Lemma GetCollection_ok id st collection :
  head (faults st) ≠ Some true →
  collection ∈ collections st → coll_ID collection = id →
  ∃ c, wrap "failed to get collection" (GetCollection id) st
       = (Ok c, set_faults (tail (faults st)) st).
Proof.
  intros Hhead Hin Hid.
  assert (is_Some (list_find (λ c, coll_ID c = id) (collections st))) as [[i c] Hfind].
  { destruct (list_find (λ c, coll_ID c = id) (collections st)) eqn:Hfind; [eauto|].
    apply list_find_None in Hfind. rewrite Forall_forall in Hfind.
    by destruct (Hfind collection Hin). }
  exists c.
  unfold wrap, GetCollection, collectionRepo_GetByID, wrap, db_Exec, select_collection.
  destruct st as [cs rs cseq rseq now fs]. simpl in *.
  destruct fs as [|[] fs]; simpl in *; [|done|]; by rewrite Hfind.
Qed.

Lemma ListByCollectionID_ok id offset limit st :
  head (faults st) ≠ Some true →
  wrap "failed to get requests" (requestRepo_ListByCollectionID id offset limit) st
  = (Ok (select_requests id offset limit (requests st)),
     set_faults (tail (faults st)) st).
Proof.
  intros Hhead.
  unfold wrap, requestRepo_ListByCollectionID, wrap, db_Exec.
  destruct st as [cs rs cseq rseq now fs]. simpl in *.
  by destruct fs as [|[] fs].
Qed.

(** On a storage that answers the two queries and holds the collection, the
    export succeeds. *)
Lemma export_document_ok id st collection :
  no_fault_within 2 (faults st) →
  collection ∈ collections st → coll_ID collection = id →
  ∃ document st', ExportPostmanCollection_document id st = (Ok document, st').
Proof.
  intros Hquiet Hin Hid.
  assert (head (faults st) ≠ Some true ∧ head (tail (faults st)) ≠ Some true)
    as [Hfirst Hsecond].
  { unfold no_fault_within in Hquiet. destruct (faults st) as [|b1 [|b2 fs]]; simpl in *.
    - done.
    - by apply Forall_cons in Hquiet as [-> _].
    - by apply Forall_cons in Hquiet as [-> [-> _]%Forall_cons]. }
  destruct (GetCollection_ok id st collection Hfirst Hin Hid) as [c Hget].
  unfold ExportPostmanCollection_document. unfold bind at 1. rewrite Hget.
  rewrite export_cached_none. unfold export_rebuild, bind.
  rewrite ListByCollectionID_ok by done. unfold ret. eauto.
Qed.

(** *** The folder map *)

Lemma folderMap_of_snoc requests req :
  folderMap_of (requests ++ [req])
  = <[req_FolderPath req :=
        append (folderMap_of requests !!! req_FolderPath req) (export_item req)]>
      (folderMap_of requests).
Proof. unfold folderMap_of. by rewrite foldl_snoc. Qed.

Lemma folderMap_of_lookup requests path :
  folderMap_of requests !! path
  = if decide (group path requests = []) then None
    else Some (Some (export_item <$> group path requests)).
Proof.
  induction requests as [|req requests IH] using rev_ind; [done|].
  rewrite folderMap_of_snoc. unfold group in *. rewrite filter_app, filter_cons, filter_nil.
  destruct (decide (req_FolderPath req = path)) as [<-|Hne].
  - rewrite lookup_insert_eq. unfold lookup_total, map_lookup_total. rewrite IH.
    match goal with |- context [decide (?l ++ [req] = [])] =>
      destruct (decide (l ++ [req] = [])) as [Hnil|_];
        [by apply app_eq_nil in Hnil as [_ ?]|]
    end.
    rewrite fmap_app. unfold append. do 2 f_equal.
    case_decide as Hnil; [by rewrite Hnil | done].
  - rewrite lookup_insert_ne by done. rewrite IH, app_nil_r. done.
Qed.

Lemma folderMap_of_lookup_total requests path :
  elems (folderMap_of requests !!! path) = export_item <$> group path requests.
Proof.
  unfold lookup_total, map_lookup_total. rewrite folderMap_of_lookup.
  by case_decide as Hnil; [rewrite Hnil|].
Qed.

(** *** The root item list *)

Lemma export_items_foldl (entries : list (string * slice PostmanItem)) acc :
  elems (foldl (λ acc entry,
                  if decide (entry.1 = "") then acc
                  else append acc (folder_item entry.1 entry.2)) acc entries)
  = elems acc ++ folders_of entries.
Proof.
  unfold folders_of. revert acc.
  induction entries as [|[path items] entries IH]; intros acc.
  - simpl. by rewrite app_nil_r.
  - simpl. rewrite IH, filter_cons. simpl. destruct (decide (path = "")) as [->|Hpath].
    + by rewrite decide_False by (by intros H; apply H).
    + rewrite decide_True by done. simpl. by rewrite <- app_assoc.
Qed.

Lemma export_items_elems folderMap :
  elems (export_items folderMap) = elems (folderMap !!! "") ++ folders_of (range folderMap).
Proof. apply export_items_foldl. Qed.

Lemma export_items_empty : export_items ∅ = None.
Proof.
  unfold export_items.
  pose proof (range_Permutation _ (∅ : gmap string (slice PostmanItem))) as Hperm.
  rewrite map_to_list_empty in Hperm. apply Permutation_nil_r in Hperm.
  by rewrite Hperm.
Qed.

(** The shape of the root item list rebuilt from [requests]. *)
Lemma export_items_shape (requests : list Request) :
  ∃ folders,
    elems (export_items (folderMap_of requests))
    = (export_item <$> group "" requests) ++ folders
    ∧ NoDup (item_Name <$> folders)
    ∧ (∀ path, path ∈ item_Name <$> folders
               ↔ path ≠ "" ∧ path ∈ req_FolderPath <$> requests)
    ∧ Forall (λ folder,
                item_Request folder = None
                ∧ elems (item_Item folder) = export_item <$> group (item_Name folder) requests
                ∧ Forall (λ item, item_Item item = None) (elems (item_Item folder)))
        folders.
Proof.
  set (folderMap := folderMap_of requests).
  exists (folders_of (range folderMap)).
  pose proof (range_Permutation _ folderMap) as Hperm.
  assert (Hentry : ∀ path items,
            (path, items) ∈ range folderMap ↔ folderMap !! path = Some items).
  { intros path items. rewrite Hperm. apply elem_of_map_to_list. }
  split; [|split; [|split]].
  - rewrite export_items_elems. subst folderMap.
    by rewrite folderMap_of_lookup_total.
  - unfold folders_of. rewrite <- list_fmap_compose.
    change (item_Name ∘ _) with (λ entry : string * slice PostmanItem, entry.1).
    apply (sublist_NoDup _ ((range folderMap).*1)).
    + rewrite Hperm. apply NoDup_fst_map_to_list.
    + apply fmap_sublist, (sublist_filter (λ entry : string * slice PostmanItem, entry.1 ≠ "")).
  - intros path. unfold folders_of. rewrite <- list_fmap_compose.
    rewrite list_elem_of_fmap. split.
    + intros ([p items] & -> & [Hne Hin%Hentry]%list_elem_of_filter). simpl in *.
      split; [done|]. subst folderMap. rewrite folderMap_of_lookup in Hin.
      case_decide as Hgroup; [done|].
      destruct (group p requests) as [|r rs] eqn:Hg; [done|].
      assert (r ∈ group p requests) as [Hp Hr]%list_elem_of_filter
        by (rewrite Hg; left).
      apply list_elem_of_fmap. eauto.
    + intros [Hne (r & -> & Hr)%list_elem_of_fmap].
      assert (Hgroup : group (req_FolderPath r) requests ≠ []).
      { intros Hnil. eapply (not_elem_of_nil (A := Request)). rewrite <- Hnil.
        apply list_elem_of_filter. split; [done | exact Hr]. }
      eexists (_, _). split; [done|]. apply list_elem_of_filter. split; [done|].
      apply Hentry. subst folderMap. rewrite folderMap_of_lookup.
      by rewrite decide_False.
  - unfold folders_of. apply Forall_fmap, Forall_forall.
    intros [path items] [Hne Hin%Hentry]%list_elem_of_filter. simpl in *.
    subst folderMap. rewrite folderMap_of_lookup in Hin.
    case_decide; simplify_eq. simpl. split; [done|]. split; [done|].
    apply Forall_fmap, Forall_forall. done.
Qed.

End ExportLemmas.

Section ExportProperties.
Context {RT : Runtime}.

(** ** C10: the export always rebuilds *)

(** C10.  The cached-items path of the export never returns.  On import the
    [Items] of the collection record stay nil: the item slice is encoded as
    an array (or as [null] when it is nil), and an array does not decode
    into a [JSONMap]; scanned back from the database, whether the nil map
    was stored as NULL or as [null], they have no entries.  On export a
    non-empty [JSONMap] is encoded as an object, which does not decode into
    the item-array type, whatever the struct decoders of the runtime do.  So
    for every collection id and storage the exported document is the one
    rebuilt from the request records. *)
Theorem export_never_returns_cached_items :
  (∀ items : list PostmanItem,
      unmarshal_JSONMap (marshal_slice marshal_PostmanItem (Some items))
      = Err (json_UnmarshalTypeError "array"))
  ∧ (∀ document, coll_Items (new_Collection document) = None)
  ∧ (entries (JSONMap_Scan None) = ∅ ∧ entries (JSONMap_Scan (Some JNull)) = ∅)
  ∧ (∀ cached : gmap string JSON,
      json_Marshal marshal_JSONMap (Some cached) = Ok (JObj cached)
      ∧ unmarshal_slice decode_PostmanItem (JObj cached)
        = (None, Some (json_UnmarshalTypeError "object")))
  ∧ (∀ collection postmanCollection, export_cached collection postmanCollection = None)
  ∧ (∀ id st,
      ExportPostmanCollection_document id st
      = (collection <- wrap "failed to get collection" (GetCollection id) ;;
         export_rebuild id collection (export_header collection)) st).
Proof.
  split; [done|]. split; [apply new_Collection_items|]. split; [done|].
  split; [done|]. split; [apply export_cached_none|].
  intros id st. unfold ExportPostmanCollection_document.
  apply bind_ext; [done|]. intros collection s. by rewrite export_cached_none.
Qed.

(** ** C8: one folder per distinct folder path *)

Lemma select_requests_all id rows :
  (length (filter (λ r, req_CollectionID r = id) rows) ≤ 1000)%nat →
  select_requests id 0 1000 rows ≡ₚ filter (λ r, req_CollectionID r = id) rows.
Proof.
  intros Hlen. unfold select_requests.
  change (Z.to_nat 0) with 0%nat. rewrite drop_0.
  rewrite take_ge; [apply merge_sort_Permutation|].
  rewrite (Permutation_length (merge_sort_Permutation created_at_desc _)). lia.
Qed.

Lemma export_item_leaf_for (r : Request) : leaf_for r (export_item r).
Proof.
  unfold leaf_for. simpl. split_and!; try done.
  eexists. split; [done|]. split; [done|]. simpl. by destruct (req_URL r).
Qed.

Lemma export_items_leaves_for (path : string) (page records : list Request) :
  page ≡ₚ records →
  leaves_for (group path records) (export_item <$> group path page).
Proof.
  intros Hperm. exists (group path page). split.
  - unfold group. by rewrite Hperm.
  - apply Forall2_fmap_r, Forall_Forall2_diag, Forall_forall.
    intros r _. apply export_item_leaf_for.
Qed.

(** C8.  For a collection of at most 1000 request records, the root item
    list of the exported document is a list of leaves followed by the
    folder items.  The leaves are one for each record whose folder path is
    empty.  The folder items have distinct names; the names are exactly the
    non-empty folder paths that occur among the records of the collection,
    each taken as a whole (a path [A/B] names one folder [A/B]); a folder
    item has no request of its own, and its nested items are leaves, one for
    each record of its path: an item without nested items that carries a
    request and shows the name, description, Postman id, method and raw URL
    of its record. *)
Theorem export_one_folder_per_path (id : Z) (st st' : Storage) (document : PostmanCollection) :
  (length (records_of id st) ≤ 1000)%nat →
  ExportPostmanCollection_document id st = (Ok document, st') →
  ∃ top folders,
    elems (pc_Item document) = top ++ folders
    ∧ leaves_for (group "" (records_of id st)) top
    ∧ NoDup (item_Name <$> folders)
    ∧ (∀ path, path ∈ item_Name <$> folders
               ↔ path ≠ "" ∧ path ∈ req_FolderPath <$> records_of id st)
    ∧ Forall (λ folder,
                item_Request folder = None
                ∧ leaves_for (group (item_Name folder) (records_of id st))
                    (elems (item_Item folder)))
        folders.
Proof.
  intros Hlen Hrun.
  apply export_document_run in Hrun as (collection & _ & _ & ->).
  pose proof (select_requests_all id (requests st) Hlen) as Hpage.
  destruct (export_items_shape (select_requests id 0 1000 (requests st)))
    as (folders & Hitems & Hnodup & Hnames & Hfolders).
  exists (export_item <$> group "" (select_requests id 0 1000 (requests st))), folders.
  split; [exact Hitems|]. split; [by apply export_items_leaves_for|].
  split; [exact Hnodup|]. split.
  - intros path. rewrite Hnames. unfold records_of. by rewrite Hpage.
  - eapply Forall_impl; [exact Hfolders|]. simpl.
    intros folder (Hrequest & -> & _). split; [done|].
    by apply export_items_leaves_for.
Qed.

(** ** C9: a collection without requests *)

Lemma marshal_PostmanCollection_fields c :
  ∃ o, marshal_PostmanCollection c = JObj o
       ∧ o !! "item" = Some (marshal_slice marshal_PostmanItem (pc_Item c))
       ∧ (pc_Schema c ≠ "" → o !! "schema" = Some (JStr (pc_Schema c))).
Proof.
  eexists. split; [reflexivity|]. split.
  - simpl. by rewrite lookup_insert_ne, lookup_insert_eq.
  - intros Hschema. simpl. unfold omitempty_slice, omitempty_raw, omitempty_string.
    rewrite decide_False by done.
    destruct (pc_Variable c) as [[|]|], (pc_Auth c), (pc_Event c) as [[|]|]; done.
Qed.

Lemma select_requests_none id offset limit rows :
  Forall (λ r, req_CollectionID r ≠ id) rows →
  select_requests id offset limit rows = [].
Proof.
  intros Hnone. unfold select_requests.
  replace (filter (λ r, req_CollectionID r = id) rows) with (@nil Request).
  - change (merge_sort created_at_desc []) with (@nil Request).
    by rewrite drop_nil, take_nil.
  - symmetry. induction Hnone as [|r rows Hr _ IH]; [done|].
    by rewrite filter_cons, decide_False.
Qed.

(** C9, as the code has it.  Exporting a collection that has no request
    record yields a document whose [schema] member is the fixed schema URI,
    whatever schema the collection stores, and whose [item] member is
    [null], not the empty array: the root item list is the nil slice read
    from an empty folder map. *)
Theorem export_without_requests (id : Z) (st st' : Storage) (json : JSON) :
  Forall (λ r, req_CollectionID r ≠ id) (requests st) →
  ExportPostmanCollection id st = (Ok json, st') →
  ∃ o, json = JObj o
       ∧ o !! "item" = Some JNull
       ∧ o !! "item" ≠ Some (JArr [])
       ∧ o !! "schema"
         = Some (JStr "https://schema.getpostman.com/json/collection/v2.1.0/collection.json").
Proof.
  intros Hnone. unfold ExportPostmanCollection, bind.
  destruct (ExportPostmanCollection_document id st) as [[document|e] st1] eqn:Hrun; [|done].
  apply export_document_run in Hrun as (collection & _ & _ & ->).
  rewrite select_requests_none by done.
  change (folderMap_of []) with (∅ : gmap string (slice PostmanItem)).
  rewrite export_items_empty. unfold lift, json_Marshal. intros ?; simplify_eq.
  destruct (marshal_PostmanCollection_fields
              (export_metadata collection (export_header collection) None))
    as (o & -> & Hitem & Hschema).
  exists o. split; [done|]. split; [done|]. split; [by rewrite Hitem|].
  by apply Hschema.
Qed.

End ExportProperties.

(** ** C2: import, then export *)

Lemma fault_schedule_cases (n : nat) (fs : list bool) :
  no_fault_within n fs
  ∨ ∃ k rest, fs = replicate k false ++ true :: rest ∧ (k < n)%nat.
Proof.
  unfold no_fault_within. revert fs. induction n as [|n IH]; intros fs.
  - left. constructor.
  - destruct fs as [|[] fs].
    + left. constructor.
    + right. exists 0%nat, fs. split; [done | lia].
    + destruct (IH fs) as [Hquiet | (k & rest & -> & Hk)].
      * left. by constructor.
      * right. exists (S k), rest. split; [done | lia].
Qed.

Lemma walk_returns_ok items collectionID parentPath st st' :
  processPostmanItems items collectionID parentPath st = (Ok tt, st') →
  ∃ rows,
    requests st' = requests st ++ rows
    ∧ collections st' = collections st
    ∧ Forall2 stored_as (record_of collectionID parentPath <$> request_leaves items) rows.
Proof.
  intros Hrun.
  destruct (fault_schedule_cases (length (request_leaves items)) (faults st))
    as [Hquiet | (k & rest & Hfs & Hk)].
  - destruct (walk_ok items collectionID parentPath st Hquiet)
      as (st'' & rows & Hrun' & Hcs & Hrows & Hstored & _).
    rewrite Hrun in Hrun'. simplify_eq. eauto.
  - destruct (walk_fault items collectionID parentPath st k rest Hfs Hk)
      as (st'' & rows & Hrun' & _).
    rewrite Hrun in Hrun'. done.
Qed.

Lemma url_raw_canonical url : url_raw (JObj (canonical_url url)) = url_raw url.
Proof.
  destruct url as [| | |s| |o]; try done. simpl.
  case_decide as Hs; [by subst s|]. by rewrite lookup_singleton_eq.
Qed.

Lemma stored_row_triple collectionID parentPath l row :
  stored_as (record_of collectionID parentPath l) row → row_triple row = triple_of l.
Proof.
  intros (id & created & updated & ->). unfold row_triple, triple_of.
  change (req_URL (Request_with_ID _ id))
    with (urlMap_of (preq_URL (leaf_request l))).
  rewrite urlMap_of_canonical.
  change (marshal_JSONMap (Some ?m)) with (JObj m).
  by rewrite url_raw_canonical.
Qed.

Lemma stored_rows_triples collectionID parentPath leaves rows :
  Forall2 stored_as (record_of collectionID parentPath <$> leaves) rows →
  row_triple <$> rows = triple_of <$> leaves.
Proof.
  rewrite Forall2_fmap_l. induction 1 as [|l row leaves rows Hl _ IH]; [done|].
  rewrite !fmap_cons, IH. f_equal. by eapply stored_row_triple.
Qed.

Lemma stored_rows_collection collectionID parentPath leaves rows :
  Forall2 stored_as (record_of collectionID parentPath <$> leaves) rows →
  Forall (λ row, req_CollectionID row = collectionID) rows.
Proof.
  rewrite Forall2_fmap_l. induction 1 as [|l row leaves rows Hl _ IH]; constructor; [|done].
  by destruct Hl as (id & created & updated & ->).
Qed.

Lemma select_requests_fresh id rows old :
  Forall (λ r, req_CollectionID r ≠ id) old →
  Forall (λ r, req_CollectionID r = id) rows →
  (length rows ≤ 1000)%nat →
  select_requests id 0 1000 (old ++ rows) ≡ₚ rows.
Proof.
  intros Hold Hrows Hlen. unfold select_requests.
  rewrite filter_app.
  replace (filter (λ r, req_CollectionID r = id) old) with (@nil Request).
  2:{ symmetry. induction Hold as [|r old Hr _ IH]; [done|].
      by rewrite filter_cons, decide_False. }
  replace (filter (λ r, req_CollectionID r = id) rows) with rows.
  2:{ clear Hlen. symmetry. induction Hrows as [|r rows Hr _ IH]; [done|].
      by rewrite filter_cons, decide_True, IH. }
  rewrite app_nil_l. change (Z.to_nat 0) with 0%nat. rewrite drop_0.
  rewrite take_ge; [apply merge_sort_Permutation|].
  rewrite (Permutation_length (merge_sort_Permutation created_at_desc rows)). lia.
Qed.

Section RoundTrip.
Context {RT : Runtime}.

Lemma export_item_triples (r : Request) :
  triple_of <$> leaves_of (export_item r) = [row_triple r].
Proof.
  unfold row_triple, triple_of. simpl. do 3 f_equal.
  by destruct (req_URL r).
Qed.

Lemma folder_item_triples name d (rs : list Request) response event variable auth id :
  triple_of <$>
    leaves_of (mkPostmanItem name d (Some (export_item <$> rs)) None
                 response event variable auth id)
  = row_triple <$> rs.
Proof.
  destruct rs as [|r rs]; [done|].
  change (leaves_of (mkPostmanItem name d (Some (export_item <$> r :: rs)) None
                       response event variable auth id))
    with (under name <$> concat (leaves_of <$> (export_item <$> r :: rs))).
  rewrite <- list_fmap_compose.
  change (triple_of ∘ under name) with triple_of.
  generalize (r :: rs). intros l. induction l as [|x l IH]; [done|].
  rewrite !fmap_cons, concat_cons, fmap_app, IH.
  by rewrite export_item_triples.
Qed.

(** The triples of the rebuilt item list are those of the rows it was
    rebuilt from. *)
Lemma export_items_triples (requests : list Request) t :
  t ∈ document_triples (export_items (folderMap_of requests))
  ↔ t ∈ row_triple <$> requests.
Proof.
  unfold document_triples, request_leaves.
  destruct (export_items_shape requests) as (folders & -> & _ & Hnames & Hfolders).
  rewrite fmap_app, concat_app, fmap_app, elem_of_app.
  assert (Htop : ∀ rs, triple_of <$> concat (leaves_of <$> (export_item <$> rs))
                       = row_triple <$> rs).
  { intros rs. induction rs as [|x rs IH]; [done|].
    rewrite !fmap_cons, concat_cons, fmap_app, IH. by rewrite export_item_triples. }
  rewrite Htop. split.
  - intros [Hin | Hin].
    + apply list_elem_of_fmap in Hin as (r & -> & [_ Hr]%list_elem_of_filter).
      apply list_elem_of_fmap. eauto.
    + apply list_elem_of_fmap in Hin as (l & -> & Hl).
      apply elem_of_concat in Hl as (ls & Hl & Hls).
      apply list_elem_of_fmap in Hls as (folder & -> & Hfolder).
      rewrite Forall_forall in Hfolders.
      destruct (Hfolders folder Hfolder) as (Hreq & Hitems & _).
      assert (Hin : triple_of l ∈ triple_of <$> leaves_of folder)
        by (apply list_elem_of_fmap; eauto).
      destruct folder as [name d sub request response event variable auth id].
      simpl in Hreq, Hitems. subst request.
      destruct sub as [items|]; [|by apply not_elem_of_nil in Hin].
      simpl in Hitems. subst items.
      rewrite folder_item_triples in Hin.
      apply list_elem_of_fmap in Hin as (r & -> & [_ Hr]%list_elem_of_filter).
      apply list_elem_of_fmap. eauto.
  - intros (r & -> & Hr)%list_elem_of_fmap.
    destruct (decide (req_FolderPath r = "")) as [Hpath | Hpath].
    + left. apply list_elem_of_fmap. exists r. split; [done|].
      by apply list_elem_of_filter.
    + right.
      assert (Hname : req_FolderPath r ∈ item_Name <$> folders).
      { apply Hnames. split; [done|]. apply list_elem_of_fmap. eauto. }
      apply list_elem_of_fmap in Hname as (folder & Hname & Hfolder).
      rewrite Forall_forall in Hfolders.
      destruct (Hfolders folder Hfolder) as (Hreq & Hitems & _).
      assert (Hin : row_triple r ∈ triple_of <$> leaves_of folder).
      { destruct folder as [name d sub request response event variable auth id].
        simpl in Hreq, Hitems, Hname. subst request name.
        assert (Hr' : r ∈ group (req_FolderPath r) requests)
          by by apply list_elem_of_filter.
        destruct sub as [items|]; simpl in Hitems.
        - subst items.
          rewrite folder_item_triples. apply list_elem_of_fmap. eauto.
        - symmetry in Hitems. apply fmap_nil_inv in Hitems.
          rewrite Hitems in Hr'. by apply not_elem_of_nil in Hr'. }
      apply list_elem_of_fmap in Hin as (l & Hl & Hin).
      apply list_elem_of_fmap. exists l. split; [done|].
      apply elem_of_concat. exists (leaves_of folder). split; [done|].
      apply list_elem_of_fmap. eauto.
Qed.

End RoundTrip.

Section RoundTripTheorem.
Context {RT : Runtime}.

Lemma create_collection_fault c st fs :
  faults st = true :: fs →
  ∃ e st', wrap "failed to create collection" (collectionRepo_Create c) st = (Err e, st').
Proof.
  intros Hfs. destruct st as [cs rs cseq rseq now fs']. simpl in Hfs. subst fs'.
  by eexists _, _.
Qed.

Lemma import_returns_ok data document st id st' :
  json_Unmarshal_PostmanCollection data = Ok document →
  ImportPostmanCollection data st = (Ok id, st') →
  id = collections_id_seq st + 1
  ∧ ∃ rows,
      requests st' = requests st ++ rows
      ∧ Forall2 stored_as (record_of id "" <$> request_leaves (pc_Item document)) rows.
Proof.
  intros Hparse. unfold ImportPostmanCollection.
  unfold bind at 1, wrap at 1, lift. rewrite Hparse.
  case_decide as Hname; [done|].
  destruct (faults st) as [|[] fs] eqn:Hfs.
  2:{ destruct (create_collection_fault (new_Collection document) st fs Hfs)
        as (e & s & Hcreate).
      unfold bind. by rewrite Hcreate. }
  all: unfold bind at 1; rewrite create_collection_ok by (by rewrite Hfs);
    unfold bind;
    match goal with |- context [processPostmanItems ?a ?b ?c ?d] =>
      destruct (processPostmanItems a b c d) as [[[]|e] s] eqn:Hwalk; [|done]
    end;
    apply walk_returns_ok in Hwalk as (rows & Hrows & _ & Hstored);
    unfold ret; intros ?; simplify_eq; simpl in *; eauto.
Qed.

(** Import then export keeps the triples, for any document with at most
    1000 request leaves. *)
Lemma round_trip_triples data document st id st1 out st2 :
  json_Unmarshal_PostmanCollection data = Ok document →
  referential st →
  ImportPostmanCollection data st = (Ok id, st1) →
  ExportPostmanCollection_document id st1 = (Ok out, st2) →
  (length (request_leaves (pc_Item document)) ≤ 1000)%nat →
  ∀ t, t ∈ document_triples (pc_Item out) ↔ t ∈ document_triples (pc_Item document).
Proof.
  intros Hparse Href Himport Hexport Hsize t.
  destruct (import_returns_ok _ _ _ _ _ Hparse Himport) as (Hid & rows & Hrows & Hstored).
  apply export_document_run in Hexport as (collection & _ & _ & ->).
  change (pc_Item (export_metadata _ _ ?items)) with items.
  rewrite export_items_triples, Hrows.
  assert (Hperm : select_requests id 0 1000 (requests st ++ rows) ≡ₚ rows).
  { apply select_requests_fresh.
    - eapply Forall_impl; [exact Href|]. simpl. intros r Hr. lia.
    - by eapply stored_rows_collection.
    - apply Forall2_length in Hstored. rewrite length_fmap in Hstored. lia. }
  rewrite Hperm, (stored_rows_triples _ _ _ _ Hstored). done.
Qed.

Lemma no_fault_within_split (n m : nat) (fs : list bool) :
  no_fault_within (n + m) fs →
  no_fault_within n fs ∧ no_fault_within m (drop n fs).
Proof.
  unfold no_fault_within. rewrite <- take_take_drop, Forall_app. done.
Qed.

Lemma import_ok data document st :
  json_Unmarshal_PostmanCollection data = Ok document →
  info_Name (pc_Info document) ≠ "" →
  no_fault_within (1 + length (request_leaves (pc_Item document))) (faults st) →
  ∃ st1 collection,
    ImportPostmanCollection data st = (Ok (coll_ID collection), st1)
    ∧ collection ∈ collections st1
    ∧ faults st1 = drop (1 + length (request_leaves (pc_Item document))) (faults st).
Proof.
  intros Hparse Hname [Hfirst Hrest]%no_fault_within_split.
  rewrite (import_parsed data document st Hparse Hname).
  assert (Hhead : head (faults st) ≠ Some true).
  { unfold no_fault_within in Hfirst. destruct (faults st) as [|b fs]; [done|].
    by apply Forall_cons in Hfirst as [-> _]. }
  unfold bind at 1. rewrite create_collection_ok by done.
  match goal with |- context [processPostmanItems _ (coll_ID ?c) _] =>
    set (collection := c) end.
  match goal with |- context [bind _ _ ?s] => set (s1 := s) end.
  destruct (walk_ok (pc_Item document) (coll_ID collection) "" s1)
    as (st1 & rows & Hrun & Hcs & _ & _ & _ & Hfs).
  { subst s1. simpl. destruct (faults st); [|done]. by rewrite drop_nil in Hrest. }
  exists st1, collection. unfold bind. rewrite Hrun. unfold ret. split; [done|].
  split.
  - rewrite Hcs. subst s1. simpl. apply elem_of_app. right. left.
  - rewrite Hfs. subst s1. simpl. destruct (faults st); simpl; [|done].
    by rewrite drop_nil.
Qed.

(** C2, as amended.  Take a document of the fixture shape that has at most
    1000 requests in all and a non-empty name, a storage whose request rows
    refer only to collection keys already handed out, and no fault among the
    statements of the import and the two queries of the export.  Then the
    import returns the new collection id, the export of that id returns a
    document, and that document has the same set of (name, method, raw URL)
    triples as the original. *)
Theorem round_trip_keeps_triples
    (data : list Byte.byte) (document : PostmanCollection) (st : Storage) :
  json_Unmarshal_PostmanCollection data = Ok document →
  fixture_shape document →
  info_Name (pc_Info document) ≠ "" →
  (length (request_leaves (pc_Item document)) ≤ 1000)%nat →
  referential st →
  no_fault_within (1 + length (request_leaves (pc_Item document)) + 2) (faults st) →
  ∃ id st1 out st2,
    ImportPostmanCollection data st = (Ok id, st1)
    ∧ ExportPostmanCollection_document id st1 = (Ok out, st2)
    ∧ ∀ t, t ∈ document_triples (pc_Item out) ↔ t ∈ document_triples (pc_Item document).
Proof.
  intros Hparse _ Hname Hsize Href [Himp Hexp]%no_fault_within_split.
  destruct (import_ok data document st Hparse Hname Himp)
    as (st1 & collection & Himport & Hin & Hfs).
  destruct (export_document_ok (coll_ID collection) st1 collection)
    as (out & st2 & Hexport); [by rewrite Hfs | done | done |].
  exists (coll_ID collection), st1, out, st2. split; [done|]. split; [done|].
  by eapply round_trip_triples.
Qed.

End RoundTripTheorem.

(** ** Closed instances *)

Lemma round_trip_keeps_triples_witness :
  ∃ id st1 out st2,
    ImportPostmanCollection (RT := sample_runtime sample_text sample_document)
      sample_text empty_storage = (Ok id, st1)
    ∧ ExportPostmanCollection_document (RT := sample_runtime sample_text sample_document)
        id st1 = (Ok out, st2)
    ∧ ∀ t, t ∈ document_triples (pc_Item out)
           ↔ t ∈ document_triples (pc_Item sample_document).
Proof.
  apply (round_trip_keeps_triples (RT := sample_runtime sample_text sample_document)
           sample_text sample_document empty_storage).
  - vm_compute. reflexivity.
  - split; vm_compute; reflexivity.
  - vm_compute. discriminate.
  - vm_compute. lia.
  - constructor.
  - vm_compute. constructor.
Defined.

(** The sample document comes back as the root request followed by one
    folder named by the whole path. *)
Example sample_exported_names :
  sample_imported.1 = Ok 1
  ∧ item_Name <$> elems (pc_Item (document_or sample_exported.1 sample_document))
    = ["Ping"; "Auth/Login"]
  ∧ (λ item, item_Name <$> elems (item_Item item))
      <$> elems (pc_Item (document_or sample_exported.1 sample_document))
    = [[]; ["Sign out"; "Sign in"]].
Proof. vm_compute. done. Qed.

Lemma export_one_folder_per_path_witness :
  ∃ top folders,
    elems (pc_Item (document_or sample_exported.1 sample_document)) = top ++ folders
    ∧ leaves_for (group "" (records_of 1 sample_imported.2)) top
    ∧ NoDup (item_Name <$> folders)
    ∧ (∀ path, path ∈ item_Name <$> folders
               ↔ path ≠ "" ∧ path ∈ req_FolderPath <$> records_of 1 sample_imported.2)
    ∧ Forall (λ folder,
                item_Request folder = None
                ∧ leaves_for (group (item_Name folder) (records_of 1 sample_imported.2))
                    (elems (item_Item folder)))
        folders.
Proof.
  apply (export_one_folder_per_path (RT := sample_runtime sample_text sample_document)
           1 sample_imported.2 sample_exported.2
           (document_or sample_exported.1 sample_document)).
  - vm_compute. lia.
  - vm_compute. reflexivity.
Defined.

Lemma export_without_requests_witness :
  ∃ o, document_or exported_without_requests.1 JNull = JObj o
       ∧ o !! "item" = Some JNull
       ∧ o !! "item" ≠ Some (JArr [])
       ∧ o !! "schema"
         = Some (JStr "https://schema.getpostman.com/json/collection/v2.1.0/collection.json").
Proof.
  apply (export_without_requests (RT := sample_runtime sample_text sample_document)
           1 storage_without_requests exported_without_requests.2
           (document_or exported_without_requests.1 JNull)).
  - constructor.
  - vm_compute. reflexivity.
Defined.

(** The document exported from [storage_without_requests], in full. *)
Example export_without_requests_document :
  exported_without_requests.1
  = Ok (object
          [("info", object [("name", JStr "Empty"); ("schema", JStr "urn:example:schema")]);
           ("item", JNull);
           ("schema", JStr exchange_schema)]).
Proof. vm_compute. reflexivity. Qed.

(** C2, as stated, fails on a document of the fixture shape with more than
    1000 requests: the import stores 1003 rows, the export loads the 1000
    most recent ones, and the request at the root, stored first, is missing
    from the exported document. *)
Lemma round_trip_counterexample :
  fixture_shape big_document
  ∧ big_imported.1 = Ok 1
  ∧ length (requests big_imported.2) = 1003%nat
  ∧ ∃ out,
      big_exported.1 = Ok out
      ∧ length (request_leaves (pc_Item out)) = 1000%nat
      ∧ ¬ (∀ t, t ∈ document_triples (pc_Item out)
                ↔ t ∈ document_triples (pc_Item big_document)).
Proof.
  split; [split; vm_compute; reflexivity|].
  split; [vm_compute; reflexivity|].
  split; [vm_compute; reflexivity|].
  assert (Hok : is_ok big_exported.1 = true) by (vm_compute; reflexivity).
  assert (Hlen : length (request_leaves
                           (pc_Item (document_or big_exported.1 big_document)))
                 = 1000%nat) by (vm_compute; reflexivity).
  assert (Hin : ("top", "GET", "https://example.com/top")
                ∈ document_triples (pc_Item big_document)).
  { apply (bool_decide_unpack _). vm_compute. exact I. }
  assert (Hout : ("top", "GET", "https://example.com/top")
                 ∉ document_triples
                     (pc_Item (document_or big_exported.1 big_document))).
  { apply (bool_decide_unpack _). vm_compute. exact I. }
  destruct big_exported.1 as [out|e]; [|discriminate Hok].
  exists out. split; [done|]. split; [exact Hlen|].
  intros Hsame. apply Hout, Hsame, Hin.
Qed.

(** C8, as stated, fails for a collection of more than 1000 requests.  Of
    the 1003 rows of the imported [big_document] the export loads the 1000
    most recent ones.  The two requests below folder [folder0], stored
    second and third, are not among them: [folder0] is a folder path of the
    requests of the collection, and no item of the exported root list has
    that name. *)
Lemma export_one_folder_per_path_counterexample :
  big_imported.1 = Ok 1
  ∧ length (records_of 1 big_imported.2) = 1003%nat
  ∧ "folder0" ∈ req_FolderPath <$> records_of 1 big_imported.2
  ∧ ∃ out,
      big_exported.1 = Ok out
      ∧ "folder0" ∉ item_Name <$> elems (pc_Item out).
Proof.
  split; [vm_compute; reflexivity|].
  split; [vm_compute; reflexivity|].
  split; [apply (bool_decide_unpack _); vm_compute; exact I|].
  assert (Hok : is_ok big_exported.1 = true) by (vm_compute; reflexivity).
  assert (Hout : "folder0"
                 ∉ item_Name <$> elems (pc_Item (document_or big_exported.1 big_document))).
  { apply (bool_decide_unpack _). vm_compute. exact I. }
  destruct big_exported.1 as [out|e]; [|discriminate Hok].
  exists out. split; [done|]. exact Hout.
Qed.

(** * Further properties *)

(** ** Statements and the fault schedule *)

Lemma db_Exec_ok {A} (stmt : Storage → result A * Storage) st :
  head (faults st) ≠ Some true →
  db_Exec stmt st = stmt (set_faults (tail (faults st)) st).
Proof.
  intros Hhead. destruct st as [cs rs cseq rseq now fs].
  destruct fs as [|[] fs]; simpl in *; [done|congruence|done].
Qed.

Lemma same_tables_trans st1 st2 st3 :
  same_tables st1 st2 → same_tables st2 st3 → same_tables st1 st3.
Proof. unfold same_tables. intros (? & ? & ? & ?) (? & ? & ? & ?). repeat split; congruence. Qed.

Lemma reads_only_bind {A B} (m : M A) (k : A → M B) :
  reads_only m → (∀ a, reads_only (k a)) → reads_only (bind m k).
Proof.
  intros Hm Hk st. unfold bind. specialize (Hm st).
  destruct (m st) as [[a|e] st1]; simpl in *; [|done].
  eapply same_tables_trans; [done|apply Hk].
Qed.

Lemma reads_only_wrap {A} context (m : M A) : reads_only m → reads_only (wrap context m).
Proof. intros Hm st. unfold wrap. specialize (Hm st). by destruct (m st) as [[a|e] st1]. Qed.

Lemma reads_only_ret {A} (a : A) : reads_only (ret a).
Proof. done. Qed.

Lemma reads_only_lift {A} (r : result A) : reads_only (lift r).
Proof. done. Qed.

Lemma reads_only_query {A} (q : Storage → result A) :
  reads_only (db_Exec (λ st, (q st, st))).
Proof.
  intros st. destruct st as [cs rs cseq rseq now fs]. by destruct fs as [|[] fs].
Qed.

Lemma reads_only_GetByID id : reads_only (collectionRepo_GetByID id).
Proof.
  apply reads_only_wrap. intros st. destruct st as [cs rs cseq rseq now fs].
  unfold db_Exec, select_collection. destruct fs as [|[] fs]; simpl; [|done|];
    by destruct (list_find _ cs) as [[i c]|].
Qed.


(** ** The import, whatever the storage answers *)

Lemma create_all_run rs : ∀ st, ∃ n,
  (n ≤ length rs)%nat
  ∧ ((for_each create_request rs st).1 = Ok tt ∧ n = length rs
     ∨ (for_each create_request rs st).1 = Err create_request_error ∧ (n < length rs)%nat)
  ∧ collections (for_each create_request rs st).2 = collections st
  ∧ requests (for_each create_request rs st).2
    = requests st ++ stored_rows (requests_id_seq st) (clock st) (take n rs)
  ∧ collections_id_seq (for_each create_request rs st).2 = collections_id_seq st
  ∧ requests_id_seq (for_each create_request rs st).2 = requests_id_seq st + Z.of_nat n.
Proof.
  induction rs as [|r rs IH]; intros st.
  - exists 0%nat. simpl. rewrite app_nil_r, Z.add_0_r. eauto 10.
  - change (for_each create_request (r :: rs)) with
      (create_request r ;; for_each create_request rs).
    destruct (faults st) as [|[] fs] eqn:Hfs.
    2:{ exists 0%nat. unfold bind. rewrite (create_request_fault r st fs Hfs). simpl.
        rewrite app_nil_r, Z.add_0_r. split; [lia|]. split; [right; split; [done|lia]|done]. }
    all: assert (Hhead : head (faults st) ≠ Some true) by (by rewrite Hfs);
      pose proof (create_request_ok r st Hhead) as Hstep;
      match type of Hstep with _ = (_, ?s) =>
        destruct (IH s) as (n & Hn & Hres & Hcs & Hrs & Hcseq & Hrseq) end;
      exists (S n); unfold bind at 1 2 3 4 5 6; rewrite Hstep;
      simpl in Hcs, Hrs, Hcseq, Hrseq |- *;
      (split; [lia|]);
      (split; [destruct Hres as [[? ?]|[? ?]]; [left|right]; (split; [done|lia])|]);
      (split; [done|]);
      (split; [rewrite Hrs, <- app_assoc; simpl;
               by replace (clock st + 1 + 1) with (clock st + 2) by lia|]);
      (split; [done|lia]).
Qed.

Lemma walk_run items collectionID parentPath st :
  let out := processPostmanItems items collectionID parentPath st in
  ∃ n,
    (n ≤ length (request_leaves items))%nat
    ∧ (out.1 = Ok tt ∧ n = length (request_leaves items)
       ∨ out.1 = Err create_request_error ∧ (n < length (request_leaves items))%nat)
    ∧ collections out.2 = collections st
    ∧ requests out.2
      = requests st
        ++ stored_rows (requests_id_seq st) (clock st)
             (record_of collectionID parentPath <$> take n (request_leaves items))
    ∧ collections_id_seq out.2 = collections_id_seq st
    ∧ requests_id_seq out.2 = requests_id_seq st + Z.of_nat n.
Proof.
  intros out. subst out. rewrite processPostmanItems_flat.
  destruct (create_all_run (record_of collectionID parentPath <$> request_leaves items) st)
    as (n & Hn & Hres & Hrest).
  rewrite length_fmap in Hn, Hres. rewrite <- fmap_take in Hrest. eauto.
Qed.

Section MoreImport.
Context {RT : Runtime}.

(** The collection row an import stores on a storage in state [st]. *)
Lemma create_collection_run c st :
  let out := wrap "failed to create collection" (collectionRepo_Create c) st in
  (is_ok out.1 = false ∧ same_tables st out.2)
  ∨ (let row := Collection_with_ID (Collection_stamp c (clock st) (clock st + 1))
                  (collections_id_seq st + 1) in
     out.1 = Ok row
     ∧ collections out.2 = collections st ++ [row]
     ∧ requests out.2 = requests st
     ∧ collections_id_seq out.2 = collections_id_seq st + 1
     ∧ requests_id_seq out.2 = requests_id_seq st
     ∧ clock out.2 = clock st + 2).
Proof.
  destruct st as [cs rs cseq rseq now fs]. destruct fs as [|[] fs]; simpl.
  - right. repeat split; try done. simpl. lia.
  - by left.
  - right. repeat split; try done. simpl. lia.
Qed.

Lemma import_run data st :
  let out := ImportPostmanCollection data st in
  (is_ok out.1 = false ∧ same_tables st out.2)
  ∨ ∃ document n,
      json_Unmarshal_PostmanCollection data = Ok document
      ∧ info_Name (pc_Info document) ≠ ""
      ∧ (n ≤ length (request_leaves (pc_Item document)))%nat
      ∧ (out.1 = Ok (collections_id_seq st + 1)
           ∧ n = length (request_leaves (pc_Item document))
         ∨ out.1 = Err create_request_error
           ∧ (n < length (request_leaves (pc_Item document)))%nat)
      ∧ collections out.2
        = collections st
          ++ [Collection_with_ID
                (Collection_stamp (new_Collection document) (clock st) (clock st + 1))
                (collections_id_seq st + 1)]
      ∧ requests out.2
        = requests st
          ++ stored_rows (requests_id_seq st) (clock st + 2)
               (record_of (collections_id_seq st + 1) ""
                  <$> take n (request_leaves (pc_Item document)))
      ∧ collections_id_seq out.2 = collections_id_seq st + 1
      ∧ requests_id_seq out.2 = requests_id_seq st + Z.of_nat n.
Proof.
  intros out. subst out.
  destruct (json_Unmarshal_PostmanCollection data) as [document|e] eqn:Hparse.
  2:{ left. unfold ImportPostmanCollection, bind, wrap, lift. by rewrite Hparse. }
  destruct (decide (info_Name (pc_Info document) = "")) as [Hname|Hname].
  { left. unfold ImportPostmanCollection, bind, wrap, lift. rewrite Hparse.
    by rewrite decide_True. }
  rewrite (import_parsed data document st Hparse Hname).
  unfold bind.
  destruct (create_collection_run (new_Collection document) st)
    as [[Hfail Hsame]|(Hok & Hcs & Hrs & Hcseq & Hrseq & Hclock)].
  { left.
    destruct (wrap "failed to create collection" _ st) as [[c|e] st1]; [done|]. done. }
  destruct (wrap "failed to create collection" _ st) as [[c|e] st1]; [|done].
  simpl in Hok, Hcs, Hrs, Hcseq, Hrseq, Hclock. simplify_eq. simpl coll_ID.
  right. exists document.
  destruct (walk_run (pc_Item document) (collections_id_seq st + 1) "" st1)
    as (n & Hn & Hres & Hwcs & Hwrs & Hwcseq & Hwrseq).
  exists n.
  destruct (processPostmanItems _ _ _ st1) as [[[]|e] st2]; simpl in *.
  - split; [done|]. split; [done|]. split; [done|].
    split; [destruct Hres as [[? ?]|[? ?]]; [by left|done]|].
    repeat split; congruence.
  - split; [done|]. split; [done|]. split; [done|].
    split; [destruct Hres as [[? ?]|[? ?]]; [done|right; split; [congruence|done]]|].
    repeat split; congruence.
Qed.

End MoreImport.

(** ** What the import does not keep *)

Lemma marshal_into_JSONMap_slice {A} (enc : A → JSON) (s : slice A) :
  marshal_into_JSONMap (marshal_slice enc) s = None.
Proof. by destruct s. Qed.

Lemma new_Request_columns item request collectionID parentPath :
  let r := new_Request item request collectionID parentPath in
  req_Events r = None ∧ req_Responses r = None ∧ req_Params r = None
  ∧ is_Some (req_URL r).
Proof.
  simpl. rewrite !marshal_into_JSONMap_slice, urlMap_of_canonical.
  repeat split; try (by case_decide); eauto.
Qed.

Lemma stored_rows_Forall (P : Request → Prop) seq now rs :
  (∀ r id created updated,
      P r → P (Request_with_ID (Request_stamp r created updated) id)) →
  Forall P rs → Forall P (stored_rows seq now rs).
Proof.
  intros HP Hrs. revert seq now.
  induction Hrs as [|r rs Hr _ IH]; intros seq now; simpl; constructor; auto.
Qed.

Section Dropped.
Context {RT : Runtime}.

Lemma new_Collection_events document : coll_Events (new_Collection document) = None.
Proof. simpl. rewrite marshal_into_JSONMap_slice. by case_decide. Qed.

(** X1.  Whatever the payload and whatever the storage answers, the rows an
    import writes carry no events and no responses: the event scripts of the
    collection and of its requests and the saved responses of the requests
    are encoded as arrays, which do not decode into the map columns, so the
    columns stay nil.  The cached items of the collection stay nil for the
    same reason and the params of a request are never set, while the URL of
    a request row is never nil.  (Nothing is said of the body: it is nil
    when a raw member of it holds a number out of the range of
    [float64].) *)
Theorem import_drops_events_and_responses (data : list Byte.byte) (st : Storage) :
  ∃ cs rows,
    collections (ImportPostmanCollection data st).2 = collections st ++ cs
    ∧ requests (ImportPostmanCollection data st).2 = requests st ++ rows
    ∧ Forall (λ c, coll_Events c = None ∧ coll_Items c = None) cs
    ∧ Forall (λ row, req_Events row = None ∧ req_Responses row = None
                     ∧ req_Params row = None ∧ is_Some (req_URL row)) rows.
Proof.
  destruct (import_run data st)
    as [[_ (Hcs & Hrs & _)]|(document & n & _ & _ & _ & _ & Hcs & Hrs & _)].
  { exists [], []. rewrite !app_nil_r. repeat split; auto. }
  eexists _, _. split; [exact Hcs|]. split; [exact Hrs|]. split.
  - constructor; [|done]. split.
    + apply new_Collection_events.
    + apply new_Collection_items.
  - apply stored_rows_Forall; [done|].
    apply Forall_fmap, Forall_forall. intros l _. apply new_Request_columns.
Qed.

End Dropped.

(** ** Raw messages whose numbers are float64 values *)

Lemma JSON_size_elem v l : v ∈ l → (JSON_size v < JSON_size (JArr l))%nat.
Proof. simpl. induction 1 as [|v w l _ IH]; simpl in *; lia. Qed.

Lemma JSON_size_member (o : gmap string JSON) k v :
  o !! k = Some v → (JSON_size v < JSON_size (JObj o))%nat.
Proof.
  intros Hk. simpl. rewrite <- (insert_delete_id o k v) by done.
  rewrite map_fold_insert_L; [lia| |apply lookup_delete_eq].
  intros. lia.
Qed.

Lemma JSON_tree_ind (P : JSON → Prop) :
  P JNull → (∀ b, P (JBool b)) → (∀ q, P (JNum q)) → (∀ s, P (JStr s)) →
  (∀ l, Forall P l → P (JArr l)) →
  (∀ o, map_Forall (λ _, P) o → P (JObj o)) →
  ∀ j, P j.
Proof.
  intros Hnull Hbool Hnum Hstr Harr Hobj j.
  remember (JSON_size j) as n eqn:Hn. revert j Hn.
  induction n as [n IH] using lt_wf_ind. intros [| | | |l|o] ->; auto.
  - apply Harr, Forall_forall. intros v Hv.
    by eapply IH; [apply JSON_size_elem|].
  - apply Hobj. intros k v Hk.
    by eapply IH; [eapply JSON_size_member|].
Qed.

Lemma first_error_None (l : list (option error)) :
  Forall (λ e, e = None) l → first_error l = None.
Proof. induction 1 as [|? ? -> _ IH]; [done|]. apply IH. Qed.

Lemma decode_members_exact (o : gmap string JSON) :
  map_Forall (λ _ v, decode_any v = (v, None)) o →
  decode_members decode_any o = (o, None).
Proof.
  intros Hall. unfold decode_members. f_equal.
  - apply map_eq. intros k. rewrite lookup_fmap.
    destruct (o !! k) as [v|] eqn:Hk; [|done]. simpl. by rewrite (Hall k v Hk).
  - induction o as [|k v o Hk Hfold IH] using map_first_key_ind; [done|].
    rewrite map_fold_insert_first_key by done.
    apply map_Forall_insert in Hall as [Hv Hrest]; [|done].
    rewrite Hv. simpl. by apply IH.
Qed.

(** A tree whose numbers are [float64] values is read as it is spelled. *)
Lemma decode_any_float64 j : float64_numbers j = true → decode_any j = (j, None).
Proof.
  induction j as [| | | |l IH|o IH] using JSON_tree_ind;
    cbn [decode_any float64_numbers]; try done.
  - intros Hq%bool_decide_eq_true. unfold decode_number. by rewrite Hq.
  - intros Hl. rewrite forallb_forall in Hl.
    assert (Forall (λ v, decode_any v = (v, None)) l) as Hall.
    { apply Forall_forall. intros v Hv.
      eapply (proj1 (Forall_forall _ _) IH); [done|]. apply Hl. by apply list_elem_of_In. }
    clear IH Hl. f_equal.
    + f_equal. induction Hall as [|v l' Hv _ IHl]; csimpl; [done|]. by rewrite Hv, IHl.
    + apply first_error_None. induction Hall as [|v l' Hv _ IHl]; csimpl; [done|].
      rewrite Hv. by constructor.
  - intros Ho. rewrite decode_members_exact; [done|].
    revert Ho IH. induction o as [|k v o Hk Hfold IHo] using map_first_key_ind.
    + intros _ _. apply map_Forall_empty.
    + rewrite map_fold_insert_first_key by done.
      intros [Hv Hrest]%andb_prop [IHv IHrest]%map_Forall_insert; [|done].
      apply map_Forall_insert; [done|]. split; [by apply IHv|by apply IHo].
Qed.

Lemma decode_raw_JSONMap_object (text : RawText) (o : gmap string JSON) :
  spelled text = JObj o → float64_numbers (JObj o) = true →
  decode_raw_JSONMap text = (Some o, None).
Proof.
  intros Hspelled Hnumbers. destruct text as [j|v]; cbn [spelled] in *; subst; [|done].
  apply decode_any_float64 in Hnumbers. cbn [decode_raw_JSONMap decode_JSONMap]. cbn [decode_any] in Hnumbers.
  destruct (decode_members decode_any o) as [m err]. by simplify_eq/=.
Qed.

Lemma decode_raw_JSONMap_other (text : RawText) :
  (∀ o, spelled text ≠ JObj o) → (decode_raw_JSONMap text).1 = None.
Proof.
  intros Hother. destruct text as [[| | | | |o]|[| | | | |o]]; simpl in *; try done;
    by destruct (Hother o).
Qed.

Example ParseFloat_samples :
  strconv_ParseFloat (Qc_of_Z 30000) = Some (Qc_of_Z 30000)
  ∧ strconv_ParseFloat (Qc_of_Z (2 ^ 53 + 1)) = Some (Qc_of_Z (2 ^ 53))
  ∧ strconv_ParseFloat (Qc_of_Z (2 ^ 53 + 3)) = Some (Qc_of_Z (2 ^ 53 + 4))
  ∧ strconv_ParseFloat (Qc_of_Z (10 ^ 400)) = None
  ∧ strconv_ParseFloat (Q2Qc (QArith_base.Qmake 1 10))
    = Some (Q2Qc (QArith_base.Qmake 3602879701896397 (2 ^ 55))).
Proof. split_and!; apply (bool_decide_unpack _); vm_compute; exact I. Qed.

(** The rows of the imported [numeric_document]: a number that is a
    [float64] value is stored as it is, [2 ^ 53 + 1] is stored as [2 ^ 53],
    and the request with [1e400] has neither a body nor an auth. *)
Example numeric_rows :
  (λ r, (req_Name r,
         body ← req_Body r; options ← body !! "options"; n ← member "n" options;
         as_fraction n,
         auth ← req_Auth r; n ← auth !! "n"; as_fraction n))
    <$> requests numeric_imported.2
  = [ ("exact", Some (30000, 1%positive), Some (30000, 1%positive));
      ("rounded", Some (2 ^ 53, 1%positive), Some (2 ^ 53, 1%positive));
      ("out of range", None, None) ]
  ∧ (λ r, (bool_decide (is_Some (req_Body r)), bool_decide (is_Some (req_Auth r))))
      <$> requests numeric_imported.2
    = [ (true, true); (true, true); (false, false) ].
Proof. split; vm_compute; reflexivity. Qed.

(** The exported [numeric_document] shows the numbers as they were
    stored. *)
Example numeric_exported_auth :
  (λ l, (item_Name (leaf_item l),
         n ← auth_members (preq_Auth (leaf_request l)) !! "n"; as_fraction n))
    <$> request_leaves (pc_Item (document_or numeric_exported.1 numeric_document))
  = [ ("out of range", None);
      ("rounded", Some (2 ^ 53, 1%positive));
      ("exact", Some (30000, 1%positive)) ].
Proof. vm_compute. reflexivity. Qed.

(** ** The collection row of an import *)

Lemma variables_in_order_lookup (variable : list KeyValuePair) (k : string) :
  foldl (λ variables v, <[kv_Key v := JStr (kv_Value v)]> variables)
        (∅ : gmap string JSON) variable !! k
  = JStr <$> last_write_wins variable k.
Proof.
  unfold last_write_wins.
  induction variable as [|kv variable IH] using rev_ind; [done|].
  rewrite foldl_snoc, filter_app, filter_cons, filter_nil.
  destruct (decide (kv_Key kv = k)) as [<-|Hne].
  - by rewrite lookup_insert_eq, last_snoc.
  - by rewrite lookup_insert_ne, app_nil_r.
Qed.

Lemma foldl_append_elems {A B} (f : A → B) (l : list A) (acc : slice B) :
  elems (foldl (λ acc x, append acc (f x)) acc l) = elems acc ++ (f <$> l).
Proof.
  revert acc. induction l as [|x l IH]; intros acc; simpl; [by rewrite app_nil_r|].
  rewrite IH. simpl. by rewrite <- app_assoc.
Qed.

Section Metadata.
Context {RT : Runtime}.

Lemma elem_of_range {V} (m : gmap string V) k v : (k, v) ∈ range m ↔ m !! k = Some v.
Proof. rewrite (range_Permutation V m). apply elem_of_map_to_list. Qed.

Lemma NoDup_fst_range {V} (m : gmap string V) : NoDup ((range m).*1).
Proof. rewrite (range_Permutation V m). apply NoDup_fst_map_to_list. Qed.

Lemma import_ok_run data document st id st' :
  json_Unmarshal_PostmanCollection data = Ok document →
  ImportPostmanCollection data st = (Ok id, st') →
  id = collections_id_seq st + 1
  ∧ collections st'
    = collections st
      ++ [Collection_with_ID
            (Collection_stamp (new_Collection document) (clock st) (clock st + 1)) id]
  ∧ requests st'
    = requests st
      ++ stored_rows (requests_id_seq st) (clock st + 2)
           (record_of id "" <$> request_leaves (pc_Item document))
  ∧ collections_id_seq st' = id
  ∧ requests_id_seq st'
    = requests_id_seq st + Z.of_nat (length (request_leaves (pc_Item document))).
Proof.
  intros Hparse Hrun.
  destruct (import_run data st)
    as [[Hfail _]|(document' & n & Hparse' & _ & _ & Hres & Hcs & Hrs & Hcseq & Hrseq)];
    rewrite Hrun in *; simpl in *; [done|].
  rewrite Hparse in Hparse'. simplify_eq.
  destruct Hres as [[? ->]|[? _]]; [|done]. simplify_eq.
  rewrite firstn_all in Hrs. done.
Qed.

(** X2.  The collection row of a successful import: it is appended with a
    fresh key, which is the id returned; it carries the name, the
    description and the two ids of [info], and as its schema the top-level
    [schema] member of the document (that of [info] is not stored); its
    variables map every key of the variable list to the value of its last
    occurrence; its auth is the auth object of the document when the
    numbers in it are [float64] values, and nil when the document has no
    auth or one that is not an object.  (The numbers of any other auth
    object are stored as [encoding/json] converts them, see
    [decode_any].) *)
Theorem import_stores_collection_metadata
    (data : list Byte.byte) (document : PostmanCollection) (st st' : Storage) (id : Z) :
  json_Unmarshal_PostmanCollection data = Ok document →
  ImportPostmanCollection data st = (Ok id, st') →
  ∃ c,
    collections st' = collections st ++ [c]
    ∧ coll_ID c = id ∧ id = collections_id_seq st + 1
    ∧ coll_Name c = info_Name (pc_Info document)
    ∧ coll_Description c = info_Description (pc_Info document)
    ∧ coll_PostmanID c = info_PostmanID (pc_Info document)
    ∧ coll_ExporterID c = info_ExporterID (pc_Info document)
    ∧ coll_Schema c = pc_Schema document
    ∧ (∀ k, entries (coll_Variables c) !! k
            = JStr <$> last_write_wins (elems (pc_Variable document)) k)
    ∧ (∀ o, spelled <$> pc_Auth document = Some (JObj o) →
            float64_numbers (JObj o) = true → coll_Auth c = Some o)
    ∧ ((∀ o, spelled <$> pc_Auth document ≠ Some (JObj o)) → coll_Auth c = None)
    ∧ coll_CreatedAt c = clock st ∧ coll_UpdatedAt c = clock st + 1.
Proof.
  intros Hparse Hrun.
  destruct (import_ok_run _ _ _ _ _ Hparse Hrun) as (Hid & Hcs & _).
  eexists. split; [exact Hcs|]. simpl.
  repeat split; try done.
  - intros k. apply variables_in_order_lookup.
  - intros o Hauth Hnumbers. destruct (pc_Auth document) as [text|]; simplify_eq/=.
    by rewrite (decode_raw_JSONMap_object text o).
  - intros Hauth. destruct (pc_Auth document) as [text|]; [|done].
    apply decode_raw_JSONMap_other. intros o Ho. apply (Hauth o). simpl. by rewrite Ho.
Qed.

End Metadata.

Lemma import_stores_collection_metadata_witness :
  ∃ c,
    collections scripted_imported.2 = collections empty_storage ++ [c]
    ∧ coll_ID c = 1 ∧ 1 = collections_id_seq empty_storage + 1
    ∧ coll_Name c = info_Name (pc_Info scripted_document)
    ∧ coll_Description c = info_Description (pc_Info scripted_document)
    ∧ coll_PostmanID c = info_PostmanID (pc_Info scripted_document)
    ∧ coll_ExporterID c = info_ExporterID (pc_Info scripted_document)
    ∧ coll_Schema c = pc_Schema scripted_document
    ∧ (∀ k, entries (coll_Variables c) !! k
            = JStr <$> last_write_wins (elems (pc_Variable scripted_document)) k)
    ∧ (∀ o, spelled <$> pc_Auth scripted_document = Some (JObj o) →
            float64_numbers (JObj o) = true → coll_Auth c = Some o)
    ∧ ((∀ o, spelled <$> pc_Auth scripted_document ≠ Some (JObj o)) →
       coll_Auth c = None)
    ∧ coll_CreatedAt c = clock empty_storage
    ∧ coll_UpdatedAt c = clock empty_storage + 1.
Proof.
  apply (import_stores_collection_metadata
           (RT := sample_runtime sample_text scripted_document)
           sample_text scripted_document empty_storage scripted_imported.2 1).
  - vm_compute. reflexivity.
  - vm_compute. reflexivity.
Defined.

(** ** Import, then export: the metadata *)

Section MetadataRoundTrip.
Context {RT : Runtime}.

(** The collection an export reads right after the import that returned its
    id is the row that import stored. *)
Lemma export_after_import data document st id st1 out st2 :
  json_Unmarshal_PostmanCollection data = Ok document →
  Forall (λ c, coll_ID c ≤ collections_id_seq st) (collections st) →
  ImportPostmanCollection data st = (Ok id, st1) →
  ExportPostmanCollection_document id st1 = (Ok out, st2) →
  let c := Collection_with_ID
             (Collection_stamp (new_Collection document) (clock st) (clock st + 1)) id in
  out = export_metadata c (export_header c)
          (export_items (folderMap_of (select_requests id 0 1000 (requests st1)))).
Proof.
  intros Hparse Hkeys Himport Hexport.
  destruct (import_ok_run _ _ _ _ _ Hparse Himport) as (Hid & Hcs & _).
  apply export_document_run in Hexport as (c & Hin & Hc & ->).
  rewrite Hcs in Hin. apply elem_of_app in Hin as [Hin|Hin%list_elem_of_singleton].
  - rewrite Forall_forall in Hkeys. specialize (Hkeys c Hin). lia.
  - by subst c.
Qed.

Lemma export_metadata_variables c items :
  elems (pc_Variable (export_metadata c (export_header c) items))
  = (λ kv : string * JSON, mkKeyValuePair kv.1 (fmt_Sprintf_v kv.2) JNull "" false "")
      <$> from_option range [] (coll_Variables c).
Proof.
  unfold export_metadata, export_header. simpl.
  destruct (coll_Variables c) as [variables|]; [|done].
  by rewrite (foldl_append_elems
                (λ kv : string * JSON,
                   mkKeyValuePair kv.1 (fmt_Sprintf_v kv.2) JNull "" false "")).
Qed.

(** X3.  Import, then export: the metadata of the exported document.  Name,
    description and the two ids of [info] are those of the imported
    document, and the collection link is gone.  The [schema] member of
    [info] is the top-level [schema] of the imported document, and the
    top-level [schema] is the fixed v2.1.0 URL.  The events of the
    collection are gone.  The auth is the auth object of the imported
    document when the numbers in it are [float64] values, and has no member
    when that was not an object.  The variables are one plain key/value pair for every distinct key of the imported variable
    list, with the value of its last occurrence (for a runtime that prints a
    string as itself). *)
Theorem import_then_export_metadata
    (data : list Byte.byte) (document out : PostmanCollection)
    (st st1 st2 : Storage) (id : Z) :
  json_Unmarshal_PostmanCollection data = Ok document →
  (∀ s, fmt_Sprintf_v (JStr s) = s) →
  Forall (λ c, coll_ID c ≤ collections_id_seq st) (collections st) →
  ImportPostmanCollection data st = (Ok id, st1) →
  ExportPostmanCollection_document id st1 = (Ok out, st2) →
  info_Name (pc_Info out) = info_Name (pc_Info document)
  ∧ info_Description (pc_Info out) = info_Description (pc_Info document)
  ∧ info_PostmanID (pc_Info out) = info_PostmanID (pc_Info document)
  ∧ info_ExporterID (pc_Info out) = info_ExporterID (pc_Info document)
  ∧ info_CollectionLink (pc_Info out) = ""
  ∧ info_Schema (pc_Info out) = pc_Schema document
  ∧ pc_Schema out = exchange_schema
  ∧ pc_Event out = None
  ∧ (∀ o, spelled <$> pc_Auth document = Some (JObj o) →
          float64_numbers (JObj o) = true →
          pc_Auth out = Some (marshalled (JObj o)))
  ∧ ((∀ o, spelled <$> pc_Auth document ≠ Some (JObj o)) →
     entries (pc_Auth out ≫= as_object) = ∅)
  ∧ NoDup (kv_Key <$> elems (pc_Variable out))
  ∧ (∀ kv, kv ∈ elems (pc_Variable out)
           ↔ last_write_wins (elems (pc_Variable document)) (kv_Key kv)
             = Some (kv_Value kv)
             ∧ kv = mkKeyValuePair (kv_Key kv) (kv_Value kv) JNull "" false "").
Proof.
  intros Hparse Hprint Hkeys Himport Hexport.
  rewrite (export_after_import _ _ _ _ _ _ _ Hparse Hkeys Himport Hexport).
  rewrite export_metadata_variables.
  simpl. rewrite marshal_into_JSONMap_slice.
  split_and!; try done.
  - by case_decide.
  - intros o Hauth Hnumbers. destruct (pc_Auth document) as [text|]; simplify_eq/=.
    by rewrite (decode_raw_JSONMap_object text o).
  - intros Hauth. destruct (pc_Auth document) as [text|]; [|done].
    rewrite decode_raw_JSONMap_other; [done|].
    intros o Ho. apply (Hauth o). simpl. by rewrite Ho.
  - rewrite <- list_fmap_compose. apply (NoDup_fst_range _).
  - intros kv. split.
    + intros ((k & j) & -> & Hin%elem_of_range)%list_elem_of_fmap. simpl in *.
      rewrite variables_in_order_lookup in Hin.
      destruct (last_write_wins _ k) as [v|]; simplify_eq/=. by rewrite Hprint.
    + intros [Hlast ->]. simpl in *.
      apply list_elem_of_fmap. exists (kv_Key kv, JStr (kv_Value kv)). simpl.
      rewrite Hprint. split; [done|]. apply elem_of_range.
      by rewrite variables_in_order_lookup, Hlast.
Qed.

End MetadataRoundTrip.

Lemma import_then_export_metadata_witness :
  let out := document_or scripted_exported.1 scripted_document in
  info_Name (pc_Info out) = info_Name (pc_Info scripted_document)
  ∧ info_Description (pc_Info out) = info_Description (pc_Info scripted_document)
  ∧ info_PostmanID (pc_Info out) = info_PostmanID (pc_Info scripted_document)
  ∧ info_ExporterID (pc_Info out) = info_ExporterID (pc_Info scripted_document)
  ∧ info_CollectionLink (pc_Info out) = ""
  ∧ info_Schema (pc_Info out) = pc_Schema scripted_document
  ∧ pc_Schema out = exchange_schema
  ∧ pc_Event out = None
  ∧ (∀ o, spelled <$> pc_Auth scripted_document = Some (JObj o) →
          float64_numbers (JObj o) = true →
          pc_Auth out = Some (marshalled (JObj o)))
  ∧ ((∀ o, spelled <$> pc_Auth scripted_document ≠ Some (JObj o)) →
     entries (pc_Auth out ≫= as_object) = ∅)
  ∧ NoDup (kv_Key <$> elems (pc_Variable out))
  ∧ (∀ kv, kv ∈ elems (pc_Variable out)
           ↔ last_write_wins (elems (pc_Variable scripted_document)) (kv_Key kv)
             = Some (kv_Value kv)
             ∧ kv = mkKeyValuePair (kv_Key kv) (kv_Value kv) JNull "" false "").
Proof.
  apply (import_then_export_metadata
           (RT := sample_runtime sample_text scripted_document)
           sample_text scripted_document _ empty_storage scripted_imported.2
           scripted_exported.2 1).
  - vm_compute. reflexivity.
  - intros s. reflexivity.
  - constructor.
  - vm_compute. reflexivity.
  - vm_compute. reflexivity.
Defined.

Example scripted_exported_variables :
  elems (pc_Variable (document_or scripted_exported.1 scripted_document))
  = [sample_header "base" "two"; sample_header "token" "t"].
Proof. vm_compute. reflexivity. Qed.

(** ** Headers, from the list to the map and back *)

Lemma filter_none {A} (P : A → Prop) `{∀ x, Decision (P x)} (l : list A) :
  Forall (λ x, ¬ P x) l → filter P l = [].
Proof.
  induction 1 as [|x l Hx _ IH]; [done|]. by rewrite filter_cons, decide_False.
Qed.

Lemma last_write_wins_None (l : list KeyValuePair) (k : string) :
  k ∉ kv_Key <$> l → last_write_wins l k = None.
Proof.
  intros Hk. unfold last_write_wins.
  replace (filter (λ kv, kv_Key kv = k) l) with (@nil KeyValuePair); [done|].
  symmetry. apply filter_none, Forall_forall. intros kv Hkv <-.
  apply Hk, list_elem_of_fmap. eauto.
Qed.

Lemma last_write_wins_NoDup (l : list KeyValuePair) (kv : KeyValuePair) :
  NoDup (kv_Key <$> l) → kv ∈ l →
  last_write_wins l (kv_Key kv) = Some (kv_Value kv).
Proof.
  unfold last_write_wins. induction l as [|x l IH]; intros Hnodup Hin.
  - by apply not_elem_of_nil in Hin.
  - rewrite fmap_cons in Hnodup. apply NoDup_cons in Hnodup as [Hx Hnodup].
    rewrite filter_cons. apply elem_of_cons in Hin as [->|Hin].
    + rewrite decide_True by done.
      replace (filter (λ kv, kv_Key kv = kv_Key x) l) with (@nil KeyValuePair); [done|].
      symmetry. apply filter_none, Forall_forall. intros y Hy Heq.
      apply Hx, list_elem_of_fmap. eauto.
    + rewrite decide_False.
      * by apply IH.
      * intros Heq. apply Hx. rewrite Heq. apply list_elem_of_fmap. eauto.
Qed.

Section HeaderRoundTrip.
Context {RT : Runtime}.

Lemma export_item_request (r : Request) :
  ∃ q, item_Request (export_item r) = Some q
       ∧ preq_Method q = req_Method r
       ∧ preq_URL q = marshal_JSONMap (req_URL r)
       ∧ elems (preq_Header q)
         = (λ kv : string * string, mkKeyValuePair kv.1 kv.2 JNull "" false "")
             <$> from_option range [] (req_Headers r)
       ∧ preq_Auth q = marshalled ∘ JObj <$> req_Auth r.
Proof.
  eexists. split; [reflexivity|]. simpl. split_and!; try done.
  - by destruct (req_URL r).
  - destruct (req_Headers r) as [headers|]; [|done].
    by rewrite (foldl_append_elems
                  (λ kv : string * string, mkKeyValuePair kv.1 kv.2 JNull "" false "")).
  - by destruct (req_Auth r).
Qed.

(** The header list an export writes for a row decodes, on import, into the
    header map of the row. *)
Lemma headers_of_exported (headers : gmap string string) :
  foldl (λ headers kv, <[kv_Key kv := kv_Value kv]> headers) ∅
        ((λ kv : string * string, mkKeyValuePair kv.1 kv.2 JNull "" false "")
           <$> range headers)
  = headers.
Proof.
  apply map_eq. intros k. rewrite insert_in_order_lookup.
  set (pair := λ kv : string * string, mkKeyValuePair kv.1 kv.2 JNull "" false "").
  assert (Hkeys : kv_Key <$> (pair <$> range headers) = (range headers).*1)
    by (by rewrite <- list_fmap_compose).
  destruct (headers !! k) as [v|] eqn:Hk.
  - apply (last_write_wins_NoDup _ (pair (k, v))).
    + rewrite Hkeys. apply NoDup_fst_range.
    + apply list_elem_of_fmap. exists (k, v). split; [done|]. by apply elem_of_range.
  - apply last_write_wins_None. rewrite Hkeys.
    intros ((k' & v) & Heq & Hin%elem_of_range)%list_elem_of_fmap.
    simpl in Heq. subst k'. congruence.
Qed.

(** X4.  The header list an export writes for a row that an import stored:
    one plain key/value pair for every distinct key of the header list of
    the imported request, with the value of its last occurrence.  Repeated
    keys, descriptions and the [disabled] flag do not survive. *)
Theorem export_headers_of_imported_row
    (item : PostmanItem) (request exported : PostmanRequest)
    (collectionID : Z) (parentPath : string) (row : Request) :
  stored_as (new_Request item request collectionID parentPath) row →
  item_Request (export_item row) = Some exported →
  NoDup (kv_Key <$> elems (preq_Header exported))
  ∧ ∀ kv, kv ∈ elems (preq_Header exported)
          ↔ last_write_wins (elems (preq_Header request)) (kv_Key kv) = Some (kv_Value kv)
            ∧ plain_pair kv.
Proof.
  intros Hstored Hexported.
  destruct (export_item_request row) as (q & Hq & _ & _ & Hheader & _).
  rewrite Hq in Hexported. simplify_eq. rewrite Hheader.
  destruct (stored_as_fields _ _ Hstored) as (_ & _ & _ & _ & _ & ->). simpl.
  assert (Hlookup : ∀ k v, (k, v) ∈ from_option range [] (headers_of (preq_Header request))
                           ↔ last_write_wins (elems (preq_Header request)) k = Some v).
  { intros k v. rewrite <- insert_in_order_lookup, <- headers_of_entries.
    destruct (headers_of _) as [headers|]; simpl.
    - apply elem_of_range.
    - rewrite lookup_empty. split; [by intros ?%not_elem_of_nil|done]. }
  split.
  - rewrite <- list_fmap_compose.
    destruct (headers_of _) as [headers|]; simpl; [apply NoDup_fst_range|constructor].
  - intros kv. split.
    + intros ((k & v) & -> & Hin%Hlookup)%list_elem_of_fmap. done.
    + intros [Hlast ->]. apply list_elem_of_fmap.
      exists (kv_Key kv, kv_Value kv). split; [done|]. by apply Hlookup.
Qed.

End HeaderRoundTrip.

Lemma export_headers_of_imported_row_witness :
  let request :=
    mkPostmanRequest (JStr "https://example.com/login") "POST"
      (Some [sample_header "A" "1"; sample_header "B" "3"; sample_header "A" "2"])
      zero_PostmanBody "" None in
  let exported :=
    mkPostmanRequest (JObj {[ "raw" := JStr "https://example.com/login" ]}) "POST"
      (Some [sample_header "A" "2"; sample_header "B" "3"]) zero_PostmanBody "" None in
  NoDup (kv_Key <$> elems (preq_Header exported))
  ∧ ∀ kv, kv ∈ elems (preq_Header exported)
          ↔ last_write_wins (elems (preq_Header request)) (kv_Key kv) = Some (kv_Value kv)
            ∧ plain_pair kv.
Proof.
  intros request exported.
  set (item := mkPostmanItem "Sign in" "" None (Some request) None None None None "").
  apply (export_headers_of_imported_row
           (RT := sample_runtime sample_text sample_document)
           item request exported 1 ""
           (Request_with_ID (Request_stamp (new_Request item request 1 "") 0 1) 1)).
  - by exists 1, 0, 1.
  - vm_compute. reflexivity.
Defined.

(** ** Export, then import: the rows *)

Lemma leaves_of_without_request item :
  item_Request item = None →
  leaves_of item
  = under (item_Name item) <$> concat (leaves_of <$> elems (item_Item item)).
Proof.
  destruct item as [name d [[|child rest]|] request response event variable auth id];
    simpl; by intros ->.
Qed.

Lemma stored_as_row_key r row : stored_as r row → row_key row = row_key r.
Proof. by intros (id & created & updated & ->). Qed.

Section ExportThenImport.
Context {RT : Runtime}.

(** The leaf an export writes for a row: below a folder named after the
    folder path of the row, or at the root when the path is empty. *)
Lemma export_items_leaves (rs : list Request) (l : Leaf) :
  l ∈ request_leaves (export_items (folderMap_of rs))
  ↔ ∃ r q, r ∈ rs ∧ item_Request (export_item r) = Some q
           ∧ l = mkLeaf (if decide (req_FolderPath r = "") then []
                         else [req_FolderPath r])
                   (export_item r) q.
Proof.
  destruct (export_items_shape rs) as (folders & Hitems & _ & Hnames & Hfolders).
  unfold request_leaves. rewrite Hitems, fmap_app, concat_app, elem_of_app.
  assert (Hleaf : ∀ r, ∃ q, item_Request (export_item r) = Some q
                            ∧ leaves_of (export_item r) = [mkLeaf [] (export_item r) q]).
  { intros r. eexists. split; reflexivity. }
  assert (Hgroup : ∀ path l',
            l' ∈ concat (leaves_of <$> (export_item <$> group path rs))
            ↔ ∃ r q, r ∈ rs ∧ req_FolderPath r = path
                     ∧ item_Request (export_item r) = Some q
                     ∧ l' = mkLeaf [] (export_item r) q).
  { intros path l'. rewrite elem_of_concat. split.
    - intros (ls & Hl & (item & -> & (r & -> & [Hpath Hr]%list_elem_of_filter)
                           %list_elem_of_fmap)%list_elem_of_fmap).
      destruct (Hleaf r) as (q & Hq & Hleaves). rewrite Hleaves in Hl.
      apply list_elem_of_singleton in Hl. eauto 10.
    - intros (r & q & Hr & Hpath & Hq & ->).
      exists (leaves_of (export_item r)). split.
      + destruct (Hleaf r) as (q' & Hq' & ->). rewrite Hq in Hq'. simplify_eq.
        apply list_elem_of_singleton. done.
      + apply list_elem_of_fmap. eexists. split; [done|].
        apply list_elem_of_fmap. exists r. split; [done|]. by apply list_elem_of_filter. }
  split.
  - intros [Hin|Hin].
    + apply Hgroup in Hin as (r & q & Hr & Hpath & Hq & ->).
      exists r, q. by rewrite decide_True.
    + apply elem_of_concat in Hin as (ls & Hl & (folder & -> & Hfolder)%list_elem_of_fmap).
      rewrite Forall_forall in Hfolders.
      destruct (Hfolders folder Hfolder) as (Hreq & Hsub & _).
      rewrite (leaves_of_without_request folder Hreq), Hsub in Hl.
      apply list_elem_of_fmap in Hl as (l' & -> & Hl').
      apply Hgroup in Hl' as (r & q & Hr & Hpath & Hq & ->).
      assert (Hname : item_Name folder ≠ "").
      { apply (Hnames (item_Name folder)). apply list_elem_of_fmap. eauto. }
      exists r, q. rewrite decide_False by congruence. by rewrite Hpath.
  - intros (r & q & Hr & Hq & ->).
    destruct (decide (req_FolderPath r = "")) as [Hpath|Hpath].
    + left. apply Hgroup. eauto 10.
    + right.
      assert (Hname : req_FolderPath r ∈ item_Name <$> folders).
      { apply Hnames. split; [done|]. apply list_elem_of_fmap. eauto. }
      apply list_elem_of_fmap in Hname as (folder & Hname & Hfolder).
      rewrite Forall_forall in Hfolders.
      destruct (Hfolders folder Hfolder) as (Hreq & Hsub & _).
      apply elem_of_concat. exists (leaves_of folder). split.
      * rewrite (leaves_of_without_request folder Hreq), Hsub, <- Hname.
        apply list_elem_of_fmap. exists (mkLeaf [] (export_item r) q). split; [done|].
        apply Hgroup. eauto 10.
      * apply list_elem_of_fmap. eauto.
Qed.

(** The record the import walk builds for the leaf of a row says about the
    request what the row says. *)
Lemma record_of_exported_leaf (r : Request) (q : PostmanRequest) (collectionID : Z) :
  item_Request (export_item r) = Some q →
  row_key (record_of collectionID ""
             (mkLeaf (if decide (req_FolderPath r = "") then [] else [req_FolderPath r])
                     (export_item r) q))
  = row_key r.
Proof.
  intros Hq. destruct (export_item_request r) as (q' & Hq' & Hmethod & Hurl & Hheader & Hauth).
  rewrite Hq in Hq'. simplify_eq.
  unfold record_of. simpl leaf_item. simpl leaf_request. simpl leaf_ancestors.
  assert (Hpath : walk_path "" (if decide (req_FolderPath r = "") then []
                                else [req_FolderPath r]) = req_FolderPath r).
  { case_decide as Hp; [by rewrite Hp|]. done. }
  rewrite Hpath.
  set (rec := new_Request (export_item r) q' collectionID (req_FolderPath r)).
  assert (Hu : entries (req_URL rec) = entries (req_URL r)).
  { subst rec. simpl. rewrite Hurl, urlMap_of_canonical. by destruct (req_URL r). }
  assert (Hh : entries (req_Headers rec) = entries (req_Headers r)).
  { subst rec. simpl. rewrite headers_of_entries, Hheader.
    destruct (req_Headers r) as [headers|]; [apply headers_of_exported|done]. }
  assert (Ha : entries (req_Auth rec) = entries (req_Auth r)).
  { subst rec. simpl. rewrite Hauth. by destruct (req_Auth r). }
  assert (Hm : req_Method rec = req_Method r) by done.
  unfold row_key. rewrite Hu, Hh, Ha, Hm. done.
Qed.

(** X5.  Export, then import.  When the item tree of an exported document
    is walked by the import, on a storage that accepts the creates, the rows
    appended say about their requests what the exported rows say: folder
    path, name, description, method, Postman id, URL, headers and auth.  A
    folder path such as [Auth/Login], exported as one folder of that name,
    comes back as the same folder path. *)
Theorem reimport_of_export_keeps_rows
    (id collectionID : Z) (st st1 st2 : Storage) (out : PostmanCollection) :
  ExportPostmanCollection_document id st = (Ok out, st1) →
  no_fault_within (length (request_leaves (pc_Item out))) (faults st2) →
  ∃ st3 rows,
    processPostmanItems (pc_Item out) collectionID "" st2 = (Ok tt, st3)
    ∧ requests st3 = requests st2 ++ rows
    ∧ Forall (λ row, req_CollectionID row = collectionID) rows
    ∧ ∀ key, key ∈ row_key <$> rows
             ↔ key ∈ row_key <$> select_requests id 0 1000 (requests st).
Proof.
  intros Hexport Hquiet.
  destruct (walk_ok (pc_Item out) collectionID "" st2 Hquiet)
    as (st3 & rows & Hrun & _ & Hrows & Hstored & _).
  exists st3, rows. split; [done|]. split; [done|].
  split; [by eapply stored_rows_collection|].
  apply export_document_run in Hexport as (c & _ & _ & ->). simpl pc_Item in *.
  set (rs := select_requests id 0 1000 (requests st)) in *.
  assert (Hkeys : row_key <$> rows
                  = row_key <$> (record_of collectionID ""
                                   <$> request_leaves (export_items (folderMap_of rs)))).
  { clear Hrun Hrows Hquiet.
    induction Hstored as [|x row xs rows' Hx _ IH]; [done|].
    rewrite !fmap_cons, IH. f_equal. by apply stored_as_row_key. }
  intros key. rewrite Hkeys, <- list_fmap_compose. split.
  - intros (l & -> & (r & q & Hr & Hq & ->)%export_items_leaves)%list_elem_of_fmap.
    simpl. rewrite (record_of_exported_leaf r q collectionID Hq).
    apply list_elem_of_fmap. eauto.
  - intros (r & -> & Hr)%list_elem_of_fmap.
    destruct (export_item_request r) as (q & Hq & _).
    apply list_elem_of_fmap.
    exists (mkLeaf (if decide (req_FolderPath r = "") then [] else [req_FolderPath r])
                   (export_item r) q).
    split.
    + simpl. by rewrite (record_of_exported_leaf r q collectionID Hq).
    + apply export_items_leaves. eauto.
Qed.

End ExportThenImport.

Lemma reimport_of_export_keeps_rows_witness :
  ∃ st3 rows,
    processPostmanItems (pc_Item (document_or sample_exported.1 sample_document)) 2 ""
      sample_exported.2 = (Ok tt, st3)
    ∧ requests st3 = requests sample_exported.2 ++ rows
    ∧ Forall (λ row, req_CollectionID row = 2) rows
    ∧ ∀ key, key ∈ row_key <$> rows
             ↔ key ∈ row_key <$> select_requests 1 0 1000 (requests sample_imported.2).
Proof.
  apply (reimport_of_export_keeps_rows
           (RT := sample_runtime sample_text sample_document)
           1 2 sample_imported.2 sample_exported.2 sample_exported.2).
  - vm_compute. reflexivity.
  - vm_compute. constructor.
Defined.

Example reimported_folder_paths :
  req_FolderPath
    <$> requests (processPostmanItems
                    (pc_Item (document_or sample_exported.1 sample_document)) 2 ""
                    empty_storage).2
  = [""; "Auth/Login"; "Auth/Login"].
Proof. vm_compute. reflexivity. Qed.

(** ** Import, then export: the requests *)

Lemma stored_row_details collectionID l row :
  stored_as (record_of collectionID "" l) row → row_details row = leaf_details l.
Proof.
  intros Hstored. pose proof (stored_row_triple _ _ _ _ Hstored) as Htriple.
  unfold row_triple, triple_of in Htriple. injection Htriple as _ _ Hurl.
  destruct Hstored as (id & created & updated & ->).
  unfold row_details, leaf_details, auth_members. rewrite Hurl. simpl.
  by destruct (preq_Auth (leaf_request l)).
Qed.

Lemma stored_rows_details collectionID leaves rows :
  Forall2 stored_as (record_of collectionID "" <$> leaves) rows →
  row_details <$> rows = leaf_details <$> leaves.
Proof.
  rewrite Forall2_fmap_l. induction 1 as [|l row ls rs Hl _ IH]; [done|].
  rewrite !fmap_cons, IH. f_equal. by eapply stored_row_details.
Qed.

Section RequestRoundTrip.
Context {RT : Runtime}.

Lemma exported_leaf_details (r : Request) (q : PostmanRequest) :
  item_Request (export_item r) = Some q →
  leaf_details (mkLeaf (if decide (req_FolderPath r = "") then [] else [req_FolderPath r])
                       (export_item r) q)
  = row_details r
  ∧ preq_Description q = req_Description r.
Proof.
  intros Hq.
  destruct (export_item_request r) as (q' & Hq' & Hmethod & Hurl & _ & Hauth).
  rewrite Hq in Hq'. simplify_eq.
  split; [|by simpl in Hq; simplify_eq].
  unfold leaf_details, row_details, auth_members. simpl leaf_item. simpl leaf_request.
  simpl leaf_ancestors. rewrite Hmethod, Hurl, Hauth.
  assert (Hpath : walk_path "" (if decide (req_FolderPath r = "") then []
                                else [req_FolderPath r]) = req_FolderPath r).
  { case_decide as Hp; [by rewrite Hp|]. done. }
  rewrite Hpath. repeat f_equal. by destruct (req_Auth r).
Qed.

(** X6.  Import, then export: the requests.  The export does not rebuild
    the folder tree (it writes one folder per folder path), but for a
    document of at most 1000 requests it says about every request what the
    imported document said: the folder path that the import walk computes
    from the names of the folders above the request, and the name, the
    description, the method, the raw URL, the Postman id and the members of
    the auth of the request as [encoding/json] reads them; and it says it of
    no other request.  An auth whose numbers are not [float64] values does
    not come back as it was written: the export holds the numbers as they
    were converted, and no auth at all when one of them was out of range.
    The description that the imported [request] object had of its own is
    not kept: the exported one is the description of the item. *)
Theorem round_trip_keeps_request_details
    (data : list Byte.byte) (document out : PostmanCollection)
    (st st1 st2 : Storage) (id : Z) :
  json_Unmarshal_PostmanCollection data = Ok document →
  referential st →
  ImportPostmanCollection data st = (Ok id, st1) →
  ExportPostmanCollection_document id st1 = (Ok out, st2) →
  (length (request_leaves (pc_Item document)) ≤ 1000)%nat →
  (∀ d, d ∈ leaf_details <$> request_leaves (pc_Item out)
        ↔ d ∈ leaf_details <$> request_leaves (pc_Item document))
  ∧ Forall (λ l, preq_Description (leaf_request l) = item_Description (leaf_item l))
      (request_leaves (pc_Item out)).
Proof.
  intros Hparse Href Himport Hexport Hsize.
  destruct (import_returns_ok _ _ _ _ _ Hparse Himport) as (Hid & rows & Hrows & Hstored).
  apply export_document_run in Hexport as (collection & _ & _ & ->).
  change (pc_Item (export_metadata _ _ ?items)) with items.
  rewrite Hrows.
  assert (Hperm : select_requests id 0 1000 (requests st ++ rows) ≡ₚ rows).
  { apply select_requests_fresh.
    - eapply Forall_impl; [exact Href|]. simpl. intros r Hr. lia.
    - by eapply stored_rows_collection.
    - apply Forall2_length in Hstored. rewrite length_fmap in Hstored. lia. }
  set (selected := select_requests id 0 1000 (requests st ++ rows)) in *.
  split.
  - intros d. rewrite <- (stored_rows_details _ _ _ Hstored), <- Hperm. split.
    + intros (l & -> & (r & q & Hr & Hq & ->)%export_items_leaves)%list_elem_of_fmap.
      destruct (exported_leaf_details r q Hq) as [-> _].
      apply list_elem_of_fmap. eauto.
    + intros (r & -> & Hr)%list_elem_of_fmap.
      destruct (export_item_request r) as (q & Hq & _).
      apply list_elem_of_fmap.
      exists (mkLeaf (if decide (req_FolderPath r = "") then [] else [req_FolderPath r])
                     (export_item r) q).
      split; [by destruct (exported_leaf_details r q Hq) as [-> _]|].
      apply export_items_leaves. eauto.
  - apply Forall_forall. intros l (r & q & Hr & Hq & ->)%export_items_leaves.
    destruct (exported_leaf_details r q Hq) as [_ Hdescription].
    simpl leaf_request. simpl leaf_item. by rewrite Hdescription.
Qed.

End RequestRoundTrip.

Lemma round_trip_keeps_request_details_witness :
  let out := document_or scripted_exported.1 scripted_document in
  (∀ d, d ∈ leaf_details <$> request_leaves (pc_Item out)
        ↔ d ∈ leaf_details <$> request_leaves (pc_Item scripted_document))
  ∧ Forall (λ l, preq_Description (leaf_request l) = item_Description (leaf_item l))
      (request_leaves (pc_Item out)).
Proof.
  apply (round_trip_keeps_request_details
           (RT := sample_runtime sample_text scripted_document)
           sample_text scripted_document _ empty_storage scripted_imported.2
           scripted_exported.2 1).
  - vm_compute. reflexivity.
  - constructor.
  - vm_compute. reflexivity.
  - vm_compute. reflexivity.
  - vm_compute. lia.
Defined.

Example scripted_exported_details :
  leaf_details <$> request_leaves (pc_Item (document_or scripted_exported.1 scripted_document))
  = [("Auth", "Login", "Signs in", "POST", "https://example.com/login", "id-1",
      {[ "type" := JStr "bearer" ]})].
Proof. vm_compute. reflexivity. Qed.

(** ** DeleteCollection *)

Lemma no_fault_within_two (fs : list bool) :
  no_fault_within 2 fs → head fs ≠ Some true ∧ head (tail fs) ≠ Some true.
Proof.
  unfold no_fault_within. destruct fs as [|b1 [|b2 fs]]; simpl; [done| |].
  - by intros [-> _]%Forall_cons.
  - by intros [-> [-> _]%Forall_cons]%Forall_cons.
Qed.

Lemma DeleteByCollectionID_ok id st :
  head (faults st) ≠ Some true →
  wrap "failed to delete requests in collection" (requestRepo_DeleteByCollectionID id) st
  = (Ok tt,
     set_requests (filter (λ r, req_CollectionID r ≠ id) (requests st))
       (set_faults (tail (faults st)) st)).
Proof.
  intros Hhead. unfold requestRepo_DeleteByCollectionID, wrap.
  by rewrite db_Exec_ok.
Qed.

Lemma collectionRepo_Delete_ok id st :
  head (faults st) ≠ Some true →
  collectionRepo_Delete id st
  = (Ok tt,
     set_collections (filter (λ c, coll_ID c ≠ id) (collections st))
       (set_faults (tail (faults st)) st)).
Proof.
  intros Hhead. unfold collectionRepo_Delete, wrap. by rewrite db_Exec_ok.
Qed.

Lemma filter_all {A} (P : A → Prop) `{∀ x, Decision (P x)} (l : list A) :
  Forall P l → filter P l = l.
Proof.
  induction 1 as [|x l Hx _ IH]; [done|]. by rewrite filter_cons, decide_True, IH.
Qed.

Lemma DeleteCollection_ok id st :
  no_fault_within 2 (faults st) →
  ∃ st',
    DeleteCollection id st = (Ok tt, st')
    ∧ collections st' = filter (λ c, coll_ID c ≠ id) (collections st)
    ∧ requests st' = filter (λ r, req_CollectionID r ≠ id) (requests st).
Proof.
  intros [Hfirst Hsecond]%no_fault_within_two.
  unfold DeleteCollection, bind.
  rewrite DeleteByCollectionID_ok by done.
  rewrite collectionRepo_Delete_ok by done.
  by eexists.
Qed.

(** X7.  [DeleteCollection] on a storage that accepts its two statements:
    the rows of table [requests] that refer to the collection and the row
    of the collection are gone, and every other row of both tables is
    there as before, in the same order.  The collection is not looked up
    first: for an id that no collection has the call succeeds as well, and
    when no request row refers to that id either, it leaves the tables as
    they were. *)
Theorem DeleteCollection_removes_rows (id : Z) (st : Storage) :
  no_fault_within 2 (faults st) →
  ∃ st',
    DeleteCollection id st = (Ok tt, st')
    ∧ collections st' = filter (λ c, coll_ID c ≠ id) (collections st)
    ∧ requests st' = filter (λ r, req_CollectionID r ≠ id) (requests st)
    ∧ (id ∉ coll_ID <$> collections st')
    ∧ (id ∉ req_CollectionID <$> requests st')
    ∧ ((id ∉ coll_ID <$> collections st) →
       (id ∉ req_CollectionID <$> requests st) →
       same_tables st st').
Proof.
  intros Hquiet.
  destruct (DeleteCollection_ok id st Hquiet) as (st' & Hrun & Hcs' & Hrs').
  exists st'. split; [done|]. split; [done|]. split; [done|].
  rewrite Hcs', Hrs'. split_and!.
  - intros (c & Hid & [Hne _]%list_elem_of_filter)%list_elem_of_fmap. congruence.
  - intros (r & Hid & [Hne _]%list_elem_of_filter)%list_elem_of_fmap. congruence.
  - intros Hcs Hrs.
    assert (Hseq : collections_id_seq st' = collections_id_seq st
                   ∧ requests_id_seq st' = requests_id_seq st).
    { apply no_fault_within_two in Hquiet as [Hfirst Hsecond].
      unfold DeleteCollection, bind in Hrun.
      rewrite DeleteByCollectionID_ok in Hrun by done.
      rewrite collectionRepo_Delete_ok in Hrun by done. by simplify_eq. }
    unfold same_tables. rewrite Hcs', Hrs'. split_and!; try apply Hseq.
    + apply filter_all, Forall_forall. intros c Hc Heq. apply Hcs.
      apply list_elem_of_fmap. eauto.
    + apply filter_all, Forall_forall. intros r Hr Heq. apply Hrs.
      apply list_elem_of_fmap. eauto.
Qed.

Lemma DeleteCollection_removes_rows_witness :
  ∃ st',
    DeleteCollection 1 sample_imported.2 = (Ok tt, st')
    ∧ collections st' = filter (λ c, coll_ID c ≠ 1) (collections sample_imported.2)
    ∧ requests st' = filter (λ r, req_CollectionID r ≠ 1) (requests sample_imported.2)
    ∧ (1 ∉ coll_ID <$> collections st')
    ∧ (1 ∉ req_CollectionID <$> requests st')
    ∧ ((1 ∉ coll_ID <$> collections sample_imported.2) →
       (1 ∉ req_CollectionID <$> requests sample_imported.2) →
       same_tables sample_imported.2 st').
Proof.
  apply (DeleteCollection_removes_rows 1 sample_imported.2).
  vm_compute. constructor.
Defined.

(** X8.  [DeleteCollection] is not atomic.  When the statement that deletes
    the request rows goes through and the one that deletes the collection
    row fails, the call returns the error of the second statement, and the
    storage keeps the collection row while the request rows of the
    collection are gone. *)
Theorem DeleteCollection_is_not_atomic (id : Z) (st : Storage) (rest : list bool) :
  faults st = false :: true :: rest →
  ∃ st',
    DeleteCollection id st
    = (Err (fmt_Errorf "failed to delete collection" sql_Error), st')
    ∧ collections st' = collections st
    ∧ requests st' = filter (λ r, req_CollectionID r ≠ id) (requests st)
    ∧ faults st' = rest.
Proof.
  intros Hfs. destruct st as [cs rs cseq rseq now fs]. simpl in Hfs. subst fs.
  by eexists.
Qed.

Lemma DeleteCollection_is_not_atomic_witness :
  ∃ st',
    DeleteCollection 1 (set_faults [false; true] sample_imported.2)
    = (Err (fmt_Errorf "failed to delete collection" sql_Error), st')
    ∧ collections st' = collections (set_faults [false; true] sample_imported.2)
    ∧ requests st'
      = filter (λ r, req_CollectionID r ≠ 1)
          (requests (set_faults [false; true] sample_imported.2))
    ∧ faults st' = [].
Proof.
  apply (DeleteCollection_is_not_atomic 1 (set_faults [false; true] sample_imported.2) []).
  reflexivity.
Defined.

Example DeleteCollection_not_atomic_sample :
  let st' := (DeleteCollection 1 (set_faults [false; true] sample_imported.2)).2 in
  coll_Name <$> collections st' = ["Demo"] ∧ requests st' = [].
Proof. vm_compute. done. Qed.

(** ** Import, then delete *)

Lemma stored_rows_collection_id seq now collectionID parentPath leaves :
  Forall (λ row, req_CollectionID row = collectionID)
    (stored_rows seq now (record_of collectionID parentPath <$> leaves)).
Proof.
  apply stored_rows_Forall; [done|]. apply Forall_fmap, Forall_forall. done.
Qed.

Section ImportThenDelete.
Context {RT : Runtime}.

(** X9.  Import, then delete.  On a storage whose rows refer only to
    collection keys that have been handed out, deleting the collection that
    an import has just returned leaves both tables as they were before the
    import: the walk and the delete agree on which rows belong to the
    collection. *)
Theorem import_then_delete_restores_tables
    (data : list Byte.byte) (st st1 : Storage) (id : Z) :
  Forall (λ c, coll_ID c ≤ collections_id_seq st) (collections st) →
  referential st →
  ImportPostmanCollection data st = (Ok id, st1) →
  no_fault_within 2 (faults st1) →
  ∃ st2,
    DeleteCollection id st1 = (Ok tt, st2)
    ∧ collections st2 = collections st
    ∧ requests st2 = requests st.
Proof.
  intros Hkeys Href Himport Hquiet.
  destruct (json_Unmarshal_PostmanCollection data) as [document|e] eqn:Hparse.
  2:{ unfold ImportPostmanCollection, bind, wrap, lift in Himport.
      by rewrite Hparse in Himport. }
  destruct (import_ok_run _ _ _ _ _ Hparse Himport) as (Hid & Hcs & Hrs & _).
  destruct (DeleteCollection_ok id st1 Hquiet) as (st2 & Hrun & Hcs2 & Hrs2).
  exists st2. split; [done|]. rewrite Hcs2, Hrs2, Hcs, Hrs, !filter_app. split.
  - rewrite filter_all, filter_cons, decide_False, filter_nil, app_nil_r; [done|by intros []|].
    apply Forall_forall. intros c Hc. rewrite Forall_forall in Hkeys.
    specialize (Hkeys c Hc). lia.
  - rewrite filter_all, filter_none, app_nil_r; [done| |].
    + eapply Forall_impl; [apply stored_rows_collection_id|]. simpl. intros r ->. by intros [].
    + unfold referential in Href. eapply Forall_impl; [exact Href|]. simpl. lia.
Qed.

End ImportThenDelete.

Lemma import_then_delete_restores_tables_witness :
  ∃ st2,
    DeleteCollection 2 scripted_reimported.2 = (Ok tt, st2)
    ∧ collections st2 = collections sample_imported.2
    ∧ requests st2 = requests sample_imported.2.
Proof.
  apply (import_then_delete_restores_tables
           (RT := sample_runtime sample_text scripted_document)
           sample_text sample_imported.2 scripted_reimported.2 2).
  - vm_compute. repeat constructor; done.
  - vm_compute. repeat constructor; done.
  - vm_compute. reflexivity.
  - vm_compute. constructor.
Defined.

(** ** Looking a row up by its key *)

Lemma list_find_middle {A} (P : A → Prop) `{∀ x, Decision (P x)}
    (before after : list A) (x : A) :
  Forall (λ y, ¬ P y) before → P x →
  list_find P (before ++ x :: after) = Some (length before, x).
Proof.
  intros Hbefore Hx. induction Hbefore as [|y before Hy _ IH]; simpl.
  - by rewrite decide_True.
  - rewrite decide_False by done. by rewrite IH.
Qed.

Lemma list_find_missing {A} (P : A → Prop) `{∀ x, Decision (P x)} (l : list A) :
  Forall (λ y, ¬ P y) l → list_find P l = None.
Proof. intros Hl. by apply list_find_None. Qed.

Lemma not_elem_of_fmap_Forall {A} (f : A → Z) (l : list A) (k : Z) :
  k ∉ f <$> l ↔ Forall (λ x, f x ≠ k) l.
Proof.
  rewrite Forall_forall. split.
  - intros Hk x Hx Heq. apply Hk, list_elem_of_fmap. eauto.
  - intros Hl (x & -> & Hx)%list_elem_of_fmap. by apply (Hl x).
Qed.

Lemma collectionRepo_GetByID_found id st i c :
  head (faults st) ≠ Some true →
  list_find (λ c, coll_ID c = id) (collections st) = Some (i, c) →
  collectionRepo_GetByID id st = (Ok c, set_faults (tail (faults st)) st).
Proof.
  intros Hhead Hfind. unfold collectionRepo_GetByID, wrap.
  rewrite db_Exec_ok by done. unfold select_collection. simpl. by rewrite Hfind.
Qed.

Lemma collectionRepo_GetByID_missing id st :
  head (faults st) ≠ Some true →
  id ∉ coll_ID <$> collections st →
  collectionRepo_GetByID id st
  = (Err (fmt_Errorf "failed to get collection by ID" sql_ErrNoRows),
     set_faults (tail (faults st)) st).
Proof.
  intros Hhead Hid. unfold collectionRepo_GetByID, wrap.
  rewrite db_Exec_ok by done. unfold select_collection. simpl.
  rewrite list_find_missing; [done|]. by apply not_elem_of_fmap_Forall.
Qed.

Lemma requestRepo_GetByID_found id st i r :
  head (faults st) ≠ Some true →
  list_find (λ r, req_ID r = id) (requests st) = Some (i, r) →
  requestRepo_GetByID id st = (Ok r, set_faults (tail (faults st)) st).
Proof.
  intros Hhead Hfind. unfold requestRepo_GetByID, wrap.
  rewrite db_Exec_ok by done. unfold select_request. simpl. by rewrite Hfind.
Qed.

Lemma requestRepo_GetByID_missing id st :
  head (faults st) ≠ Some true →
  id ∉ req_ID <$> requests st →
  requestRepo_GetByID id st
  = (Err (fmt_Errorf "failed to get request by ID" sql_ErrNoRows),
     set_faults (tail (faults st)) st).
Proof.
  intros Hhead Hid. unfold requestRepo_GetByID, wrap.
  rewrite db_Exec_ok by done. unfold select_request. simpl.
  rewrite list_find_missing; [done|]. by apply not_elem_of_fmap_Forall.
Qed.

Lemma replace_middle {A} (P : A → Prop) `{∀ x, Decision (P x)}
    (before after : list A) (x y : A) :
  Forall (λ z, ¬ P z) before → Forall (λ z, ¬ P z) after → P x →
  (λ row, if decide (P row) then y else row) <$> before ++ x :: after
  = before ++ y :: after.
Proof.
  intros Hbefore Hafter Hx.
  assert (Hsame : ∀ l, Forall (λ z, ¬ P z) l →
                       (λ row, if decide (P row) then y else row) <$> l = l).
  { induction 1 as [|z l Hz _ IH]; [done|]. by rewrite fmap_cons, decide_False, IH. }
  by rewrite fmap_app, fmap_cons, decide_True, !Hsame.
Qed.

(** ** UpdateCollection *)

(** X10.  [UpdateCollection] on a storage that holds exactly one row with
    the key of the struct and accepts the two statements: that row, in its
    place, becomes the struct, with two exceptions, namely its cached items
    stay those of the row and [updated_at] is the time of the call.
    [created_at] is not an exception: it is taken from the struct, not from
    the row.  No other row of either table changes. *)
Theorem UpdateCollection_keeps_cached_items
    (collection existing : Collection) (before after : list Collection) (st : Storage) :
  collections st = before ++ existing :: after →
  coll_ID existing = coll_ID collection →
  (coll_ID collection ∉ coll_ID <$> before ++ after) →
  no_fault_within 2 (faults st) →
  ∃ stored st',
    UpdateCollection collection st = (Ok stored, st')
    ∧ collections st' = before ++ stored :: after
    ∧ requests st' = requests st
    ∧ Collection_with_Items stored None
      = Collection_with_Items
          (Collection_stamp collection (coll_CreatedAt collection) (clock st)) None
    ∧ entries (coll_Items stored) = entries (coll_Items existing).
Proof.
  intros Hcs Hid Hunique [Hfirst Hsecond]%no_fault_within_two.
  rewrite fmap_app in Hunique. apply not_elem_of_app in Hunique as [Hb Ha].
  apply not_elem_of_fmap_Forall in Hb, Ha.
  unfold UpdateCollection, bind, wrap at 1.
  rewrite (collectionRepo_GetByID_found _ _ (length before) existing Hfirst).
  2:{ rewrite Hcs. apply list_find_middle; [|done].
      eapply Forall_impl; [exact Hb|]. done. }
  unfold collectionRepo_Update, bind, time_Now, wrap. simpl.
  rewrite db_Exec_ok by done. unfold update_collection, ret. simpl.
  eexists _, _. split; [reflexivity|]. simpl. split_and!; try done.
  rewrite Hcs. by apply (replace_middle (λ c, coll_ID c = coll_ID collection)).
Qed.

Lemma UpdateCollection_keeps_cached_items_witness :
  let collection := mkCollection 1 "Renamed" "" "" None None None (Some ∅) "" "" 0 0 in
  let existing :=
    mkCollection 1 "Empty" "" "urn:example:schema" (Some ∅) None None None "" "" 0 1 in
  ∃ stored st',
    UpdateCollection collection storage_without_requests = (Ok stored, st')
    ∧ collections st' = [] ++ stored :: []
    ∧ requests st' = requests storage_without_requests
    ∧ Collection_with_Items stored None
      = Collection_with_Items
          (Collection_stamp collection (coll_CreatedAt collection)
             (clock storage_without_requests)) None
    ∧ entries (coll_Items stored) = entries (coll_Items existing).
Proof.
  intros collection existing.
  apply (UpdateCollection_keeps_cached_items collection existing [] []
           storage_without_requests).
  - reflexivity.
  - reflexivity.
  - vm_compute. by intros ?%not_elem_of_nil.
  - vm_compute. constructor.
Defined.

Example UpdateCollection_resets_created_at :
  (λ c, (coll_Name c, coll_CreatedAt c, coll_UpdatedAt c))
    <$> collections
          (UpdateCollection
             (mkCollection 1 "Renamed" "" "" None None None None "" "" 0 0)
             (mkStorage
                [mkCollection 1 "Empty" "" "" (Some ∅) None None None "" "" 5 6]
                [] 1 0 7 [])).2
  = [("Renamed", 0, 7)].
Proof. vm_compute. reflexivity. Qed.

(** ** Pages *)

#[global] Instance created_at_desc_transitive : Transitive created_at_desc.
Proof. intros a b c. unfold created_at_desc. lia. Qed.

#[global] Instance created_at_desc_total : Total created_at_desc.
Proof. intros a b. unfold created_at_desc. lia. Qed.

#[global] Instance collection_created_at_desc_transitive :
  Transitive collection_created_at_desc.
Proof. intros a b c. unfold collection_created_at_desc. lia. Qed.

#[global] Instance collection_created_at_desc_total : Total collection_created_at_desc.
Proof. intros a b. unfold collection_created_at_desc. lia. Qed.

Lemma int_wrap_in_range (n : Z) : - 2 ^ 63 ≤ n < 2 ^ 63 → int_wrap n = n.
Proof. intros Hn. unfold int_wrap. rewrite Z.mod_small; lia. Qed.

(** A page of a sorted table: it is sorted, it takes its rows from the
    table, none of them twice, and it is as long as the limit lets it be
    and the offset leaves it. *)
Lemma page_of_sorted {A} (R : relation A) `{!RelDecision R, !Transitive R, !Total R}
    (offset limit : Z) (table : list A) :
  0 ≤ offset → 0 ≤ limit →
  let rows := take (Z.to_nat limit) (drop (Z.to_nat offset) (merge_sort R table)) in
  StronglySorted R rows
  ∧ rows ⊆+ table
  ∧ Z.of_nat (length rows) = limit `min` (0 `max` (Z.of_nat (length table) - offset)).
Proof.
  intros Hoffset Hlimit rows. subst rows. split_and!.
  - pose proof (StronglySorted_merge_sort R table) as Hsorted.
    rewrite <- (take_drop (Z.to_nat offset) (merge_sort R table)) in Hsorted.
    apply StronglySorted_app_1_r in Hsorted.
    rewrite <- (take_drop (Z.to_nat limit) (drop _ _)) in Hsorted.
    by apply StronglySorted_app_1_l in Hsorted.
  - rewrite <- (merge_sort_Permutation R table) at 2.
    apply sublist_submseteq. etrans; [apply sublist_take|apply sublist_drop].
  - rewrite length_take, length_drop.
    rewrite (Permutation_length (merge_sort_Permutation R table)). lia.
Qed.

(** The window [page_window] computes, when nothing overflows. *)
Lemma page_window_in_range (page pageSize : Z) :
  let p := 1 `max` page in
  let s := if decide (pageSize < 1) then 10 else pageSize in
  (p - 1) * s < 2 ^ 63 →
  page_window page pageSize = ((p - 1) * s, s) ∧ 0 ≤ (p - 1) * s ∧ 1 ≤ s.
Proof.
  intros p s Hrange. unfold page_window.
  assert (Hp : (if decide (page < 1) then 1 else page) = p)
    by (subst p; case_decide; lia).
  rewrite Hp. fold s.
  assert (1 ≤ s) by (clear Hrange; subst s; destruct (decide (pageSize < 1)); lia).
  assert (1 ≤ p) by (subst p; lia).
  assert (0 ≤ (p - 1) * s) by nia.
  rewrite int_wrap_in_range by lia. done.
Qed.

(** X11.  [ListCollections] and [ListRequests] on a storage that accepts
    the two statements.  A page below one counts as page one and a page
    size below one as ten.  As long as the offset [(page - 1) * pageSize]
    fits an [int], the call returns, next to the number of rows of the whole
    table, a page that is sorted by [created_at], newest first, whose keys
    are keys of the table, none of them twice, and that holds
    [min(pageSize, max(0, total - offset))] rows.  The tables stay as they
    were. *)
Theorem ListCollections_page (page pageSize : Z) (st : Storage) :
  let p := 1 `max` page in
  let s := if decide (pageSize < 1) then 10 else pageSize in
  (p - 1) * s < 2 ^ 63 →
  no_fault_within 2 (faults st) →
  (∃ rows st',
     let total := Z.of_nat (length (collections st)) in
     ListCollections page pageSize st = (Ok (rows, total), st')
     ∧ same_tables st st'
     ∧ StronglySorted collection_created_at_desc rows
     ∧ coll_ID <$> rows ⊆+ coll_ID <$> collections st
     ∧ Z.of_nat (length rows) = s `min` (0 `max` (total - (p - 1) * s)))
  ∧ (∃ rows st',
       let total := Z.of_nat (length (requests st)) in
       ListRequests page pageSize st = (Ok (rows, total), st')
       ∧ same_tables st st'
       ∧ StronglySorted created_at_desc rows
       ∧ req_ID <$> rows ⊆+ req_ID <$> requests st
       ∧ Z.of_nat (length rows) = s `min` (0 `max` (total - (p - 1) * s))).
Proof.
  intros p s Hrange [Hfirst Hsecond]%no_fault_within_two.
  destruct (page_window_in_range page pageSize Hrange) as (Hwindow & Hoffset & Hsize).
  fold p s in Hwindow, Hoffset, Hsize. split.
  - unfold ListCollections. rewrite Hwindow.
    unfold bind, collectionRepo_List, collectionRepo_Count, wrap.
    rewrite db_Exec_ok by done. rewrite db_Exec_ok by done. simpl.
    eexists _, _. split; [reflexivity|]. split; [done|].
    destruct (page_of_sorted collection_created_at_desc ((p - 1) * s) s (collections st))
      as (Hsorted & Hsub & Hlen); [lia..|].
    split_and!; [done|by apply fmap_submseteq|done].
  - unfold ListRequests. rewrite Hwindow.
    unfold bind, requestRepo_List, requestRepo_Count, wrap.
    rewrite db_Exec_ok by done. rewrite db_Exec_ok by done. simpl.
    eexists _, _. split; [reflexivity|]. split; [done|].
    destruct (page_of_sorted created_at_desc ((p - 1) * s) s (requests st))
      as (Hsorted & Hsub & Hlen); [lia..|].
    split_and!; [done|by apply fmap_submseteq|done].
Qed.

Lemma ListCollections_page_witness :
  let p := 1 `max` 2 in
  let s := if decide (2 < 1) then 10 else 2 in
  (∃ rows st',
     let total := Z.of_nat (length (collections sample_imported.2)) in
     ListCollections 2 2 sample_imported.2 = (Ok (rows, total), st')
     ∧ same_tables sample_imported.2 st'
     ∧ StronglySorted collection_created_at_desc rows
     ∧ coll_ID <$> rows ⊆+ coll_ID <$> collections sample_imported.2
     ∧ Z.of_nat (length rows) = s `min` (0 `max` (total - (p - 1) * s)))
  ∧ (∃ rows st',
       let total := Z.of_nat (length (requests sample_imported.2)) in
       ListRequests 2 2 sample_imported.2 = (Ok (rows, total), st')
       ∧ same_tables sample_imported.2 st'
       ∧ StronglySorted created_at_desc rows
       ∧ req_ID <$> rows ⊆+ req_ID <$> requests sample_imported.2
       ∧ Z.of_nat (length rows) = s `min` (0 `max` (total - (p - 1) * s))).
Proof.
  apply (ListCollections_page 2 2 sample_imported.2).
  - vm_compute. reflexivity.
  - vm_compute. constructor.
Defined.

Example ListRequests_second_page :
  match (ListRequests 2 2 sample_imported.2).1 with
  | Ok (rows, total) => (req_Name <$> rows, total)
  | Err _ => ([], 0)
  end = (["Sign in"], 3).
Proof. vm_compute. reflexivity. Qed.

(** ** A collection that does not exist *)

Section UnknownCollection.
Context {RT : Runtime}.

(** X12.  The operations that look the collection up first: for an id that
    no collection row has, on a storage that answers the lookup, the export,
    [UpdateCollection], [CreateRequest] and [ListRequestsByCollection]
    return [sql.ErrNoRows], wrapped by the repository and once more by the
    service, and send no further statement: the storage is as it was, but
    for the fault schedule, which has moved by one. *)
Theorem unknown_collection_is_rejected (id : Z) (st : Storage) :
  (id ∉ coll_ID <$> collections st) →
  head (faults st) ≠ Some true →
  let st' := set_faults (tail (faults st)) st in
  ExportPostmanCollection id st
  = (Err (fmt_Errorf "failed to get collection" collection_not_found), st')
  ∧ (∀ collection, coll_ID collection = id →
       UpdateCollection collection st
       = (Err (fmt_Errorf "collection not found" collection_not_found), st'))
  ∧ (∀ request, req_CollectionID request = id →
       CreateRequest request st
       = (Err (fmt_Errorf "collection not found" collection_not_found), st'))
  ∧ (∀ page pageSize,
       ListRequestsByCollection id page pageSize st
       = (Err (fmt_Errorf "collection not found" collection_not_found), st')).
Proof.
  intros Hid Hhead st'.
  pose proof (collectionRepo_GetByID_missing id st Hhead Hid) as Hget.
  split_and!.
  - unfold ExportPostmanCollection, ExportPostmanCollection_document, bind, wrap at 1.
    unfold GetCollection. by rewrite Hget.
  - intros collection <-. unfold UpdateCollection, bind, wrap at 1. by rewrite Hget.
  - intros request <-. unfold CreateRequest, bind, wrap at 1. by rewrite Hget.
  - intros page pageSize. unfold ListRequestsByCollection, bind, wrap at 1.
    by rewrite Hget.
Qed.

End UnknownCollection.

Lemma unknown_collection_is_rejected_witness :
  let st' := set_faults (tail (faults sample_imported.2)) sample_imported.2 in
  ExportPostmanCollection (RT := sample_runtime sample_text sample_document)
    7 sample_imported.2
  = (Err (fmt_Errorf "failed to get collection" collection_not_found), st')
  ∧ (∀ collection, coll_ID collection = 7 →
       UpdateCollection collection sample_imported.2
       = (Err (fmt_Errorf "collection not found" collection_not_found), st'))
  ∧ (∀ request, req_CollectionID request = 7 →
       CreateRequest request sample_imported.2
       = (Err (fmt_Errorf "collection not found" collection_not_found), st'))
  ∧ (∀ page pageSize,
       ListRequestsByCollection 7 page pageSize sample_imported.2
       = (Err (fmt_Errorf "collection not found" collection_not_found), st')).
Proof.
  apply (unknown_collection_is_rejected
           (RT := sample_runtime sample_text sample_document) 7 sample_imported.2).
  - vm_compute. intros Hin. repeat (apply elem_of_cons in Hin as [Hin|Hin]; [done|]).
    by apply not_elem_of_nil in Hin.
  - vm_compute. done.
Defined.

(** ** ListRequestsByCollection *)

Lemma ListByCollectionID_repo_ok id offset limit st :
  head (faults st) ≠ Some true →
  requestRepo_ListByCollectionID id offset limit st
  = (Ok (select_requests id offset limit (requests st)),
     set_faults (tail (faults st)) st).
Proof.
  intros Hhead. unfold requestRepo_ListByCollectionID, wrap. by rewrite db_Exec_ok.
Qed.

Lemma no_fault_within_three (fs : list bool) :
  no_fault_within 3 fs →
  head fs ≠ Some true ∧ head (tail fs) ≠ Some true ∧ head (tail (tail fs)) ≠ Some true.
Proof.
  unfold no_fault_within. destruct fs as [|b1 [|b2 [|b3 fs]]]; simpl; [done| | |].
  - by intros [-> _]%Forall_cons.
  - by intros [-> [-> _]%Forall_cons]%Forall_cons.
  - by intros [-> [-> [-> _]%Forall_cons]%Forall_cons]%Forall_cons.
Qed.

(** X13.  [ListRequestsByCollection] for a collection that exists, on a
    storage that accepts the three statements, with an offset that fits an
    [int]: the page holds rows of that collection only, newest first, under
    keys of the table, none of them twice; the total is the number of rows
    of that collection, and the page is [min(pageSize, max(0, total -
    offset))] rows long. *)
Theorem ListRequestsByCollection_page (id page pageSize : Z) (st : Storage) :
  let p := 1 `max` page in
  let s := if decide (pageSize < 1) then 10 else pageSize in
  id ∈ coll_ID <$> collections st →
  (p - 1) * s < 2 ^ 63 →
  no_fault_within 3 (faults st) →
  ∃ rows st',
    let table := filter (λ r, req_CollectionID r = id) (requests st) in
    let total := Z.of_nat (length table) in
    ListRequestsByCollection id page pageSize st = (Ok (rows, total), st')
    ∧ same_tables st st'
    ∧ StronglySorted created_at_desc rows
    ∧ req_ID <$> rows ⊆+ req_ID <$> table
    ∧ Forall (λ r, req_CollectionID r = id) rows
    ∧ Z.of_nat (length rows) = s `min` (0 `max` (total - (p - 1) * s)).
Proof.
  intros p s Hid Hrange (Hfirst & Hsecond & Hthird)%no_fault_within_three.
  destruct (page_window_in_range page pageSize Hrange) as (Hwindow & Hoffset & Hsize).
  fold p s in Hwindow, Hoffset, Hsize.
  assert (is_Some (list_find (λ c, coll_ID c = id) (collections st))) as [[i c] Hfind].
  { destruct (list_find _ (collections st)) eqn:Hfind; [eauto|].
    apply list_find_None in Hfind. by apply not_elem_of_fmap_Forall in Hfind. }
  unfold ListRequestsByCollection, bind, wrap at 1.
  rewrite (collectionRepo_GetByID_found id st i c Hfirst Hfind).
  rewrite Hwindow. rewrite ListByCollectionID_repo_ok by done.
  unfold requestRepo_CountByCollectionID, wrap. rewrite db_Exec_ok by done. simpl.
  eexists _, _. split; [reflexivity|]. split; [done|].
  destruct (page_of_sorted created_at_desc ((p - 1) * s) s
              (filter (λ r, req_CollectionID r = id) (requests st)))
    as (Hsorted & Hsub & Hlen); [lia..|].
  split_and!; try done; [by apply fmap_submseteq|].
  apply Forall_forall. intros r Hr.
  assert (Hin : r ∈ filter (λ r, req_CollectionID r = id) (requests st)).
  { eapply elem_of_submseteq; [|exact Hsub]. exact Hr. }
  by apply list_elem_of_filter in Hin as [? _].
Qed.

Lemma ListRequestsByCollection_page_witness :
  let p := 1 `max` 1 in
  let s := if decide (2 < 1) then 10 else 2 in
  ∃ rows st',
    let table := filter (λ r, req_CollectionID r = 1) (requests sample_imported.2) in
    let total := Z.of_nat (length table) in
    ListRequestsByCollection 1 1 2 sample_imported.2 = (Ok (rows, total), st')
    ∧ same_tables sample_imported.2 st'
    ∧ StronglySorted created_at_desc rows
    ∧ req_ID <$> rows ⊆+ req_ID <$> table
    ∧ Forall (λ r, req_CollectionID r = 1) rows
    ∧ Z.of_nat (length rows) = s `min` (0 `max` (total - (p - 1) * s)).
Proof.
  apply (ListRequestsByCollection_page 1 1 2 sample_imported.2).
  - vm_compute. apply list_elem_of_here.
  - vm_compute. reflexivity.
  - vm_compute. constructor.
Defined.

(** ** CreateRequest *)

Lemma CreateRequest_URL_cases (url : JSONMap) :
  is_Some (CreateRequest_URL url)
  ∧ (∀ s, entries url !! "raw" = Some (JStr s) → s ≠ "" →
          CreateRequest_URL url = Some {[ "raw" := JStr s ]})
  ∧ ((∀ s, entries url !! "raw" = Some (JStr s) → s = "") →
     entries (CreateRequest_URL url) = entries url).
Proof.
  destruct url as [members|]; simpl.
  2:{ split_and!; [eauto|by intros s; rewrite lookup_empty|done]. }
  destruct (members !! "raw") as [[| | |s| |]|] eqn:Hraw; simpl;
    try (split_and!; [eauto|by intros s'|done]).
  case_decide as Hs; simpl.
  - split_and!; [eauto| |].
    + intros s' ? _. by simplify_eq.
    + intros Hempty. by destruct Hs; apply Hempty.
  - split_and!; [eauto| |done].
    intros s' ? Hs'. by simplify_eq.
Qed.

Lemma requestRepo_Create_ok r st :
  head (faults st) ≠ Some true →
  requestRepo_Create r st
  = (Ok (Request_with_ID (Request_stamp r (clock st) (clock st + 1))
           (requests_id_seq st + 1)),
     mkStorage (collections st)
       (requests st ++ [Request_with_ID (Request_stamp r (clock st) (clock st + 1))
                          (requests_id_seq st + 1)])
       (collections_id_seq st) (requests_id_seq st + 1) (clock st + 1 + 1)
       (tail (faults st))).
Proof.
  intros Hhead. destruct st as [cs rs cseq rseq now fs].
  destruct fs as [|[] fs]; simpl in *; [done|congruence|done].
Qed.

Lemma collection_lookup id st :
  id ∈ coll_ID <$> collections st →
  ∃ i c, list_find (λ c, coll_ID c = id) (collections st) = Some (i, c).
Proof.
  intros Hid. destruct (list_find _ (collections st)) as [[i c]|] eqn:Hfind; [eauto|].
  apply list_find_None in Hfind. by apply not_elem_of_fmap_Forall in Hfind.
Qed.

(** X14.  [CreateRequest] for a collection that exists, on a storage that
    accepts the two statements, with a struct that carries no key: one row
    is appended, under a fresh key, and it is the struct but for its URL.
    The URL stored is never nil; when the URL of the struct has a non-empty
    string under [raw], the URL stored is that member alone, whatever else
    the struct had there; otherwise it has the entries of the URL of the
    struct. *)
Theorem CreateRequest_stores_raw_url (request : Request) (st : Storage) :
  req_ID request = 0 →
  req_CollectionID request ∈ coll_ID <$> collections st →
  no_fault_within 2 (faults st) →
  ∃ row st',
    CreateRequest request st = (Ok row, st')
    ∧ requests st' = requests st ++ [row]
    ∧ collections st' = collections st
    ∧ row = Request_with_ID
              (Request_stamp (Request_with_URL request (req_URL row))
                 (clock st) (clock st + 1))
              (requests_id_seq st + 1)
    ∧ is_Some (req_URL row)
    ∧ (∀ s, entries (req_URL request) !! "raw" = Some (JStr s) → s ≠ "" →
            req_URL row = Some {[ "raw" := JStr s ]})
    ∧ ((∀ s, entries (req_URL request) !! "raw" = Some (JStr s) → s = "") →
       entries (req_URL row) = entries (req_URL request)).
Proof.
  intros _ Hid [Hfirst Hsecond]%no_fault_within_two.
  destruct (collection_lookup _ _ Hid) as (i & c & Hfind).
  unfold CreateRequest, bind, wrap at 1.
  rewrite (collectionRepo_GetByID_found _ st i c Hfirst Hfind).
  rewrite requestRepo_Create_ok by done.
  eexists _, _. split; [reflexivity|]. simpl. split_and!; try done.
  all: apply CreateRequest_URL_cases.
Qed.

Lemma CreateRequest_stores_raw_url_witness :
  let request :=
    mkRequest 0 1 "Status" "" ""
      (Some {[ "raw" := JStr "https://example.com/status";
               "host" := JArr [JStr "example"; JStr "com"] ]})
      "GET" None None None None None None "" 0 0 in
  ∃ row st',
    CreateRequest request sample_imported.2 = (Ok row, st')
    ∧ requests st' = requests sample_imported.2 ++ [row]
    ∧ collections st' = collections sample_imported.2
    ∧ row = Request_with_ID
              (Request_stamp (Request_with_URL request (req_URL row))
                 (clock sample_imported.2) (clock sample_imported.2 + 1))
              (requests_id_seq sample_imported.2 + 1)
    ∧ is_Some (req_URL row)
    ∧ (∀ s, entries (req_URL request) !! "raw" = Some (JStr s) → s ≠ "" →
            req_URL row = Some {[ "raw" := JStr s ]})
    ∧ ((∀ s, entries (req_URL request) !! "raw" = Some (JStr s) → s = "") →
       entries (req_URL row) = entries (req_URL request)).
Proof.
  intros request.
  apply (CreateRequest_stores_raw_url request sample_imported.2).
  - reflexivity.
  - vm_compute. apply list_elem_of_here.
  - vm_compute. constructor.
Defined.

Example CreateRequest_drops_host :
  req_URL <$> last (requests
    (CreateRequest
       (mkRequest 0 1 "Status" "" ""
          (Some {[ "raw" := JStr "https://example.com/status";
                   "host" := JArr [JStr "example"; JStr "com"] ]})
          "GET" None None None None None None "" 0 0)
       sample_imported.2).2)
  = Some (Some {[ "raw" := JStr "https://example.com/status" ]}).
Proof. vm_compute. reflexivity. Qed.

(** ** Rows looked up by a key that is unique *)

Lemma list_find_unique {A} (f : A → Z) (l : list A) (x : A) :
  NoDup (f <$> l) → x ∈ l →
  ∃ i, list_find (λ y, f y = f x) l = Some (i, x).
Proof.
  intros Hnodup Hx. induction l as [|y l IH]; [by apply not_elem_of_nil in Hx|].
  rewrite fmap_cons in Hnodup. apply NoDup_cons in Hnodup as [Hy Hnodup]. simpl.
  apply elem_of_cons in Hx as [->|Hx].
  - exists 0%nat. by rewrite decide_True.
  - rewrite decide_False.
    + destruct (IH Hnodup Hx) as [i ->]. by exists (S i).
    + intros Heq. apply Hy. rewrite Heq. apply list_elem_of_fmap. eauto.
Qed.

(** ** CloneRequest *)

(** X15.  [CloneRequest] of a row, on a storage whose request keys are
    unique and that accepts the two statements: one row is appended, under
    a fresh key, which is the id returned.  The clone belongs to the
    collection of the original and has its method, its URL (an empty one
    for a nil one), its headers, its params and its body; its name is the
    new name and its description that of the original followed by
    [" (Cloned)"].  It does not take the folder path of the original, so it
    sits at the root of the collection, nor its auth, its events, its
    responses or its Postman id. *)
Theorem CloneRequest_copies
    (id : Z) (newName : string) (original : Request) (st : Storage) :
  NoDup (req_ID <$> requests st) →
  original ∈ requests st →
  req_ID original = id →
  no_fault_within 2 (faults st) →
  ∃ clone st',
    CloneRequest id newName st = (Ok (req_ID clone), st')
    ∧ requests st' = requests st ++ [clone]
    ∧ collections st' = collections st
    ∧ req_ID clone = requests_id_seq st + 1
    ∧ req_CollectionID clone = req_CollectionID original
    ∧ req_Name clone = newName
    ∧ req_Description clone = req_Description original +:+ " (Cloned)"
    ∧ req_Method clone = req_Method original
    ∧ is_Some (req_URL clone)
    ∧ entries (req_URL clone) = entries (req_URL original)
    ∧ entries (req_Headers clone) = entries (req_Headers original)
    ∧ entries (req_Params clone) = entries (req_Params original)
    ∧ entries (req_Body clone) = entries (req_Body original)
    ∧ req_FolderPath clone = ""
    ∧ req_Auth clone = None ∧ req_Events clone = None ∧ req_Responses clone = None
    ∧ req_PostmanID clone = "".
Proof.
  intros Hnodup Hin <- [Hfirst Hsecond]%no_fault_within_two.
  destruct (list_find_unique req_ID _ _ Hnodup Hin) as [i Hfind].
  unfold CloneRequest, bind, wrap at 1.
  rewrite (requestRepo_GetByID_found _ st i original Hfirst Hfind).
  unfold wrap. rewrite requestRepo_Create_ok by done. unfold ret.
  eexists _, _. split; [reflexivity|]. simpl. split_and!; try done.
  all: by destruct (req_URL original).
Qed.

Lemma CloneRequest_copies_witness :
  let original := sample_sign_in_row in
  ∃ clone st',
    CloneRequest 1 "Copy" sample_imported.2 = (Ok (req_ID clone), st')
    ∧ requests st' = requests sample_imported.2 ++ [clone]
    ∧ collections st' = collections sample_imported.2
    ∧ req_ID clone = requests_id_seq sample_imported.2 + 1
    ∧ req_CollectionID clone = req_CollectionID original
    ∧ req_Name clone = "Copy"
    ∧ req_Description clone = req_Description original +:+ " (Cloned)"
    ∧ req_Method clone = req_Method original
    ∧ is_Some (req_URL clone)
    ∧ entries (req_URL clone) = entries (req_URL original)
    ∧ entries (req_Headers clone) = entries (req_Headers original)
    ∧ entries (req_Params clone) = entries (req_Params original)
    ∧ entries (req_Body clone) = entries (req_Body original)
    ∧ req_FolderPath clone = ""
    ∧ req_Auth clone = None ∧ req_Events clone = None ∧ req_Responses clone = None
    ∧ req_PostmanID clone = "".
Proof.
  apply (CloneRequest_copies 1 "Copy" sample_sign_in_row sample_imported.2).
  - apply (bool_decide_unpack _). vm_compute. exact I.
  - vm_compute. apply list_elem_of_here.
  - vm_compute. reflexivity.
  - vm_compute. constructor.
Defined.

Example CloneRequest_leaves_the_folder :
  req_FolderPath sample_sign_in_row = "Auth/Login"
  ∧ req_FolderPath <$> last (requests (CloneRequest 1 "Copy" sample_imported.2).2)
    = Some "".
Proof. vm_compute. done. Qed.

(** ** The updates of one column *)

Lemma requestRepo_Update_ok r st :
  head (faults st) ≠ Some true →
  requestRepo_Update r st
  = (Ok (Request_stamp r (req_CreatedAt r) (clock st)),
     mkStorage (collections st)
       ((λ row, if decide (req_ID row = req_ID r)
                then Request_stamp r (req_CreatedAt r) (clock st) else row)
          <$> requests st)
       (collections_id_seq st) (requests_id_seq st) (clock st + 1)
       (tail (faults st))).
Proof.
  intros Hhead. destruct st as [cs rs cseq rseq now fs].
  destruct fs as [|[] fs]; simpl in *; [done|congruence|done].
Qed.

(** The row that replaces [original] when [change] is applied to it by one
    of the three updates. *)
Lemma update_in_place (change : Request → Request) (original : Request)
    (before after : list Request) (st : Storage) :
  req_ID (change original) = req_ID original →
  requests st = before ++ original :: after →
  (req_ID original ∉ req_ID <$> before ++ after) →
  no_fault_within 2 (faults st) →
  ∃ st',
    (request <- wrap "request not found" (requestRepo_GetByID (req_ID original)) ;;
     requestRepo_Update (change request) ;;
     ret tt) st = (Ok tt, st')
    ∧ requests st'
      = before
        ++ Request_stamp (change original) (req_CreatedAt (change original)) (clock st)
        :: after
    ∧ collections st' = collections st.
Proof.
  intros Hkey Hrows Hunique [Hfirst Hsecond]%no_fault_within_two.
  rewrite fmap_app in Hunique. apply not_elem_of_app in Hunique as [Hb Ha].
  apply not_elem_of_fmap_Forall in Hb, Ha.
  unfold bind, wrap at 1.
  rewrite (requestRepo_GetByID_found _ st (length before) original Hfirst).
  2:{ rewrite Hrows. apply list_find_middle; [|done].
      eapply Forall_impl; [exact Hb|]. done. }
  rewrite requestRepo_Update_ok by done. unfold ret.
  eexists. split; [reflexivity|]. simpl. split; [|done].
  rewrite Hkey, Hrows.
  by apply (replace_middle (λ r, req_ID r = req_ID original)).
Qed.

(** X16.  [UpdateRequestPayload], [UpdateRequestHeaders] and
    [UpdateRequestParams] of the one row with the given key, with an
    argument that is not nil, on a storage that accepts the two statements:
    the row is replaced in its place by a row that has the new body
    (headers, params) and the time of the call as [updated_at], and that
    agrees with the old row on every other column; no other row changes. *)
Theorem UpdateRequest_changes_one_column
    (id : Z) (original : Request) (before after : list Request) (st : Storage)
    (body params : gmap string JSON) (headers : gmap string string) :
  requests st = before ++ original :: after →
  req_ID original = id →
  (id ∉ req_ID <$> before ++ after) →
  no_fault_within 2 (faults st) →
  (∃ st' row,
     UpdateRequestPayload id (Some body) st = (Ok tt, st')
     ∧ requests st' = before ++ row :: after
     ∧ collections st' = collections st
     ∧ request_scalars row = request_scalars original
     ∧ request_maps row = request_maps (Request_with_Body original (Some body))
     ∧ req_Body row = Some body ∧ req_UpdatedAt row = clock st)
  ∧ (∃ st' row,
       UpdateRequestHeaders id (Some headers) st = (Ok tt, st')
       ∧ requests st' = before ++ row :: after
       ∧ collections st' = collections st
       ∧ request_scalars row = request_scalars original
       ∧ request_maps row = request_maps (Request_with_Headers original (Some headers))
       ∧ req_Headers row = Some headers ∧ req_UpdatedAt row = clock st)
  ∧ (∃ st' row,
       UpdateRequestParams id (Some params) st = (Ok tt, st')
       ∧ requests st' = before ++ row :: after
       ∧ collections st' = collections st
       ∧ request_scalars row = request_scalars original
       ∧ request_maps row = request_maps (Request_with_Params original (Some params))
       ∧ req_Params row = Some params ∧ req_UpdatedAt row = clock st).
Proof.
  intros Hrows <- Hunique Hquiet. split_and!.
  - destruct (update_in_place (λ r, Request_with_Body r (Some body))
                original before after st)
      as (st' & Hrun & Hrs & Hcs); try done.
    eexists st', _. by split_and!.
  - destruct (update_in_place (λ r, Request_with_Headers r (Some headers))
                original before after st)
      as (st' & Hrun & Hrs & Hcs); try done.
    eexists st', _. by split_and!.
  - destruct (update_in_place (λ r, Request_with_Params r (Some params))
                original before after st)
      as (st' & Hrun & Hrs & Hcs); try done.
    eexists st', _. by split_and!.
Qed.

Lemma UpdateRequest_changes_one_column_witness :
  let st := sample_imported.2 in
  let original := sample_sign_in_row in
  let before := [] in
  let after := tail (requests st) in
  let body : gmap string JSON := {[ "mode" := JStr "raw" ]} in
  let params : gmap string JSON := {[ "q" := JStr "1" ]} in
  let headers : gmap string string := {[ "Accept" := "*/*" ]} in
  (∃ st' row,
     UpdateRequestPayload 1 (Some body) st = (Ok tt, st')
     ∧ requests st' = before ++ row :: after
     ∧ collections st' = collections st
     ∧ request_scalars row = request_scalars original
     ∧ request_maps row = request_maps (Request_with_Body original (Some body))
     ∧ req_Body row = Some body ∧ req_UpdatedAt row = clock st)
  ∧ (∃ st' row,
       UpdateRequestHeaders 1 (Some headers) st = (Ok tt, st')
       ∧ requests st' = before ++ row :: after
       ∧ collections st' = collections st
       ∧ request_scalars row = request_scalars original
       ∧ request_maps row = request_maps (Request_with_Headers original (Some headers))
       ∧ req_Headers row = Some headers ∧ req_UpdatedAt row = clock st)
  ∧ (∃ st' row,
       UpdateRequestParams 1 (Some params) st = (Ok tt, st')
       ∧ requests st' = before ++ row :: after
       ∧ collections st' = collections st
       ∧ request_scalars row = request_scalars original
       ∧ request_maps row = request_maps (Request_with_Params original (Some params))
       ∧ req_Params row = Some params ∧ req_UpdatedAt row = clock st).
Proof.
  intros st original before after body params headers.
  apply (UpdateRequest_changes_one_column 1 original before after st body params headers).
  - vm_compute. reflexivity.
  - vm_compute. reflexivity.
  - vm_compute. intros Hin. repeat (apply elem_of_cons in Hin as [Hin|Hin]; [done|]).
    by apply not_elem_of_nil in Hin.
  - vm_compute. constructor.
Defined.

(** ** A request that does not exist, an argument that is nil *)

(** X17.  The three updates return an error for a nil argument before they
    send any statement: the storage, fault schedule included, is as it was.
    For a key that no request row has, on a storage that answers the
    lookup, the three updates, [DeleteRequest] and [CloneRequest] return
    [sql.ErrNoRows], wrapped by the repository and once more by the service,
    and send no further statement. *)
Theorem unknown_request_is_rejected (id : Z) (st : Storage) :
  (id ∉ req_ID <$> requests st) →
  head (faults st) ≠ Some true →
  let st' := set_faults (tail (faults st)) st in
  let not_found := fmt_Errorf "request not found" request_not_found in
  UpdateRequestPayload id None st = (Err (errors_New "body cannot be nil"), st)
  ∧ UpdateRequestHeaders id None st = (Err (errors_New "headers cannot be nil"), st)
  ∧ UpdateRequestParams id None st = (Err (errors_New "params cannot be nil"), st)
  ∧ (∀ body, UpdateRequestPayload id (Some body) st = (Err not_found, st'))
  ∧ (∀ headers, UpdateRequestHeaders id (Some headers) st = (Err not_found, st'))
  ∧ (∀ params, UpdateRequestParams id (Some params) st = (Err not_found, st'))
  ∧ DeleteRequest id st = (Err not_found, st')
  ∧ (∀ newName, CloneRequest id newName st = (Err not_found, st')).
Proof.
  intros Hid Hhead st' not_found.
  pose proof (requestRepo_GetByID_missing id st Hhead Hid) as Hget.
  split_and!; try done.
  - intros body. unfold UpdateRequestPayload, bind, wrap at 1. by rewrite Hget.
  - intros headers. unfold UpdateRequestHeaders, bind, wrap at 1. by rewrite Hget.
  - intros params. unfold UpdateRequestParams, bind, wrap at 1. by rewrite Hget.
  - unfold DeleteRequest, bind, wrap at 1. by rewrite Hget.
  - intros newName. unfold CloneRequest, bind, wrap at 1. by rewrite Hget.
Qed.

Lemma unknown_request_is_rejected_witness :
  let st := sample_imported.2 in
  let st' := set_faults (tail (faults st)) st in
  let not_found := fmt_Errorf "request not found" request_not_found in
  UpdateRequestPayload 9 None st = (Err (errors_New "body cannot be nil"), st)
  ∧ UpdateRequestHeaders 9 None st = (Err (errors_New "headers cannot be nil"), st)
  ∧ UpdateRequestParams 9 None st = (Err (errors_New "params cannot be nil"), st)
  ∧ (∀ body, UpdateRequestPayload 9 (Some body) st = (Err not_found, st'))
  ∧ (∀ headers, UpdateRequestHeaders 9 (Some headers) st = (Err not_found, st'))
  ∧ (∀ params, UpdateRequestParams 9 (Some params) st = (Err not_found, st'))
  ∧ DeleteRequest 9 st = (Err not_found, st')
  ∧ (∀ newName, CloneRequest 9 newName st = (Err not_found, st')).
Proof.
  apply (unknown_request_is_rejected 9 sample_imported.2).
  - vm_compute. intros Hin. repeat (apply elem_of_cons in Hin as [Hin|Hin]; [done|]).
    by apply not_elem_of_nil in Hin.
  - vm_compute. done.
Defined.

(** ** DeleteRequest *)

(** X18.  [DeleteRequest] of a key that a request row has, on a storage
    that accepts the two statements: the rows with that key are gone, every
    other row is there as before, and table [collections] is untouched. *)
Theorem DeleteRequest_removes_row (id : Z) (st : Storage) :
  id ∈ req_ID <$> requests st →
  no_fault_within 2 (faults st) →
  ∃ st',
    DeleteRequest id st = (Ok tt, st')
    ∧ requests st' = filter (λ r, req_ID r ≠ id) (requests st)
    ∧ (id ∉ req_ID <$> requests st')
    ∧ (length (requests st') < length (requests st))%nat
    ∧ collections st' = collections st.
Proof.
  intros Hid [Hfirst Hsecond]%no_fault_within_two.
  assert (is_Some (list_find (λ r, req_ID r = id) (requests st))) as [[i r] Hfind].
  { destruct (list_find _ (requests st)) eqn:Hfind; [eauto|].
    apply list_find_None in Hfind. by apply not_elem_of_fmap_Forall in Hfind. }
  unfold DeleteRequest, bind, wrap at 1.
  rewrite (requestRepo_GetByID_found id st i r Hfirst Hfind).
  unfold requestRepo_Delete, wrap. rewrite db_Exec_ok by done. simpl.
  eexists. split; [reflexivity|]. simpl. split_and!; try done.
  - intros (r' & Hid' & [Hne _]%list_elem_of_filter)%list_elem_of_fmap. congruence.
  - apply list_find_Some in Hfind as (Hi & Hr & _).
    assert (Hin : r ∈ requests st) by (by eapply list_elem_of_lookup_2).
    apply list_elem_of_split in Hin as (l1 & l2 & ->).
    rewrite filter_app, filter_cons, decide_False by (by intros []).
    rewrite !length_app. simpl.
    pose proof (length_filter (λ r, req_ID r ≠ id) l1).
    pose proof (length_filter (λ r, req_ID r ≠ id) l2). lia.
Qed.

Lemma DeleteRequest_removes_row_witness :
  ∃ st',
    DeleteRequest 2 sample_imported.2 = (Ok tt, st')
    ∧ requests st' = filter (λ r, req_ID r ≠ 2) (requests sample_imported.2)
    ∧ (2 ∉ req_ID <$> requests st')
    ∧ (length (requests st') < length (requests sample_imported.2))%nat
    ∧ collections st' = collections sample_imported.2.
Proof.
  apply (DeleteRequest_removes_row 2 sample_imported.2).
  - vm_compute. apply list_elem_of_further, list_elem_of_here.
  - vm_compute. constructor.
Defined.

(** ** The pagination helpers of the handlers *)

(** X19.  [PaginatedResponse] for a page size of at least one and a row
    count that is not negative: it does not panic, it reports page, page
    size and row count as given, and its [TotalPage] is the row count
    divided by the page size, rounded up, that is, the one number [n] with
    [(n - 1) * pageSize < total ≤ n * pageSize].  A page of a listing holds
    rows exactly when its number is at most [TotalPage]. *)
Theorem PaginatedResponse_total_pages {A} (data : A) (page pageSize total : Z) :
  1 ≤ pageSize →
  0 ≤ total < 2 ^ 63 →
  ∃ response meta,
    PaginatedResponse data page pageSize total = Some response
    ∧ response_Success response = true
    ∧ response_Data response = data
    ∧ response_Meta response = Some meta
    ∧ meta_Page meta = page ∧ meta_PageSize meta = pageSize
    ∧ meta_TotalRows meta = total
    ∧ (meta_TotalPage meta - 1) * pageSize < total ≤ meta_TotalPage meta * pageSize
    ∧ (∀ p, 1 ≤ p →
         0 < pageSize `min` (0 `max` (total - (p - 1) * pageSize))
         ↔ p ≤ meta_TotalPage meta).
Proof.
  intros Hsize Htotal. unfold PaginatedResponse.
  rewrite decide_False by lia.
  rewrite Z.quot_div_nonneg, Z.rem_mod_nonneg by lia.
  pose proof (Z.div_mod total pageSize ltac:(lia)) as Hdiv.
  pose proof (Z.mod_pos_bound total pageSize ltac:(lia)) as Hmod.
  set (q := total `div` pageSize) in *. set (r := total `mod` pageSize) in *.
  assert (Hq : 0 ≤ q) by (subst q; apply Z.div_pos; lia).
  assert (Hmul : q ≤ pageSize * q) by nia.
  rewrite (int_wrap_in_range q) by lia.
  eexists _, _. split; [reflexivity|].
  split_and!; try done; cbn [meta_TotalPage].
  - case_decide; rewrite ?int_wrap_in_range by lia; nia.
  - case_decide; rewrite ?int_wrap_in_range by lia; nia.
  - intros p Hp. case_decide; rewrite ?int_wrap_in_range by lia; split; intros; nia.
Qed.

Lemma PaginatedResponse_total_pages_witness :
  ∃ response meta,
    PaginatedResponse ["a"; "b"] 2 2 5 = Some response
    ∧ response_Success response = true
    ∧ response_Data response = ["a"; "b"]
    ∧ response_Meta response = Some meta
    ∧ meta_Page meta = 2 ∧ meta_PageSize meta = 2
    ∧ meta_TotalRows meta = 5
    ∧ (meta_TotalPage meta - 1) * 2 < 5 ≤ meta_TotalPage meta * 2
    ∧ (∀ p, 1 ≤ p →
         0 < 2 `min` (0 `max` (5 - (p - 1) * 2))
         ↔ p ≤ meta_TotalPage meta).
Proof.
  apply (PaginatedResponse_total_pages ["a"; "b"] 2 2 5); lia.
Defined.

Example PaginatedResponse_five_rows :
  meta_TotalPage <$> (PaginatedResponse tt 1 2 5 ≫= response_Meta) = Some 3
  ∧ PaginatedResponse tt 1 0 5 = None.
Proof. done. Qed.

(** X20.  [GetPaginationParams], whatever [strconv.Atoi] answers: the page
    is at least one and the page size between one and a hundred, so that
    [PaginatedResponse] does not divide by zero on them and the services do
    not replace them; a parameter that is absent, that does not parse or
    that is out of these bounds gives page one and page size ten. *)
Theorem GetPaginationParams_bounds
    (strconv_Atoi : string → Z * option error) (page_query page_size_query : option string) :
  let params := GetPaginationParams strconv_Atoi page_query page_size_query in
  1 ≤ params.1 ∧ 1 ≤ params.2 ≤ 100
  ∧ (∀ A (data : A) total, is_Some (PaginatedResponse data params.1 params.2 total))
  ∧ page_window params.1 params.2 = (int_wrap ((params.1 - 1) * params.2), params.2)
  ∧ (is_Some (strconv_Atoi (default "1" page_query)).2
     ∨ (strconv_Atoi (default "1" page_query)).1 < 1 → params.1 = 1)
  ∧ (is_Some (strconv_Atoi (default "10" page_size_query)).2
     ∨ (strconv_Atoi (default "10" page_size_query)).1 < 1
     ∨ (strconv_Atoi (default "10" page_size_query)).1 > 100 → params.2 = 10).
Proof.
  unfold GetPaginationParams.
  destruct (strconv_Atoi (default "1" page_query)) as [page err1].
  destruct (strconv_Atoi (default "10" page_size_query)) as [pageSize err2]. simpl.
  assert (Hpage : 1 ≤ (if decide (is_Some err1 ∨ page < 1) then 1 else page)).
  { destruct (decide (is_Some err1 ∨ page < 1)) as [H|H]; [lia|].
    assert (¬ page < 1) by tauto. lia. }
  assert (Hsize : 1 ≤ (if decide (is_Some err2 ∨ pageSize < 1 ∨ pageSize > 100)
                       then 10 else pageSize) ≤ 100).
  { destruct (decide (is_Some err2 ∨ pageSize < 1 ∨ pageSize > 100)) as [H|H]; [lia|].
    assert (¬ pageSize < 1 ∧ ¬ pageSize > 100) by tauto. lia. }
  split_and!; try lia.
  - intros A data total. unfold PaginatedResponse.
    destruct (decide (_ = 0)) as [Hzero|_]; [lia|]. eauto.
  - unfold page_window.
    destruct (decide (_ < 1)) as [Hless|_]; [lia|].
    destruct (decide (_ < 1)) as [Hless|_]; [lia|]. done.
  - intros H. by rewrite decide_True.
  - intros H. by rewrite decide_True.
Qed.

(** ** No request without its collection *)

Lemma no_orphans_same_tables st st' : same_tables st st' → no_orphans st → no_orphans st'.
Proof. unfold no_orphans. by intros (-> & -> & _). Qed.

Lemma no_orphans_keys st st' :
  coll_ID <$> collections st' = coll_ID <$> collections st →
  Forall (λ r, req_CollectionID r ∈ coll_ID <$> collections st) (requests st') →
  no_orphans st'.
Proof. unfold no_orphans. by intros ->. Qed.

Lemma no_orphans_filter (P : Request → Prop) `{∀ r, Decision (P r)} st :
  no_orphans st →
  Forall (λ r, req_CollectionID r ∈ coll_ID <$> collections st) (filter P (requests st)).
Proof.
  intros Hst. apply Forall_forall. intros r [_ Hr]%list_elem_of_filter.
  unfold no_orphans in Hst. rewrite Forall_forall in Hst. auto.
Qed.

Lemma db_Exec_cases {A} (stmt : Storage → result A * Storage) st :
  ∃ fs, db_Exec stmt st = (Err sql_Error, set_faults fs st)
        ∨ db_Exec stmt st = stmt (set_faults fs st).
Proof.
  destruct st as [cs rs cseq rseq now fs]. destruct fs as [|[] fs]; simpl; eauto.
Qed.

Lemma collectionRepo_GetByID_cases id st :
  ∃ fs,
    (∃ e, collectionRepo_GetByID id st = (Err e, set_faults fs st))
    ∨ (∃ c, collectionRepo_GetByID id st = (Ok c, set_faults fs st)
            ∧ c ∈ collections st ∧ coll_ID c = id).
Proof.
  unfold collectionRepo_GetByID, wrap.
  destruct (db_Exec_cases (select_collection id) st) as [fs [->| ->]]; exists fs.
  - left. eauto.
  - unfold select_collection. simpl.
    destruct (list_find _ (collections st)) as [[i c]|] eqn:Hfind; [right|left; eauto].
    apply list_find_Some in Hfind as (Hi & Hc & _).
    exists c. split_and!; [done| |done]. by eapply list_elem_of_lookup_2.
Qed.

Lemma requestRepo_GetByID_cases id st :
  ∃ fs,
    (∃ e, requestRepo_GetByID id st = (Err e, set_faults fs st))
    ∨ (∃ r, requestRepo_GetByID id st = (Ok r, set_faults fs st)
            ∧ r ∈ requests st ∧ req_ID r = id).
Proof.
  unfold requestRepo_GetByID, wrap.
  destruct (db_Exec_cases (select_request id) st) as [fs [->| ->]]; exists fs.
  - left. eauto.
  - unfold select_request. simpl.
    destruct (list_find _ (requests st)) as [[i r]|] eqn:Hfind; [right|left; eauto].
    apply list_find_Some in Hfind as (Hi & Hr & _).
    exists r. split_and!; [done| |done]. by eapply list_elem_of_lookup_2.
Qed.

Lemma requestRepo_Create_tables r st :
  same_tables st (requestRepo_Create r st).2
  ∨ ∃ row, requests (requestRepo_Create r st).2 = requests st ++ [row]
           ∧ collections (requestRepo_Create r st).2 = collections st
           ∧ req_CollectionID row = req_CollectionID r.
Proof.
  destruct st as [cs rs cseq rseq now fs].
  destruct fs as [|[] fs]; simpl; [right|by left|right]; by eexists.
Qed.

Lemma requestRepo_Update_tables r st :
  same_tables st (requestRepo_Update r st).2
  ∨ ∃ row, requests (requestRepo_Update r st).2
           = (λ old, if decide (req_ID old = req_ID r) then row else old) <$> requests st
           ∧ collections (requestRepo_Update r st).2 = collections st
           ∧ req_CollectionID row = req_CollectionID r.
Proof.
  destruct st as [cs rs cseq rseq now fs].
  destruct fs as [|[] fs]; simpl; [right|by left|right]; by eexists.
Qed.

Lemma no_orphans_append st st' row :
  no_orphans st →
  requests st' = requests st ++ [row] →
  collections st' = collections st →
  req_CollectionID row ∈ coll_ID <$> collections st →
  no_orphans st'.
Proof.
  unfold no_orphans. intros Hst -> -> Hrow. apply Forall_app. split; [done|].
  by constructor.
Qed.

Lemma no_orphans_replace st st' row id :
  no_orphans st →
  requests st' = (λ old, if decide (req_ID old = id) then row else old) <$> requests st →
  collections st' = collections st →
  req_CollectionID row ∈ coll_ID <$> collections st →
  no_orphans st'.
Proof.
  unfold no_orphans. intros Hst -> -> Hrow. apply Forall_fmap.
  eapply Forall_impl; [exact Hst|]. simpl. intros old Hold. by case_decide.
Qed.

Lemma update_keeps_no_orphans (change : Request → Request) id st :
  (∀ r, req_CollectionID (change r) = req_CollectionID r) →
  no_orphans st →
  no_orphans
    ((request <- wrap "request not found" (requestRepo_GetByID id) ;;
      requestRepo_Update (change request) ;;
      ret tt) st).2.
Proof.
  intros Hchange Hst. unfold bind, wrap at 1.
  destruct (requestRepo_GetByID_cases id st) as [fs [[e ->]|(r & -> & Hr & _)]]; [done|].
  assert (Hcid : req_CollectionID r ∈ coll_ID <$> collections st).
  { unfold no_orphans in Hst. rewrite Forall_forall in Hst. auto. }
  destruct (requestRepo_Update_tables (change r) (set_faults fs st))
    as [Hsame|(row & Hrs & Hcs & Hrow)];
    destruct (requestRepo_Update (change r) (set_faults fs st)) as [[?|?] st']; simpl in *.
  - by eapply no_orphans_same_tables.
  - by eapply no_orphans_same_tables.
  - eapply (no_orphans_replace (set_faults fs st)); [done..|]. by rewrite Hrow, Hchange.
  - eapply (no_orphans_replace (set_faults fs st)); [done..|]. by rewrite Hrow, Hchange.
Qed.

Section NoOrphans.
Context {RT : Runtime}.

Lemma import_keeps_no_orphans data st :
  no_orphans st → no_orphans (ImportPostmanCollection data st).2.
Proof.
  intros Hst.
  destruct (import_run data st)
    as [[_ Hsame]|(document & n & _ & _ & _ & _ & Hcs & Hrs & _)].
  { by eapply no_orphans_same_tables. }
  unfold no_orphans. rewrite Hcs, Hrs, fmap_app. apply Forall_app. split.
  - eapply Forall_impl; [exact Hst|]. simpl. intros r Hr. apply elem_of_app. by left.
  - eapply Forall_impl; [apply stored_rows_collection_id|]. simpl. intros r ->.
    apply elem_of_app. right. apply list_elem_of_here.
Qed.

(** X21.  No operation of the two services leaves a request row without
    its collection row.  On a storage in which every request row refers to
    the key of a collection row, and whatever statements the storage accepts
    or refuses, the storage after an import, after [UpdateCollection] or
    [DeleteCollection], after [CreateRequest] (for a struct without a key),
    [CloneRequest] or [DeleteRequest], and after each of the three updates
    of one column is again such a storage.  This holds without a
    transaction around the statements of an operation: a collection row is
    written before its request rows and deleted after them. *)
Theorem services_keep_requests_with_their_collection (st : Storage) :
  no_orphans st →
  (∀ data, no_orphans (ImportPostmanCollection data st).2)
  ∧ (∀ collection, no_orphans (UpdateCollection collection st).2)
  ∧ (∀ id, no_orphans (DeleteCollection id st).2)
  ∧ (∀ request, req_ID request = 0 → no_orphans (CreateRequest request st).2)
  ∧ (∀ id newName, no_orphans (CloneRequest id newName st).2)
  ∧ (∀ id, no_orphans (DeleteRequest id st).2)
  ∧ (∀ id body, no_orphans (UpdateRequestPayload id body st).2)
  ∧ (∀ id headers, no_orphans (UpdateRequestHeaders id headers st).2)
  ∧ (∀ id params, no_orphans (UpdateRequestParams id params st).2).
Proof.
  intros Hst. split_and!.
  - intros data. by apply import_keeps_no_orphans.
  - intros collection. unfold UpdateCollection, bind, wrap at 1.
    destruct (collectionRepo_GetByID_cases (coll_ID collection) st)
      as [fs [[e ->]|(c & -> & Hc & Hid)]]; [done|].
    destruct st as [cs rs cseq rseq now fs0]. simpl in *.
    destruct fs as [|[] fs]; simpl; try done.
    all: eapply (no_orphans_keys (mkStorage cs rs cseq rseq now fs0)); [|exact Hst].
    all: simpl; rewrite <- list_fmap_compose; apply list_fmap_ext.
    all: intros i row _; simpl; by case_decide.
  - intros id. destruct st as [cs rs cseq rseq now fs].
    assert (Hfiltered : Forall (λ r, req_CollectionID r ∈ coll_ID <$> cs)
                          (filter (λ r, req_CollectionID r ≠ id) rs)).
    { apply (no_orphans_filter _ (mkStorage cs rs cseq rseq now fs) Hst). }
    assert (Hboth : Forall (λ r, req_CollectionID r
                                 ∈ coll_ID <$> filter (λ c, coll_ID c ≠ id) cs)
                      (filter (λ r, req_CollectionID r ≠ id) rs)).
    { apply Forall_forall. intros r [Hne Hr]%list_elem_of_filter.
      unfold no_orphans in Hst. rewrite Forall_forall in Hst. simpl in Hst.
      specialize (Hst r Hr). apply list_elem_of_fmap in Hst as (c & Hid & Hc).
      apply list_elem_of_fmap. exists c. split; [done|].
      apply list_elem_of_filter. split; [congruence|done]. }
    destruct fs as [|[] [|[] fs]]; simpl; done.
  - intros request _. unfold CreateRequest, bind, wrap at 1.
    destruct (collectionRepo_GetByID_cases (req_CollectionID request) st)
      as [fs [[e ->]|(c & -> & Hc & Hid)]]; [done|].
    destruct (requestRepo_Create_tables
                (Request_with_URL request (CreateRequest_URL (req_URL request)))
                (set_faults fs st)) as [Hsame|(row & Hrs & Hcs & Hrow)].
    + by eapply no_orphans_same_tables.
    + eapply (no_orphans_append (set_faults fs st)); [done..|].
      rewrite Hrow. simpl. apply list_elem_of_fmap. eauto.
  - intros id newName. unfold CloneRequest, bind, wrap at 1.
    destruct (requestRepo_GetByID_cases id st) as [fs [[e ->]|(r & -> & Hr & _)]]; [done|].
    assert (Hcid : req_CollectionID r ∈ coll_ID <$> collections st).
    { unfold no_orphans in Hst. rewrite Forall_forall in Hst. auto. }
    unfold wrap, ret.
    match goal with |- context [requestRepo_Create ?c ?s] =>
      destruct (requestRepo_Create_tables c s) as [Hsame|(row & Hrs & Hcs & Hrow)];
      destruct (requestRepo_Create c s) as [[?|?] st'] end; simpl in *.
    + by eapply no_orphans_same_tables.
    + by eapply no_orphans_same_tables.
    + eapply (no_orphans_append (set_faults fs st)); [done..|]. by rewrite Hrow.
    + eapply (no_orphans_append (set_faults fs st)); [done..|]. by rewrite Hrow.
  - intros id. unfold DeleteRequest, bind, wrap at 1.
    destruct (requestRepo_GetByID_cases id st) as [fs [[e ->]|(r & -> & Hr & _)]]; [done|].
    pose proof (no_orphans_filter (λ r, req_ID r ≠ id) st Hst) as Hfiltered.
    destruct st as [cs rs cseq rseq now fs0]. simpl in *.
    destruct fs as [|[] fs]; simpl; done.
  - intros id [body|]; [|done].
    by apply (update_keeps_no_orphans (λ r, Request_with_Body r (Some body))).
  - intros id [headers|]; [|done].
    by apply (update_keeps_no_orphans (λ r, Request_with_Headers r (Some headers))).
  - intros id [params|]; [|done].
    by apply (update_keeps_no_orphans (λ r, Request_with_Params r (Some params))).
Qed.

End NoOrphans.

Lemma services_keep_requests_with_their_collection_witness :
  let st := set_faults [false; true] sample_imported.2 in
  (∀ data, no_orphans
             (ImportPostmanCollection (RT := sample_runtime sample_text sample_document)
                data st).2)
  ∧ (∀ collection, no_orphans (UpdateCollection collection st).2)
  ∧ (∀ id, no_orphans (DeleteCollection id st).2)
  ∧ (∀ request, req_ID request = 0 → no_orphans (CreateRequest request st).2)
  ∧ (∀ id newName, no_orphans (CloneRequest id newName st).2)
  ∧ (∀ id, no_orphans (DeleteRequest id st).2)
  ∧ (∀ id body, no_orphans (UpdateRequestPayload id body st).2)
  ∧ (∀ id headers, no_orphans (UpdateRequestHeaders id headers st).2)
  ∧ (∀ id params, no_orphans (UpdateRequestParams id params st).2).
Proof.
  apply (services_keep_requests_with_their_collection
           (RT := sample_runtime sample_text sample_document)
           (set_faults [false; true] sample_imported.2)).
  vm_compute. repeat constructor.
Defined.

(** ** The operations that only read *)

Lemma reads_only_count {A} (q : Storage → A) : reads_only (db_Exec (λ st, (Ok (q st), st))).
Proof. apply (reads_only_query (λ st, Ok (q st))). Qed.

Lemma reads_only_select_request id : reads_only (requestRepo_GetByID id).
Proof.
  apply reads_only_wrap. intros st. destruct st as [cs rs cseq rseq now fs].
  unfold db_Exec, select_request. destruct fs as [|[] fs]; simpl; [|done|];
    by destruct (list_find _ rs) as [[i r]|].
Qed.

Section ReadOperations.
Context {RT : Runtime}.

(** X22.  The operations that read do not write: whatever the storage
    answers, both tables and both serial counters are after an export,
    after [GetCollection] and [GetRequest], and after each of the three
    listings what they were before. *)
Theorem read_operations_leave_tables (st : Storage) :
  (∀ id, same_tables st (ExportPostmanCollection id st).2)
  ∧ (∀ id, same_tables st (GetCollection id st).2)
  ∧ (∀ id, same_tables st (GetRequest id st).2)
  ∧ (∀ page pageSize, same_tables st (ListCollections page pageSize st).2)
  ∧ (∀ page pageSize, same_tables st (ListRequests page pageSize st).2)
  ∧ (∀ id page pageSize, same_tables st (ListRequestsByCollection id page pageSize st).2).
Proof.
  split_and!.
  - intros id. revert st. change (reads_only (ExportPostmanCollection id)).
    unfold ExportPostmanCollection.
    apply reads_only_bind; [|intros; apply reads_only_lift].
    unfold ExportPostmanCollection_document.
    apply reads_only_bind; [apply reads_only_wrap, reads_only_GetByID|].
    intros collection. rewrite export_cached_none. unfold export_rebuild.
    apply reads_only_bind; [|intros; apply reads_only_ret].
    apply reads_only_wrap, reads_only_wrap.
    apply (reads_only_count (λ st, select_requests id 0 1000 (requests st))).
  - intros id. apply reads_only_GetByID.
  - intros id. apply reads_only_select_request.
  - intros page pageSize. revert st. change (reads_only (ListCollections page pageSize)).
    unfold ListCollections. destruct (page_window page pageSize) as [offset limit].
    apply reads_only_bind.
    + apply reads_only_wrap.
      apply (reads_only_count (λ st, select_collections offset limit (collections st))).
    + intros rows. apply reads_only_bind; [|intros; apply reads_only_ret].
      apply reads_only_wrap.
      apply (reads_only_count (λ st, Z.of_nat (length (collections st)))).
  - intros page pageSize. revert st. change (reads_only (ListRequests page pageSize)).
    unfold ListRequests. destruct (page_window page pageSize) as [offset limit].
    apply reads_only_bind.
    + apply reads_only_wrap.
      apply (reads_only_count (λ st, select_all_requests offset limit (requests st))).
    + intros rows. apply reads_only_bind; [|intros; apply reads_only_ret].
      apply reads_only_wrap.
      apply (reads_only_count (λ st, Z.of_nat (length (requests st)))).
  - intros id page pageSize. revert st.
    change (reads_only (ListRequestsByCollection id page pageSize)).
    unfold ListRequestsByCollection.
    apply reads_only_bind; [apply reads_only_wrap, reads_only_GetByID|]. intros _.
    destruct (page_window page pageSize) as [offset limit].
    apply reads_only_bind.
    + apply reads_only_wrap.
      apply (reads_only_count (λ st, select_requests id offset limit (requests st))).
    + intros rows. apply reads_only_bind; [|intros; apply reads_only_ret].
      apply reads_only_wrap.
      apply (reads_only_count
               (λ st, Z.of_nat (length (filter (λ r, req_CollectionID r = id)
                                          (requests st))))).
Qed.

End ReadOperations.

(** ** OpenAPI specifications *)

Lemma sm_db_Exec_ok {A} (stmt : SpecStorage → result A * SpecStorage) st :
  head (specs_faults st) ≠ Some true →
  sm_db_Exec stmt st = stmt (sm_set_faults (tail (specs_faults st)) st).
Proof.
  intros Hhead. destruct st as [rows seq now fs].
  destruct fs as [|[] fs]; simpl in *; [done|congruence|done].
Qed.

Section OpenAPIProperties.
Variable json_Decode : list Byte.byte → result JSON.

(** X23.  [ImportOpenAPISpec] checks before it writes.  Unless the payload
    decodes to an object whose member [info] is an object with a non-empty
    string under [title] and under [version], the import returns an error
    and the storage is as it was: no statement has been sent and the clock
    has not been read. *)
Theorem ImportOpenAPISpec_checks_before_writing (data : list Byte.byte) (st : SpecStorage) :
  (∃ j o info title version,
      json_Decode data = Ok j ∧ openapi_document j o info title version)
  ∨ (∃ e, ImportOpenAPISpec json_Decode data st = (Err e, st)).
Proof.
  unfold ImportOpenAPISpec, sm_bind, sm_wrap at 1, sm_lift, json_Unmarshal_JSONMap.
  destruct (json_Decode data) as [j|e] eqn:Hdecode; [|right; eauto].
  destruct j as [| | | | |o]; simpl; try (right; eauto; fail).
  destruct (o !! "info") as [[| | | | |info]|] eqn:Hinfo; try (right; eauto; fail).
  destruct (info !! "title") as [[| | |title| |]|] eqn:Htitle; try (right; eauto; fail).
  destruct (decide (title = "")) as [|Ht]; [right; eauto|].
  destruct (info !! "version") as [[| | |version| |]|] eqn:Hversion;
    try (right; eauto; fail).
  destruct (decide (version = "")) as [|Hv]; [right; eauto|].
  left. exists (JObj o), o, info, title, version. by split.
Qed.

(** X24.  An OpenAPI document, imported and then exported.  The import of a
    payload that passes the checks, on a storage that accepts the insert,
    appends one row under a fresh key, which is the id returned; the row
    has the title, the version and the description (the empty string when
    [info] has none that is a string) of [info], and the whole document as
    its content.  The export of that id, when the storage answers the
    lookup, is the document that was imported, member for member. *)
Theorem openapi_import_then_export
    (data : list Byte.byte) (j : JSON) (o info : gmap string JSON)
    (title version : string) (st : SpecStorage) :
  json_Decode data = Ok j →
  openapi_document j o info title version →
  Forall (λ s, spec_ID s ≤ specs_id_seq st) (specs st) →
  no_fault_within 2 (specs_faults st) →
  ∃ id st1 st2 row,
    ImportOpenAPISpec json_Decode data st = (Ok id, st1)
    ∧ specs st1 = specs st ++ [row]
    ∧ spec_ID row = id ∧ id = specs_id_seq st + 1
    ∧ spec_Title row = title ∧ spec_Version row = version
    ∧ spec_Description row
      = match info !! "description" with Some (JStr desc) => desc | _ => "" end
    ∧ spec_Content row = Some o
    ∧ ExportOpenAPISpec id st1 = (Ok (JObj o), st2)
    ∧ specs st2 = specs st1.
Proof.
  intros Hdecode (-> & Hinfo & Htitle & Ht & Hversion & Hv) Hkeys
    [Hfirst Hsecond]%no_fault_within_two.
  unfold ImportOpenAPISpec, sm_bind at 1, sm_wrap at 1, sm_lift, json_Unmarshal_JSONMap.
  rewrite Hdecode. simpl. rewrite Hinfo, Htitle, decide_False, Hversion, decide_False by done.
  unfold sm_bind, sm_time_Now, openAPIRepo_Create, sm_bind, sm_wrap, sm_time_Now. simpl.
  rewrite sm_db_Exec_ok by done. simpl.
  eexists _, _, _, _. split; [reflexivity|]. simpl. split_and!; try done.
  - unfold ExportOpenAPISpec, GetOpenAPISpec, openAPIRepo_GetByID, sm_bind, sm_wrap.
    rewrite sm_db_Exec_ok by done. unfold select_spec. simpl.
    rewrite (list_find_middle (λ s, spec_ID s = specs_id_seq st + 1) (specs st) []).
    + reflexivity.
    + eapply Forall_impl; [exact Hkeys|]. simpl. lia.
    + done.
  - done.
Qed.

(** X25.  [UpdateOpenAPISpec] of the one row with the key of the struct, on
    a storage that accepts the two statements: the row is replaced in its
    place by the struct, but for [created_at], which stays that of the row,
    and [updated_at], which is the time of the call. *)
Theorem UpdateOpenAPISpec_keeps_created_at
    (spec existing : OpenAPISpec) (before after : list OpenAPISpec) (st : SpecStorage) :
  specs st = before ++ existing :: after →
  spec_ID existing = spec_ID spec →
  (spec_ID spec ∉ spec_ID <$> before ++ after) →
  no_fault_within 2 (specs_faults st) →
  ∃ st',
    let stored := OpenAPISpec_stamp spec (spec_CreatedAt existing) (specs_clock st + 1) in
    UpdateOpenAPISpec spec st = (Ok stored, st')
    ∧ specs st' = before ++ stored :: after
    ∧ spec_CreatedAt stored = spec_CreatedAt existing
    ∧ spec_Content stored = spec_Content spec.
Proof.
  intros Hrows Hid Hunique [Hfirst Hsecond]%no_fault_within_two.
  rewrite fmap_app in Hunique. apply not_elem_of_app in Hunique as [Hb Ha].
  apply not_elem_of_fmap_Forall in Hb, Ha.
  unfold UpdateOpenAPISpec, openAPIRepo_GetByID, sm_bind at 1, sm_wrap at 1 2.
  rewrite sm_db_Exec_ok by done. unfold select_spec. simpl.
  rewrite Hrows, (list_find_middle (λ s, spec_ID s = spec_ID spec) before after existing);
    [|by eapply Forall_impl; [exact Hb|]|done].
  unfold sm_bind, sm_time_Now, openAPIRepo_Update, sm_bind, sm_time_Now, sm_wrap. simpl.
  rewrite sm_db_Exec_ok by done. simpl.
  eexists. split; [reflexivity|]. simpl. split_and!; try done.
  rewrite Hrows.
  by rewrite (replace_middle (λ s, spec_ID s = spec_ID spec) before after existing).
Qed.

End OpenAPIProperties.

Lemma openapi_import_then_export_witness :
  ∃ id st1 st2 row,
    ImportOpenAPISpec sample_decode sample_text empty_specs = (Ok id, st1)
    ∧ specs st1 = specs empty_specs ++ [row]
    ∧ spec_ID row = id ∧ id = specs_id_seq empty_specs + 1
    ∧ spec_Title row = "Pets" ∧ spec_Version row = "1.0"
    ∧ spec_Description row
      = match ({[ "title" := JStr "Pets"; "version" := JStr "1.0" ]} : gmap string JSON)
                !! "description" with
        | Some (JStr desc) => desc
        | _ => ""
        end
    ∧ spec_Content row = Some sample_openapi
    ∧ ExportOpenAPISpec id st1 = (Ok (JObj sample_openapi), st2)
    ∧ specs st2 = specs st1.
Proof.
  apply (openapi_import_then_export sample_decode sample_text (JObj sample_openapi)
           sample_openapi {[ "title" := JStr "Pets"; "version" := JStr "1.0" ]}
           "Pets" "1.0" empty_specs).
  - vm_compute. reflexivity.
  - split_and!; try done; vm_compute; reflexivity.
  - constructor.
  - vm_compute. constructor.
Defined.

Lemma UpdateOpenAPISpec_keeps_created_at_witness :
  let spec := mkOpenAPISpec 1 "Pets" "" "2.0" None 0 0 in
  let existing := default spec (head (specs openapi_imported.2)) in
  ∃ st',
    let stored :=
      OpenAPISpec_stamp spec (spec_CreatedAt existing)
        (specs_clock openapi_imported.2 + 1) in
    UpdateOpenAPISpec spec openapi_imported.2 = (Ok stored, st')
    ∧ specs st' = [] ++ stored :: []
    ∧ spec_CreatedAt stored = spec_CreatedAt existing
    ∧ spec_Content stored = spec_Content spec.
Proof.
  intros spec existing.
  apply (UpdateOpenAPISpec_keeps_created_at spec existing [] [] openapi_imported.2).
  - vm_compute. reflexivity.
  - vm_compute. reflexivity.
  - vm_compute. by intros ?%not_elem_of_nil.
  - vm_compute. constructor.
Defined.
